(** * death: coordinated shutdown of a Go process

    A shallow embedding of [death.go] (package [death]) and the properties of
    its two components: the trigger unit ([NewDeath], [listenForSignal],
    [FallOnSword], [WaitForDeath]) and the mass-release coordinator
    ([closeInMass], [closeObjects], [getPkgPath]).

    Goroutines are modelled by interleaving: every atomic action of a
    goroutine (or of the environment: a signal delivered, a timer expiring, a
    [Close] call returning) is an event, a step function says what an event
    does to the shared state, and a run is a list of events.  A step is
    [Blocked] when the goroutine could not take it at that point and
    [Panic] when the Go runtime would abort the process. *)

From Stdlib Require Import ZArith String List.
From stdpp Require Import base option list gmap strings.

Local Open Scope string_scope.
Local Open Scope list_scope.
Local Open Scope Z_scope.

(** ** Outcomes of a step *)

Inductive outcome (A : Type) : Type :=
| Next (a : A)
| Blocked
| Panic (msg : string).
Arguments Next {A} a.
Arguments Blocked {A}.
Arguments Panic {A} msg.

(** Sequencing: the first step that blocks or panics ends the computation.
    This gives [outcome] stdpp's [x ← m; k] notation. *)
Global Instance outcome_bind : MBind outcome := fun A B f m =>
  match m with
  | Next a => f a
  | Blocked => Blocked
  | Panic msg => Panic msg
  end.

Global Instance outcome_ret : MRet outcome := fun A a => Next a.

(** A run: the events are taken in order, from the given state; the run
    stops at the first step that blocks or panics. *)
Fixpoint exec {E S : Type} (step : E -> S -> outcome S) (evs : list E) (s : S)
  : outcome S :=
  match evs with
  | [] => Next s
  | ev :: evs' => s' ← step ev s; exec step evs' s'
  end.

(** Go's [error] interface, seen through its [Error()] message; [None] is the
    [nil] error. *)
Abbreviation error := string (only parsing).

(** ** Channels

    A buffered channel as the Go runtime keeps it: the queued values in FIFO
    order, the capacity given to [make], and whether [close] was called. *)
Module Chan.

Record chan (A : Type) : Type := mkChan {
  buf : list A;
  cap : Z;
  closed : bool
}.
Arguments mkChan {A} buf cap closed.
Arguments buf {A} c.
Arguments cap {A} c.
Arguments closed {A} c.

(** [make(chan A, n)] *)
Definition make {A} (n : Z) : chan A := mkChan [] n false.

(** [len(ch)] *)
Definition len {A} (ch : chan A) : Z := Z.of_nat (length (buf ch)).

(** A send that is ready enqueues; a send on a full channel has to wait; a
    send on a closed channel panics. *)
Definition send {A} (ch : chan A) (x : A) : outcome (chan A) :=
  if closed ch then Panic "send on closed channel"
  else if len ch <? cap ch then Next (mkChan (buf ch ++ [x]) (cap ch) false)
  else Blocked.

(** A receive takes the oldest queued value; on an empty channel it waits,
    unless the channel is closed, in which case it yields the zero value. *)
Definition recv {A} (zero : A) (ch : chan A) : outcome (A * chan A) :=
  match buf ch with
  | x :: rest => Next (x, mkChan rest (cap ch) (closed ch))
  | [] => if closed ch then Next (zero, ch) else Blocked
  end.

End Chan.

(** ** Run-time types, as package [reflect] shows them *)
Module Reflect.

Inductive Kind : Type :=
| Invalid | Bool | Int | Int8 | Int16 | Int32 | Int64
| Uint | Uint8 | Uint16 | Uint32 | Uint64 | Uintptr
| Float32 | Float64 | Complex64 | Complex128
| Array | Chan | Func | Interface | Map | Ptr | Slice
| String | Struct | UnsafePointer.

(** The predeclared basic types. *)
Inductive basic : Type :=
| TBool | TInt | TInt8 | TInt16 | TInt32 | TInt64
| TUint | TUint8 | TUint16 | TUint32 | TUint64 | TUintptr
| TFloat32 | TFloat64 | TComplex64 | TComplex128 | TString.

Definition basic_kind (b : basic) : Kind :=
  match b with
  | TBool => Bool | TInt => Int | TInt8 => Int8 | TInt16 => Int16
  | TInt32 => Int32 | TInt64 => Int64 | TUint => Uint | TUint8 => Uint8
  | TUint16 => Uint16 | TUint32 => Uint32 | TUint64 => Uint64
  | TUintptr => Uintptr | TFloat32 => Float32 | TFloat64 => Float64
  | TComplex64 => Complex64 | TComplex128 => Complex128 | TString => String
  end.

Definition basic_name (b : basic) : string :=
  match b with
  | TBool => "bool" | TInt => "int" | TInt8 => "int8" | TInt16 => "int16"
  | TInt32 => "int32" | TInt64 => "int64" | TUint => "uint" | TUint8 => "uint8"
  | TUint16 => "uint16" | TUint32 => "uint32" | TUint64 => "uint64"
  | TUintptr => "uintptr" | TFloat32 => "float32" | TFloat64 => "float64"
  | TComplex64 => "complex64" | TComplex128 => "complex128"
  | TString => "string"
  end.

(** A Go type: predeclared ([int], [string]), defined by a type declaration
    in a package, or written as a type literal. *)
Inductive rtype : Type :=
| Predeclared (b : basic)
| DefinedType (pkg name : string) (underlying : rtype)
| PtrTo (elem : rtype)
| SliceOf (elem : rtype)
| ArrayOf (n : Z) (elem : rtype)
| ChanOf (elem : rtype)
| MapOf (key elem : rtype)
| StructLit
| FuncLit
| InterfaceLit.

(** [Type.Kind]: a defined type has the kind of its underlying type. *)
Fixpoint Kind_of (t : rtype) : Kind :=
  match t with
  | Predeclared b => basic_kind b
  | DefinedType _ _ u => Kind_of u
  | PtrTo _ => Ptr
  | SliceOf _ => Slice
  | ArrayOf _ _ => Array
  | ChanOf _ => Chan
  | MapOf _ _ => Map
  | StructLit => Struct
  | FuncLit => Func
  | InterfaceLit => Interface
  end.

(** [Type.Name]: the name of a defined or predeclared type, empty for a type
    literal. *)
Definition Name_of (t : rtype) : string :=
  match t with
  | Predeclared b => basic_name b
  | DefinedType _ n _ => n
  | _ => ""
  end.

(** [Type.PkgPath]: the import path of a defined type, empty for predeclared
    types and type literals. *)
Definition PkgPath_of (t : rtype) : string :=
  match t with
  | DefinedType p _ _ => p
  | _ => ""
  end.

(** [Type.Elem]: panics unless the kind is Array, Chan, Map, Ptr or Slice. *)
Fixpoint Elem_of (t : rtype) : outcome rtype :=
  match t with
  | DefinedType _ _ u => Elem_of u
  | PtrTo e | SliceOf e | ArrayOf _ e | ChanOf e | MapOf _ e => Next e
  | _ => Panic "reflect: Elem of invalid type"
  end.

(** A [reflect.Type] is an interface value: calling a method on the nil
    interface dereferences a nil pointer. *)
Abbreviation Type_ := (option rtype) (only parsing).

Definition call {A} (t : Type_) (m : rtype -> outcome A) : outcome A :=
  match t with
  | Some r => m r
  | None => Panic "invalid memory address or nil pointer dereference"
  end.

Definition mKind (t : Type_) : outcome Kind := call t (fun r => Next (Kind_of r)).
Definition mElem (t : Type_) : outcome Type_ := call t (fun r => e ← Elem_of r; Next (Some e)).
Definition mName (t : Type_) : outcome string := call t (fun r => Next (Name_of r)).
Definition mPkgPath (t : Type_) : outcome string := call t (fun r => Next (PkgPath_of r)).

End Reflect.

(** ** Closeable resources

    A non-nil [io.Closer] value: its dynamic type and an identity that tells
    two values of one type apart.  What its [Close] method returns, and
    when, is up to the environment (see [EvClose] below). *)
Record resource : Type := mkResource {
  dyntype : Reflect.rtype;
  ident : Z
}.

(** An [io.Closer] interface value; [None] is the nil interface. *)
Abbreviation Closer := (option resource) (only parsing).

(** [reflect.TypeOf]: the dynamic type, nil for a nil interface value. *)
Definition TypeOf (c : Closer) : Reflect.Type_ := dyntype <$> c.

(** [getPkgPath] *)
Definition getPkgPath (c : Closer) : outcome (string * string) :=
  let t := TypeOf c in
  k ← Reflect.mKind t;
  t ← (match k with
        | Reflect.Ptr => Reflect.mElem t
        | _ => Next t
        end);
  name ← Reflect.mName t;
  pkgPath ← Reflect.mPkgPath t;
  Next (name, pkgPath).

(** ** The logging capability

    A [Logger] is any object with [Error], [Debug], [Info] and [Warn]
    methods taking a variable list of values.  It is modelled by the trace of
    the calls made on it, oldest first. *)
Inductive Level : Type := LError | LDebug | LInfo | LWarn.

Inductive value : Type :=
| VStr (s : string)
| VInt (n : Z)
| VErr (e : error).

Record entry : Type := mkEntry { level : Level; args : list value }.

Abbreviation Logger := (list entry) (only parsing).

Definition logError (l : Logger) (v : list value) : Logger := l ++ [mkEntry LError v].
Definition logDebug (l : Logger) (v : list value) : Logger := l ++ [mkEntry LDebug v].
Definition logInfo (l : Logger) (v : list value) : Logger := l ++ [mkEntry LInfo v].
Definition logWarn (l : Logger) (v : list value) : Logger := l ++ [mkEntry LWarn v].

(** [len(closable)] *)
Definition len {A} (l : list A) : Z := Z.of_nat (length l).

(** ** The trigger unit: [Death], [NewDeath], [listenForSignal] and
    [FallOnSword] *)
Module Trigger.

(** An [os.Signal], by its number. *)
Abbreviation Signal := Z (only parsing).

(** The [Death] struct.  [wg] is the counter of the [*sync.WaitGroup],
    [timeout] a [time.Duration] in nanoseconds, [log] the logger. *)
Record Death : Type := mkDeath {
  wg : Z;
  sigChannel : Chan.chan Signal;
  callChannel : Chan.chan unit;
  timeout : Z;
  log : Logger
}.

(** The process around a [Death]: the signals registered with
    [signal.Notify] for [sigChannel], and whether the goroutine running
    [listenForSignal] is still in its loop. *)
Record world : Type := mkWorld {
  death : Death;
  notified : list Signal;
  listening : bool
}.

Definition Second : Z := 1000000000.

(** [WaitGroup.Add]: a counter that would go negative panics. *)
Definition wg_Add (counter delta : Z) : outcome Z :=
  if counter + delta <? 0 then Panic "sync: negative WaitGroup counter"
  else Next (counter + delta).

(** [WaitGroup.Done] *)
Definition wg_Done (counter : Z) : outcome Z := wg_Add counter (-1).

(** [WaitGroup.Wait]: returns once the counter is zero. *)
Definition wg_Wait (counter : Z) : outcome unit :=
  if counter =? 0 then Next tt else Blocked.

(** [NewDeath]: the struct literal, [signal.Notify], [wg.Add(1)] and the
    [go death.listenForSignal()]. *)
Definition NewDeath (signals : list Signal) : outcome world :=
  let death := mkDeath 0 (Chan.make 1) (Chan.make 1) (10 * Second) [] in
  counter ← wg_Add (wg death) 1;
  let death := mkDeath counter (sigChannel death) (callChannel death)
                 (timeout death) (log death) in
  Next (mkWorld death signals true).

(** [SetTimeout] *)
Definition SetTimeout (d : Death) (t : Z) : Death :=
  mkDeath (wg d) (sigChannel d) (callChannel d) t (log d).

(** [SetLogger] *)
Definition SetLogger (d : Death) (l : Logger) : Death :=
  mkDeath (wg d) (sigChannel d) (callChannel d) (timeout d) l.

(** The logger is modelled by its trace: a call on [d.log] leaves [d] with
    the longer trace. *)
Definition with_log (d : Death) (l : Logger) : Death :=
  mkDeath (wg d) (sigChannel d) (callChannel d) (timeout d) l.

(** [signal.Notify] relays the listed signals, and every signal when none
    is listed. *)
Definition relayed (signals : list Signal) (sg : Signal) : bool :=
  match signals with
  | [] => true
  | _ => bool_decide (sg ∈ signals)
  end.

(** Package [signal] delivering [sg]: a send on the registered channel
    that does not wait, so the signal is dropped when the channel is full. *)
Definition deliver (w : world) (sg : Signal) : outcome world :=
  if relayed (notified w) sg then
    let d := death w in
    match Chan.send (sigChannel d) sg with
    | Next ch =>
        Next (mkWorld (mkDeath (wg d) ch (callChannel d) (timeout d) (log d))
                (notified w) (listening w))
    | Blocked => Next w
    | Panic msg => Panic msg
    end
  else Next w.

(** [FallOnSword]: [select { case d.callChannel <- struct{}{}: default: }] *)
Definition FallOnSword (d : Death) : outcome Death :=
  match Chan.send (callChannel d) tt with
  | Next ch => Next (mkDeath (wg d) (sigChannel d) ch (timeout d) (log d))
  | Blocked => Next d
  | Panic msg => Panic msg
  end.

(** The two cases of the select in [listenForSignal]. *)
Inductive branch : Type := FromSig | FromCall.

(** [listenForSignal]: the select takes a case that is ready, the function
    returns and the deferred [d.wg.Done()] runs. *)
Definition listenForSignal (w : world) (b : branch) : outcome world :=
  if listening w then
    let d := death w in
    match b with
    | FromSig =>
        '(_, ch) ← Chan.recv 0 (sigChannel d);
        counter ← wg_Done (wg d);
        Next (mkWorld (mkDeath counter ch (callChannel d) (timeout d) (log d))
                (notified w) false)
    | FromCall =>
        '(_, ch) ← Chan.recv tt (callChannel d);
        counter ← wg_Done (wg d);
        Next (mkWorld (mkDeath counter (sigChannel d) ch (timeout d) (log d))
                (notified w) false)
    end
  else Blocked.

(** What can happen to the trigger unit: the operating system raises a
    signal, the host calls [FallOnSword] or a setter, the listener takes a
    case of its select. *)
Inductive event : Type :=
| EvSignal (sg : Signal)
| EvFallOnSword
| EvSetTimeout (t : Z)
| EvListen (b : branch).

Definition with_death (w : world) (d : Death) : world :=
  mkWorld d (notified w) (listening w).

Definition step (ev : event) (w : world) : outcome world :=
  match ev with
  | EvSignal sg => deliver w sg
  | EvFallOnSword => d ← FallOnSword (death w); Next (with_death w d)
  | EvSetTimeout t => Next (with_death w (SetTimeout (death w) t))
  | EvListen b => listenForSignal w b
  end.

Definition run : list event -> world -> outcome world := exec step.

End Trigger.

(** ** The mass-release coordinator: [closeInMass] and [closeObjects]

    The coordinator and the goroutines it starts share the channel
    [doneClosers] and the logger; [count] and [sentToClose] are the
    coordinator's own.  One turn of the range loop, with its [go] statement
    and its store into [sentToClose], is one step: the only goroutine that
    could run in between is the new one, and it touches nothing that the
    coordinator reads before its select.  [count] and the indices are Go
    [int]s; they stay between zero and [len(closable)] (lemma
    [count_in_range]), so no operation on them wraps and [Z] is exact. *)
Module Mass.

(** The [closer] struct. *)
Record closer : Type := mkCloser {
  Index : Z;
  C : Closer;
  Name : string;
  PKGPath : string
}.

(** The zero value of [closer]. *)
Definition zero : closer := mkCloser 0 None "" "".

(** Where a [closeObjects] goroutine stands: inside [closer.C.Close()],
    at [done <- closer], or finished. *)
Inductive gpc : Type := AtClose | AtSend | Finished.

(** Where [closeInMass] stands: in the [range] loop at index [i] with the
    elements [rest] still to visit, at the [select], or returned. *)
Inductive pc : Type :=
| Range (i : Z) (rest : list Closer)
| Select
| Return (err : option error).

(** The timer of [time.NewTimer]: not yet created, counting, expired with
    the time waiting in [timer.C], or expired with [timer.C] emptied. *)
Inductive timer : Type := NoTimer | Counting | Expired | Drained.

Record state : Type := mkState {
  timeout : Z;
  at_pc : pc;
  count : Z;
  sentToClose : gmap Z closer;
  doneClosers : Chan.chan closer;
  tm : timer;
  goroutines : list (closer * gpc);
  log : Logger
}.

(** [time.NewTimer(d)]: the timer counts.  When it expires is the
    scheduler's choice (the event [EvTimer] below), whatever [d] is. *)
Definition NewTimer (d : Z) : timer := Counting.

(** Entry of [closeInMass]: [count], [sentToClose] and [doneClosers] are
    set up, the loop is about to start.  Of [d] the call uses [d.timeout]
    and the logger [d.log]. *)
Definition closeInMass (d : Trigger.Death) (closable : list Closer) : state :=
  let count := len closable in
  mkState (Trigger.timeout d) (Range 0 closable) count ∅ (Chan.make count) NoTimer []
    (Trigger.log d).

(** What can happen next.  [EvClose g err]: in goroutine number [g] (in the
    order of the [go] statements) the call [closer.C.Close()] returns [err].
    [EvSelectTimer order]: the select takes [<-timer.C]; [order] is the order
    in which [range sentToClose] visits the keys, which Go leaves open. *)
Inductive event : Type :=
| EvRange
| EvTimer
| EvSelectTimer (order : list Z)
| EvSelectDone
| EvClose (g : nat) (err : option error)
| EvSend (g : nat).

(** One turn of [for i, c := range closable], or, when the range is
    exhausted, [timer := time.NewTimer(d.timeout)]. *)
Definition range_step (s : state) (i : Z) (rest : list Closer) : outcome state :=
  match rest with
  | c :: rest' =>
      '(name, pkgPath) ← getPkgPath c;
      let closer := mkCloser i c name pkgPath in
      Next (mkState (timeout s) (Range (i + 1) rest') (count s)
              (<[i := closer]> (sentToClose s)) (doneClosers s) (tm s)
              (goroutines s ++ [(closer, AtClose)]) (log s))
  | [] =>
      Next (mkState (timeout s) Select (count s) (sentToClose s) (doneClosers s)
              (NewTimer (timeout s)) (goroutines s) (log s))
  end.

(** The loop [for _, c := range sentToClose { d.log.Error(...) }], visiting
    the keys in the given order. *)
Fixpoint log_remaining (m : gmap Z closer) (order : list Z) (l : Logger) : Logger :=
  match order with
  | [] => l
  | k :: order' =>
      match m !! k with
      | Some c =>
          log_remaining m order'
            (logError l [VStr "Failed to close: "; VStr (PKGPath c); VStr "/"; VStr (Name c)])
      | None => log_remaining m order' l
      end
  end.

(** [case <-timer.C:] *)
Definition select_timer (s : state) (order : list Z) : outcome state :=
  match tm s with
  | Expired =>
      if bool_decide (order ≡ₚ (map_to_list (sentToClose s)).*1) then
        let l := logWarn (log s) [VInt (count s); VStr " object(s) remaining but timer expired."] in
        let l := log_remaining (sentToClose s) order l in
        Next (mkState (timeout s) (Return (Some "failed to close all objects")) (count s)
                (sentToClose s) (doneClosers s) Drained (goroutines s) l)
      else Blocked
  | _ => Blocked
  end.

(** [case closer := <-doneClosers:] *)
Definition select_done (s : state) : outcome state :=
  '(closer, ch) ← Chan.recv zero (doneClosers s);
  let m := delete (Index closer) (sentToClose s) in
  let count := count s - 1 in
  let l := logDebug (log s) [VInt count; VStr " object(s) left"] in
  if (count =? 0) && (Z.of_nat (size m) =? 0) then
    let l := logDebug l [VStr "Finished closing objects"] in
    Next (mkState (timeout s) (Return None) count m ch (tm s) (goroutines s) l)
  else
    Next (mkState (timeout s) Select count m ch (tm s) (goroutines s) l).

(** [closeObjects], first half: [err := closer.C.Close()] returns and a
    non-nil [err] is logged, as one step; [Fine] below has the two
    statements apart.  Calling [Close] on a nil interface panics. *)
Definition close_returns (s : state) (g : nat) (err : option error) : outcome state :=
  match goroutines s !! g with
  | Some (closer, AtClose) =>
      match C closer with
      | None => Panic "invalid memory address or nil pointer dereference"
      | Some _ =>
          let l := match err with
                   | Some e => logError (log s) [VErr e]
                   | None => log s
                   end in
          Next (mkState (timeout s) (at_pc s) (count s) (sentToClose s) (doneClosers s) (tm s)
                  (<[g := (closer, AtSend)]> (goroutines s)) l)
      end
  | _ => Blocked
  end.

(** [closeObjects], second half: [done <- closer]. *)
Definition send_done (s : state) (g : nat) : outcome state :=
  match goroutines s !! g with
  | Some (closer, AtSend) =>
      ch ← Chan.send (doneClosers s) closer;
      Next (mkState (timeout s) (at_pc s) (count s) (sentToClose s) ch (tm s)
              (<[g := (closer, Finished)]> (goroutines s)) (log s))
  | _ => Blocked
  end.

Definition step (ev : event) (s : state) : outcome state :=
  match ev with
  | EvRange =>
      match at_pc s with
      | Range i rest => range_step s i rest
      | _ => Blocked
      end
  | EvTimer =>
      match tm s with
      | Counting =>
          Next (mkState (timeout s) (at_pc s) (count s) (sentToClose s) (doneClosers s) Expired
                  (goroutines s) (log s))
      | _ => Blocked
      end
  | EvSelectTimer order =>
      match at_pc s with
      | Select => select_timer s order
      | _ => Blocked
      end
  | EvSelectDone =>
      match at_pc s with
      | Select => select_done s
      | _ => Blocked
      end
  | EvClose g err => close_returns s g err
  | EvSend g => send_done s g
  end.

Definition run : list event -> state -> outcome state := exec step.

End Mass.

(** ** The entry points: [WaitForDeath] and [WaitForDeathWithFunc] *)

(** How a call of [WaitForDeath] that got past [d.wg.Wait()] goes on:
    it has returned, or it is inside [closeInMass]. *)
Inductive call : Type :=
| Returned (err : option error) (l : Logger)
| InCloseInMass (s : Mass.state).

(** [WaitForDeath]: [Blocked] while [d.wg.Wait()] does not return. *)
Definition WaitForDeath (d : Trigger.Death) (closable : list Closer) : outcome call :=
  _ ← Trigger.wg_Wait (Trigger.wg d);
  let d := Trigger.with_log d (logInfo (Trigger.log d) [VStr "Shutdown started..."]) in
  let count := len closable in
  let d := Trigger.with_log d
             (logDebug (Trigger.log d) [VStr "Closing "; VInt count; VStr " objects"]) in
  if 0 <? count then Next (InCloseInMass (Mass.closeInMass d closable))
  else Next (Returned None (Trigger.log d)).

(** [WaitForDeathWithFunc]: the callback [f] is the host's; it is given the
    logger trace and the result is what the call leaves behind. *)
Definition WaitForDeathWithFunc {A} (d : Trigger.Death) (f : Logger -> A) : outcome A :=
  _ ← Trigger.wg_Wait (Trigger.wg d);
  let l := logInfo (Trigger.log d) [VStr "Shutdown started..."] in
  Next (f l).

(** * Specification

    The notions the properties below are stated with. *)

(** ** Names *)

(** A type literal has neither a name nor a package. *)
Definition literal (t : Reflect.rtype) : bool :=
  match t with
  | Reflect.Predeclared _ | Reflect.DefinedType _ _ _ => false
  | _ => true
  end.

(** ** The trigger unit *)

(** The two states of the trigger unit: the listener is still in its select,
    or it has taken a trigger and returned. *)
Inductive tstate : Type := Armed | Triggered.

Definition trigger_state (w : Trigger.world) : tstate :=
  if Trigger.listening w then Armed else Triggered.

(** A process that called [NewDeath signals] and then saw the events [evs]. *)
Definition from_NewDeath (signals : list Trigger.Signal) (evs : list Trigger.event)
  : outcome Trigger.world :=
  w ← Trigger.NewDeath signals; Trigger.run evs w.

Definition is_listen (ev : Trigger.event) : bool :=
  match ev with
  | Trigger.EvListen _ => true
  | _ => false
  end.

(** How many times the listener took a case of its select. *)
Definition listens (evs : list Trigger.event) : nat :=
  length (List.filter is_listen evs).

Section TriggerSpec.
Import Trigger.

(** What holds of every state of the trigger unit: both channels are open,
    have capacity one and hold at most one value, only subscribed signals
    sit in [sigChannel], and the WaitGroup counter is one exactly as long
    as the listener is in its loop. *)
Record tinv (signals : list Signal) (w : world) : Prop := mkTinv {
  ti_notified : notified w = signals;
  ti_sig_open : Chan.closed (sigChannel (death w)) = false;
  ti_call_open : Chan.closed (callChannel (death w)) = false;
  ti_sig_cap : Chan.cap (sigChannel (death w)) = 1;
  ti_call_cap : Chan.cap (callChannel (death w)) = 1;
  ti_sig_len : Chan.len (sigChannel (death w)) <= 1;
  ti_call_len : Chan.len (callChannel (death w)) <= 1;
  ti_relayed : Forall (fun sg => relayed signals sg = true)
                 (Chan.buf (sigChannel (death w)));
  ti_wg : wg (death w) = if listening w then 1 else 0
}.

(** Where the values in the channels came from, and how often the listener
    ran. *)
Record thist (evs : list event) (w : world) : Prop := mkThist {
  th_sig : forall sg, sg ∈ Chan.buf (sigChannel (death w)) -> EvSignal sg ∈ evs;
  th_call : Chan.buf (callChannel (death w)) <> [] -> EvFallOnSword ∈ evs;
  th_listens : listens evs = if listening w then 0%nat else 1%nat
}.

End TriggerSpec.

(** ** The mass-release coordinator *)

(** A [Death] as [closeInMass] finds it: made by [NewDeath], its listener
    has taken a trigger and run [wg.Done]; nothing has been logged yet. *)
Definition triggered : Trigger.Death :=
  Trigger.mkDeath 0 (Chan.make 1) (Chan.make 1) (10 * Trigger.Second) [].

(** A goroutine that has done its send. *)
Definition is_finished (g : Mass.closer * Mass.gpc) : bool :=
  match g.2 with
  | Mass.Finished => true
  | _ => false
  end.

(** How many goroutines have done their send. *)
Definition finished (gs : list (Mass.closer * Mass.gpc)) : nat :=
  length (List.filter is_finished gs).

(** The attempts whose completion the coordinator has not received: the
    goroutine has not sent yet, or what it sent still sits in the channel. *)
Definition pending (s : Mass.state) (cl : Mass.closer) : Prop :=
  exists g st,
    Mass.goroutines s !! g = Some (cl, st) /\
    (st = Mass.Finished -> cl ∈ Chan.buf (Mass.doneClosers s)).

(** The [closer] that [closeInMass] builds for position [g] of [closable]. *)
Definition wrapper (closable : list Closer) (g : nat) (cl : Mass.closer) : Prop :=
  exists c name pkgPath,
    closable !! g = Some c /\ getPkgPath c = Next (name, pkgPath) /\
    cl = Mass.mkCloser (Z.of_nat g) c name pkgPath.

(** The line [closeInMass] logs for a closer left over at the timeout. *)
Definition failed_to_close (cl : Mass.closer) : entry :=
  mkEntry LError
    [VStr "Failed to close: "; VStr (Mass.PKGPath cl); VStr "/"; VStr (Mass.Name cl)].

(** What the pending set says about who is left: name and origin of every
    entry. *)
Definition remaining (s : Mass.state) : list (string * string) :=
  (fun cl => (Mass.Name cl, Mass.PKGPath cl)) <$> (map_to_list (Mass.sentToClose s)).*2.

(** The events a coordinator left alone with the channel takes: the last
    turn of the range loop if it is still there, then one receive for every
    completion queued. *)
Definition drain (s : Mass.state) : list Mass.event :=
  match Mass.at_pc s with
  | Mass.Range _ _ => [Mass.EvRange]
  | _ => []
  end ++ replicate (length (Chan.buf (Mass.doneClosers s))) Mass.EvSelectDone.

(** The range loop is over: [closeInMass] is at its select or has returned. *)
Definition past_range (s : Mass.state) : Prop :=
  match Mass.at_pc s with
  | Mass.Range _ _ => False
  | _ => True
  end.

Section MassSpec.
Import Mass.

(** What holds of every state that a run of [closeInMass] over [closable]
    reaches: the channel is open and has the capacity of the batch; every
    goroutine carries the wrapper of its position; the channel holds, once
    each, closers of goroutines that have sent; the pending set holds exactly
    the attempts whose completion was not received; and the count, the
    timer and the number of goroutines fit the place the coordinator is at. *)
Record inv (closable : list Closer) (s : state) : Prop := mkInv {
  inv_cap : Chan.cap (doneClosers s) = len closable;
  inv_open : Chan.closed (doneClosers s) = false;
  inv_wrap : forall g cl st, goroutines s !! g = Some (cl, st) -> wrapper closable g cl;
  inv_nodup : NoDup (Chan.buf (doneClosers s));
  inv_buf : forall cl, cl ∈ Chan.buf (doneClosers s) ->
            exists g, goroutines s !! g = Some (cl, Finished);
  inv_map : forall k cl, sentToClose s !! k = Some cl <-> Index cl = k /\ pending s cl;
  inv_len : (length (Chan.buf (doneClosers s)) <= finished (goroutines s))%nat;
  inv_pc :
    match at_pc s with
    | Range i rest =>
        i = len (goroutines s) /\ rest = drop (length (goroutines s)) closable /\
        count s = len closable /\ tm s = NoTimer /\
        size (sentToClose s) = length (goroutines s)
    | Select =>
        length (goroutines s) = length closable /\
        count s = Z.of_nat (size (sentToClose s)) /\
        (tm s = Counting \/ tm s = Expired) /\
        (closable = [] \/ 0 < count s)
    | Return None =>
        length (goroutines s) = length closable /\
        count s = 0 /\ sentToClose s = ∅ /\ tm s <> NoTimer
    | Return (Some e) =>
        length (goroutines s) = length closable /\
        count s = Z.of_nat (size (sentToClose s)) /\
        tm s = Drained /\ e = "failed to close all objects"
    end
}.

End MassSpec.

(** ** Histories of a run of [closeInMass] *)

Definition is_select_done (ev : Mass.event) : bool :=
  match ev with
  | Mass.EvSelectDone => true
  | _ => false
  end.

(** How many completions the select has received. *)
Definition received (evs : list Mass.event) : nat :=
  length (List.filter is_select_done evs).

(** The results of the [Close] calls that returned an error, in the order
    in which the calls returned. *)
Definition close_errors (evs : list Mass.event) : list error :=
  omap (fun ev => match ev with
                  | Mass.EvClose _ (Some e) => Some e
                  | _ => None
                  end) evs.

(** The errors that [closeObjects] logged: the entries at error level whose
    only value is an error. *)
Definition logged_errors (l : Logger) : list error :=
  omap (fun en => match en with
                  | mkEntry LError [VErr e] => Some e
                  | _ => None
                  end) l.

(** The steps of the goroutines running [closeObjects], as opposed to those
    of the coordinator and of the timer. *)
Definition is_goroutine_event (ev : Mass.event) : bool :=
  match ev with
  | Mass.EvClose _ _ | Mass.EvSend _ => true
  | _ => false
  end.

(** The goroutines [k], [k+1], ... run to their end one after the other:
    the [Close] call returns the given result and the completion is sent. *)
Fixpoint attempts (k : nat) (results : list (option error)) : list Mass.event :=
  match results with
  | [] => []
  | err :: results' => Mass.EvClose k err :: Mass.EvSend k :: attempts (S k) results'
  end.

(** A run in which nothing is late: the range loop, every attempt with its
    result, then one receive per completion; the timer does not come into
    it. *)
Definition in_time (results : list (option error)) : list Mass.event :=
  replicate (S (length results)) Mass.EvRange ++ attempts 0 results ++
  replicate (length results) Mass.EvSelectDone.

(** ** How much of a run of [closeInMass] is left *)

(** The steps a goroutine still has before it: the return of [Close] and
    the send. *)
Definition goroutine_steps (g : Mass.closer * Mass.gpc) : nat :=
  match g.2 with
  | Mass.AtClose => 2
  | Mass.AtSend => 1
  | Mass.Finished => 0
  end.

(** A bound on the steps that can still be taken from a state: the turns of
    the range loop with the two steps of each goroutine they start, the
    creation of the timer, one receive per closer counted and the timer
    case; the expiry of the timer; and what the goroutines have left. *)
Definition steps_left (s : Mass.state) : nat :=
  (match Mass.at_pc s with
   | Mass.Range _ rest => 3 * length rest + Z.to_nat (Mass.count s) + 2
   | Mass.Select => Z.to_nat (Mass.count s) + 1
   | Mass.Return _ => 0
   end +
   match Mass.tm s with
   | Mass.NoTimer | Mass.Counting => 1
   | _ => 0
   end +
   sum_list_with goroutine_steps (Mass.goroutines s))%nat.

(** ** The host's calls on a [Death]

    The events of [Trigger] with calls of [SetLogger] among them. *)
Module Host.

(** A [Death] in the hands of its host.  [SetLogger] takes any value of the
    interface type [Logger], also nil: [nil_log] says that [d.log] holds
    nil, and the trace in [world] is then no logger's. *)
Record state : Type := mkState {
  world : Trigger.world;
  nil_log : bool
}.

(** [EvSetLogger (Some l)] is [SetLogger] with a logger whose trace so far
    is [l]; [EvSetLogger None] is [SetLogger(nil)]. *)
Inductive event : Type :=
| Trig (ev : Trigger.event)
| EvSetLogger (l : option Logger).

(** [w] with the logger [l] in place of its own. *)
Definition with_logger (w : Trigger.world) (l : Logger) : Trigger.world :=
  Trigger.with_death w (Trigger.SetLogger (Trigger.death w) l).

Definition step (ev : event) (st : state) : outcome state :=
  match ev with
  | Trig ev => w ← Trigger.step ev (world st); Next (mkState w (nil_log st))
  | EvSetLogger (Some l) => Next (mkState (with_logger (world st) l) false)
  | EvSetLogger None => Next (mkState (world st) true)
  end.

Definition run : list event -> state -> outcome state := exec step.

(** A process that called [NewDeath signals] and then saw the events [evs]. *)
Definition from_NewDeath (signals : list Trigger.Signal) (evs : list event)
  : outcome state :=
  w ← Trigger.NewDeath signals; run evs (mkState w false).

(** [WaitForDeath] on such a [Death]: after [d.wg.Wait()] the call
    [d.log.Info] on a nil interface value panics. *)
Definition WaitForDeath (st : state) (closable : list Closer) : outcome call :=
  _ ← Trigger.wg_Wait (Trigger.wg (Trigger.death (world st)));
  if nil_log st then
    Panic "runtime error: invalid memory address or nil pointer dereference"
  else WaitForDeath (Trigger.death (world st)) closable.

(** The events that are not calls of [SetLogger]. *)
Definition others (evs : list event) : list Trigger.event :=
  omap (fun ev => match ev with
                  | Trig ev => Some ev
                  | EvSetLogger _ => None
                  end) evs.

(** The timeout in force after the calls of [SetTimeout] among [evs], when
    it was [t] before. *)
Definition last_timeout (evs : list event) (t : Z) : Z :=
  foldl (fun t ev => match ev with
                     | Trig (Trigger.EvSetTimeout t') => t'
                     | _ => t
                     end) t evs.

(** The logger in force after the calls of [SetLogger] among [evs], when it
    was [l] before; [None] is nil. *)
Definition last_logger (evs : list event) (l : option Logger) : option Logger :=
  foldl (fun l ev => match ev with
                     | EvSetLogger l' => l'
                     | _ => l
                     end) l evs.

End Host.

(** ** [closeObjects] statement by statement

    In [Mass] the return of [closer.C.Close()] and the call
    [d.log.Error(err)] that follows a result that is not nil are one step of
    a goroutine.  Here they are two, as in the source, so that goroutines
    can log their errors in another order than the one in which their
    [Close] calls returned. *)
Module Fine.

(** [returned] holds, for every goroutine that stands between the two
    statements, the error its [Close] call returned; in [base] such a
    goroutine is still at [AtClose]. *)
Record state : Type := mkState {
  base : Mass.state;
  returned : gmap nat error
}.

Inductive event : Type :=
| EvRange
| EvTimer
| EvSelectTimer (order : list Z)
| EvSelectDone
| EvReturned (g : nat) (err : option error)
| EvLogged (g : nat)
| EvSend (g : nat).

Definition lift (r : outcome Mass.state) (m : gmap nat error) : outcome state :=
  s ← r; Next (mkState s m).

(** [err := closer.C.Close()]: a nil result takes the goroutine to its send,
    any other result to [d.log.Error(err)]. *)
Definition close_returned (fs : state) (g : nat) (err : option error) : outcome state :=
  match returned fs !! g with
  | Some _ => Blocked
  | None =>
      match err with
      | None => lift (Mass.close_returns (base fs) g None) (returned fs)
      | Some e =>
          match Mass.goroutines (base fs) !! g with
          | Some (closer, Mass.AtClose) =>
              match Mass.C closer with
              | None => Panic "invalid memory address or nil pointer dereference"
              | Some _ => Next (mkState (base fs) (<[g := e]> (returned fs)))
              end
          | _ => Blocked
          end
      end
  end.

(** [d.log.Error(err)] *)
Definition error_logged (fs : state) (g : nat) : outcome state :=
  match returned fs !! g with
  | Some e => lift (Mass.close_returns (base fs) g (Some e)) (delete g (returned fs))
  | None => Blocked
  end.

Definition step (ev : event) (fs : state) : outcome state :=
  match ev with
  | EvRange => lift (Mass.step Mass.EvRange (base fs)) (returned fs)
  | EvTimer => lift (Mass.step Mass.EvTimer (base fs)) (returned fs)
  | EvSelectTimer order => lift (Mass.step (Mass.EvSelectTimer order) (base fs)) (returned fs)
  | EvSelectDone => lift (Mass.step Mass.EvSelectDone (base fs)) (returned fs)
  | EvReturned g err => close_returned fs g err
  | EvLogged g => error_logged fs g
  | EvSend g => lift (Mass.send_done (base fs) g) (returned fs)
  end.

Definition run : list event -> state -> outcome state := exec step.

Definition closeInMass (d : Trigger.Death) (closable : list Closer) : state :=
  mkState (Mass.closeInMass d closable) ∅.

(** The results of the [Close] calls that returned an error, in the order
    in which the calls returned. *)
Definition close_errors (evs : list event) : list error :=
  omap (fun ev => match ev with
                  | EvReturned _ (Some e) => Some e
                  | _ => None
                  end) evs.

(** The errors returned and not logged yet. *)
Definition unlogged (fs : state) : list error := (map_to_list (returned fs)).*2.

End Fine.

(** ** Proof automation *)

(** For a goal [exists s, r = Next s /\ _] with [r] closed: runs [r] and
    keeps the equation as [H]. *)
Ltac reach H :=
  lazymatch goal with
  | |- ex (fun s => ?r = Next s /\ @?P s) =>
      eassert (H : r = Next _) by (vm_compute; reflexivity)
  end.

(** * Properties *)

(** ** Runs *)

Lemma exec_app {E S} (step : E -> S -> outcome S) evs1 evs2 s :
  exec step (evs1 ++ evs2) s = (s' ← exec step evs1 s; exec step evs2 s').
Proof.
  revert s. induction evs1 as [|ev evs1 IH]; intros s; simpl; [done|].
  destruct (step ev s) as [s'| |msg]; simpl; [apply IH|done|done].
Qed.

Lemma exec_snoc {E S} (step : E -> S -> outcome S) evs ev s s' :
  exec step (evs ++ [ev]) s = Next s' ->
  exists s1, exec step evs s = Next s1 /\ step ev s1 = Next s'.
Proof.
  rewrite exec_app. destruct (exec step evs s) as [s1| |msg]; simpl; [|done|done].
  destruct (step ev s1) as [s2| |msg] eqn:Hst; simpl; [|done|done].
  intros [= <-]. eauto.
Qed.

(** Induction over the states a run reaches, together with the events that
    led there. *)
Lemma exec_ind {E S} (step : E -> S -> outcome S) (P : list E -> S -> Prop) s0 :
  P [] s0 ->
  (forall evs s ev s',
      exec step evs s0 = Next s -> P evs s -> step ev s = Next s' ->
      P (evs ++ [ev]) s') ->
  forall evs s, exec step evs s0 = Next s -> P evs s.
Proof.
  intros H0 Hstep evs. induction evs as [|ev evs IH] using rev_ind; intros s Hrun.
  - simpl in Hrun. by injection Hrun as <-.
  - apply exec_snoc in Hrun as (s1 & Hrun & Hst). eauto.
Qed.

(** A run that panics does so at some step taken from a state it reached. *)
Lemma exec_panic {E S} (step : E -> S -> outcome S) evs s0 msg :
  exec step evs s0 = Panic msg ->
  exists evs1 ev s, exec step evs1 s0 = Next s /\ step ev s = Panic msg.
Proof.
  revert s0. induction evs as [|ev evs IH]; intros s0; simpl; [done|].
  destruct (step ev s0) as [s1| |m] eqn:Hst; simpl; [|done|].
  - intros (evs1 & ev' & s & Hrun & Hp)%IH.
    exists (ev :: evs1), ev', s. simpl. by rewrite Hst.
  - intros [= ->]. by exists [], ev, s0.
Qed.

(** ** Deriving the diagnostic name: [getPkgPath] *)

Lemma basic_kind_not_Ptr b : Reflect.basic_kind b <> Reflect.Ptr.
Proof. by destruct b. Qed.

(** [Elem] is safe on every type of kind [Ptr], which is how [getPkgPath]
    uses it. *)
Lemma Elem_of_Ptr t :
  Reflect.Kind_of t = Reflect.Ptr -> exists e, Reflect.Elem_of t = Next e.
Proof.
  induction t; simpl; intros Hk; try discriminate; eauto.
  by apply basic_kind_not_Ptr in Hk.
Qed.

(** On a non-nil closer [getPkgPath] returns the name and package of the
    dynamic type, or of its pointee when that type is a pointer. *)
Lemma getPkgPath_resource (r : resource) :
  exists t,
    (Reflect.Kind_of (dyntype r) = Reflect.Ptr /\ Reflect.Elem_of (dyntype r) = Next t
     \/ Reflect.Kind_of (dyntype r) <> Reflect.Ptr /\ t = dyntype r) /\
    getPkgPath (Some r) = Next (Reflect.Name_of t, Reflect.PkgPath_of t).
Proof.
  unfold getPkgPath. simpl.
  destruct (Reflect.Kind_of (dyntype r)) eqn:Hk;
    try (exists (dyntype r); split; [right; split; [congruence|done]|done]).
  destruct (Elem_of_Ptr _ Hk) as [e He]. exists e. split; [by left|].
  simpl. unfold Reflect.mElem. simpl. by rewrite He.
Qed.

(** C8, as the code has it: for every non-nil closeable value [getPkgPath]
    returns a name and an origin without panicking; they are those of the
    dynamic type (of its pointee for a pointer type), and both are the empty
    string when that type is a type literal, which has no name. *)
Theorem C8_getPkgPath_best_effort (r : resource) :
  exists t,
    (Reflect.Kind_of (dyntype r) = Reflect.Ptr /\ Reflect.Elem_of (dyntype r) = Next t
     \/ Reflect.Kind_of (dyntype r) <> Reflect.Ptr /\ t = dyntype r) /\
    getPkgPath (Some r) = Next (Reflect.Name_of t, Reflect.PkgPath_of t) /\
    (literal t = true -> getPkgPath (Some r) = Next ("", "")).
Proof.
  destruct (getPkgPath_resource r) as (t & Ht & Hg). exists t.
  split; [done|]. split; [done|].
  intros Hl. rewrite Hg. by destruct t.
Qed.

(** C8 fails for the nil interface value: [reflect.TypeOf] returns nil and
    the call [t.Kind()] panics. *)
Lemma C8_nil_closer_panics :
  getPkgPath None = Panic "invalid memory address or nil pointer dereference".
Proof. reflexivity. Qed.

(** ** The trigger unit *)

Section TriggerInvariant.
Import Trigger.
Variable signals : list Signal.

Lemma tinv_NewDeath w0 : NewDeath signals = Next w0 -> tinv signals w0.
Proof. intros [= <-]. by split. Qed.

Lemma send_open {A} (ch ch' : Chan.chan A) x :
  Chan.send ch x = Next ch' ->
  Chan.closed ch = false /\ Chan.len ch < Chan.cap ch /\
  ch' = Chan.mkChan (Chan.buf ch ++ [x]) (Chan.cap ch) false.
Proof.
  unfold Chan.send. destruct (Chan.closed ch); [done|].
  destruct (Chan.len ch <? Chan.cap ch) eqn:Hlt; [|done].
  intros [= <-]. apply Z.ltb_lt in Hlt. done.
Qed.

Lemma recv_open {A} (zero : A) (ch ch' : Chan.chan A) x :
  Chan.closed ch = false ->
  Chan.recv zero ch = Next (x, ch') ->
  Chan.buf ch = x :: Chan.buf ch' /\ Chan.cap ch' = Chan.cap ch /\
  Chan.closed ch' = false.
Proof.
  unfold Chan.recv. intros Hc. destruct (Chan.buf ch) as [|y rest] eqn:Hb.
  - by rewrite Hc.
  - intros [= <- <-]. done.
Qed.

Lemma len_app {A} (ch : Chan.chan A) x :
  Chan.len (Chan.mkChan (Chan.buf ch ++ [x]) (Chan.cap ch) false) = Chan.len ch + 1.
Proof. unfold Chan.len. simpl. rewrite length_app. simpl. lia. Qed.

Lemma tinv_step ev w w' : tinv signals w -> step ev w = Next w' -> tinv signals w'.
Proof.
  intros [Hn Hso Hco Hsc Hcc Hsl Hcl Hrel Hwg]. destruct ev as [sg| |t|b]; simpl.
  - unfold deliver. destruct (relayed (notified w) sg) eqn:Hr; [|by intros [= <-]].
    destruct (Chan.send _ sg) as [ch| |msg] eqn:Hs; [|by intros [= <-]|done].
    intros [= <-]. apply send_open in Hs as (_ & Hlt & ->).
    split; simpl; try done.
    + rewrite len_app. lia.
    + apply Forall_app. split; [done|]. apply Forall_singleton. by rewrite <- Hn.
  - unfold FallOnSword.
    destruct (Chan.send _ tt) as [ch| |msg] eqn:Hs; simpl; [|by intros [= <-]|done].
    intros [= <-]. apply send_open in Hs as (_ & Hlt & ->).
    split; simpl; try done. rewrite len_app. lia.
  - intros [= <-]. by split.
  - unfold listenForSignal. destruct (listening w) eqn:Hl; [|done].
    rewrite Hwg. destruct b.
    + destruct (Chan.recv 0 _) as [[x ch]| |msg] eqn:Hr; simpl; [|done|done].
      intros [= <-]. apply recv_open in Hr as (Hb & Hcap & Hcl'); [|done].
      split; simpl; try done; try (by rewrite Hcap).
      * unfold Chan.len in *. rewrite Hb in Hsl. simpl in Hsl. lia.
      * rewrite Hb in Hrel. by apply Forall_cons in Hrel as [_ ?].
    + destruct (Chan.recv tt _) as [[x ch]| |msg] eqn:Hr; simpl; [|done|done].
      intros [= <-]. apply recv_open in Hr as (Hb & Hcap & Hcl'); [|done].
      split; simpl; try done; try (by rewrite Hcap).
      unfold Chan.len in *. rewrite Hb in Hcl. simpl in Hcl. lia.
Qed.

Lemma tinv_run evs w w' : tinv signals w -> run evs w = Next w' -> tinv signals w'.
Proof.
  intros Hw Hrun. revert w' Hrun.
  apply (exec_ind step (fun _ w' => tinv signals w')); [done|].
  intros ? ? ? ? _ ? ?. by eapply tinv_step.
Qed.

Lemma tinv_reach evs w : from_NewDeath signals evs = Next w -> tinv signals w.
Proof.
  unfold from_NewDeath. destruct (NewDeath signals) as [w0| |] eqn:H0; [|done|done].
  simpl. apply tinv_run. by apply tinv_NewDeath.
Qed.

End TriggerInvariant.

Section TriggerHistory.
Import Trigger.
Variable signals : list Signal.

Lemma listens_snoc evs ev :
  listens (evs ++ [ev]) = (listens evs + if is_listen ev then 1 else 0)%nat.
Proof.
  unfold listens. rewrite List.filter_app, length_app. simpl.
  by destruct (is_listen ev).
Qed.

Lemma thist_step evs ev w w' :
  tinv signals w -> thist evs w -> step ev w = Next w' -> thist (evs ++ [ev]) w'.
Proof.
  intros Hinv [Hs Hc Hl] Hstep.
  assert (Hmono : forall e, e ∈ evs -> e ∈ evs ++ [ev]) by set_solver.
  assert (Hlast : ev ∈ evs ++ [ev]) by set_solver.
  destruct Hinv as [Hn Hso Hco Hsc Hcc Hsl Hcl Hrel Hwg].
  destruct ev as [sg| |t|b]; simpl in Hstep.
  - unfold deliver in Hstep.
    destruct (relayed (notified w) sg); [|injection Hstep as <-].
    2: { split; [auto|auto|]. rewrite listens_snoc. simpl. lia. }
    destruct (Chan.send _ sg) as [ch| |msg] eqn:Hsend; [| |done]; injection Hstep as <-.
    + apply send_open in Hsend as (_ & _ & ->).
      split; simpl; [|auto|rewrite listens_snoc; simpl; lia].
      intros sg' [?| ->%list_elem_of_singleton]%elem_of_app; auto.
    + split; [auto|auto|]. rewrite listens_snoc. simpl. lia.
  - split; [| |rewrite listens_snoc; simpl].
    + unfold FallOnSword in Hstep.
      destruct (Chan.send _ tt) as [ch| |msg]; simpl in Hstep; [| |done];
        injection Hstep as <-; simpl; auto.
    + auto.
    + unfold FallOnSword in Hstep.
      destruct (Chan.send _ tt) as [ch| |msg]; simpl in Hstep; [| |done];
        injection Hstep as <-; simpl; lia.
  - injection Hstep as <-. split; simpl; [auto|auto|].
    rewrite listens_snoc. simpl. lia.
  - unfold listenForSignal in Hstep. destruct (listening w) eqn:Hlis; [|done].
    rewrite Hwg in Hstep. destruct b.
    + destruct (Chan.recv 0 _) as [[x ch]| |msg] eqn:Hr; simpl in Hstep; [|done|done].
      injection Hstep as <-. apply recv_open in Hr as (Hb & _ & _); [|done].
      split; simpl; [|auto|rewrite listens_snoc; simpl; lia].
      intros sg Hin. apply Hmono, Hs. rewrite Hb. by right.
    + destruct (Chan.recv tt _) as [[x ch]| |msg] eqn:Hr; simpl in Hstep; [|done|done].
      injection Hstep as <-. apply recv_open in Hr as (Hb & _ & _); [|done].
      split; simpl; [auto| |rewrite listens_snoc; simpl; lia].
      intros _. apply Hmono, Hc. by rewrite Hb.
Qed.

Lemma thist_reach evs w :
  from_NewDeath signals evs = Next w -> tinv signals w /\ thist evs w.
Proof.
  unfold from_NewDeath. destruct (NewDeath signals) as [w0| |] eqn:H0; [|done|done].
  simpl. revert evs w.
  apply (exec_ind step (fun evs w => tinv signals w /\ thist evs w)).
  - split; [by apply tinv_NewDeath|]. injection H0 as <-.
    split; simpl; [set_solver|done|done].
  - intros evs w ev w' _ [Hi Hh] Hst. split; [by eapply tinv_step|by eapply thist_step].
Qed.

(** [FallOnSword] touches nothing but [callChannel]. *)
Lemma FallOnSword_frame d d' :
  FallOnSword d = Next d' ->
  wg d' = wg d /\ sigChannel d' = sigChannel d /\ timeout d' = timeout d /\
  log d' = log d.
Proof.
  unfold FallOnSword. destruct (Chan.send _ tt) as [ch| |msg]; [| |done];
    by intros [= <-].
Qed.

(** On an open channel of capacity one, [FallOnSword] returns with exactly
    one trigger queued, and changes nothing when one was queued already. *)
Lemma FallOnSword_returns d :
  Chan.closed (callChannel d) = false -> Chan.cap (callChannel d) = 1 ->
  Chan.len (callChannel d) <= 1 ->
  exists d', FallOnSword d = Next d' /\ Chan.buf (callChannel d') = [tt] /\
             Chan.closed (callChannel d') = false /\ Chan.cap (callChannel d') = 1 /\
             (Chan.buf (callChannel d) <> [] -> d' = d).
Proof.
  intros Hopen Hcap Hlen. unfold FallOnSword, Chan.send. rewrite Hopen, Hcap.
  unfold Chan.len in *. destruct (Chan.buf (callChannel d)) as [|[] [|? ?]] eqn:Hb;
    simpl in *; [| |lia].
  - eexists. split; [done|]. simpl. done.
  - exists d. done.
Qed.

(** No state of the trigger unit lets a step panic. *)
Lemma tinv_no_panic ev w msg : tinv signals w -> step ev w <> Panic msg.
Proof.
  intros [Hn Hso Hco Hsc Hcc Hsl Hcl Hrel Hwg]. destruct ev as [sg| |t|b]; simpl.
  - unfold deliver, Chan.send. rewrite Hso.
    destruct (relayed (notified w) sg); [|done].
    by destruct (Chan.len (sigChannel (death w)) <? _).
  - unfold FallOnSword, Chan.send. rewrite Hco.
    by destruct (Chan.len (callChannel (death w)) <? _).
  - done.
  - unfold listenForSignal. destruct (listening w); [|done]. rewrite Hwg.
    unfold Chan.recv. rewrite Hso, Hco.
    destruct b; [destruct (Chan.buf (sigChannel _))|destruct (Chan.buf (callChannel _))];
      done.
Qed.

Lemma tinv_run_no_panic evs w msg : tinv signals w -> run evs w <> Panic msg.
Proof.
  intros Hinv (evs1 & ev & w1 & Hrun & Hp)%exec_panic.
  eapply tinv_no_panic; [|exact Hp]. by eapply tinv_run.
Qed.

Lemma from_NewDeath_no_panic evs msg : from_NewDeath signals evs <> Panic msg.
Proof.
  unfold from_NewDeath. destruct (NewDeath signals) as [w0| |] eqn:H0; [|done|done].
  simpl. apply tinv_run_no_panic. by apply tinv_NewDeath.
Qed.

(** Once triggered, always triggered. *)
Lemma triggered_step ev w w' :
  step ev w = Next w' -> trigger_state w = Triggered -> trigger_state w' = Triggered.
Proof.
  unfold trigger_state. destruct (listening w) eqn:Hl; [done|]. intros Hst _.
  destruct ev as [sg| |t|b]; simpl in Hst.
  - unfold deliver in Hst. destruct (relayed _ _); [|injection Hst as <-; by rewrite Hl].
    destruct (Chan.send _ sg); [| |done]; injection Hst as <-; simpl; by rewrite Hl.
  - destruct (FallOnSword _); [|done|done]. injection Hst as <-. simpl. by rewrite Hl.
  - injection Hst as <-. simpl. by rewrite Hl.
  - unfold listenForSignal in Hst. by rewrite Hl in Hst.
Qed.

Lemma triggered_run evs w w' :
  run evs w = Next w' -> trigger_state w = Triggered -> trigger_state w' = Triggered.
Proof.
  intros Hrun Ht. revert w' Hrun.
  apply (exec_ind step (fun _ w' => trigger_state w' = Triggered)); [done|].
  intros ? ? ? ? _ ? ?. by eapply triggered_step.
Qed.

(** Only the listener taking a value out of one of its channels leaves
    [Armed]. *)
Lemma armed_step ev w w' :
  tinv signals w -> step ev w = Next w' ->
  trigger_state w = Armed -> trigger_state w' = Triggered ->
  (ev = EvListen FromSig /\ exists sg, Chan.buf (sigChannel (death w)) = [sg]) \/
  (ev = EvListen FromCall /\ Chan.buf (callChannel (death w)) = [tt]).
Proof.
  intros [Hn Hso Hco Hsc Hcc Hsl Hcl Hrel Hwg]. unfold trigger_state.
  destruct (listening w) eqn:Hl; [|done]. intros Hst _.
  destruct ev as [sg| |t|b]; simpl in Hst.
  - unfold deliver in Hst. destruct (relayed _ _); [|injection Hst as <-; by rewrite Hl].
    destruct (Chan.send _ sg); [| |done]; injection Hst as <-; simpl; by rewrite Hl.
  - destruct (FallOnSword _); [|done|done]. injection Hst as <-. simpl. by rewrite Hl.
  - injection Hst as <-. simpl. by rewrite Hl.
  - intros _. unfold listenForSignal in Hst. rewrite Hl in Hst.
    unfold Chan.recv, Chan.len in *. rewrite ?Hso, ?Hco in Hst. destruct b.
    + left. split; [done|].
      destruct (Chan.buf (sigChannel _)) as [|sg [|? ?]]; simpl in *; [done| |lia].
      by exists sg.
    + right. split; [done|].
      destruct (Chan.buf (callChannel _)) as [|[] [|? ?]]; simpl in *; [done|done|lia].
Qed.

(** While armed, a trigger that arrives can be taken by the listener, and
    taking it fires the unit. *)
Lemma armed_fires w :
  tinv signals w -> trigger_state w = Armed ->
  (forall sg, relayed signals sg = true ->
     exists w1 w2, step (EvSignal sg) w = Next w1 /\
                   step (EvListen FromSig) w1 = Next w2 /\
                   trigger_state w2 = Triggered) /\
  (exists w1 w2, step EvFallOnSword w = Next w1 /\
                 step (EvListen FromCall) w1 = Next w2 /\
                 trigger_state w2 = Triggered).
Proof.
  intros [Hn Hso Hco Hsc Hcc Hsl Hcl Hrel Hwg]. unfold trigger_state.
  destruct (listening w) eqn:Hl; [|done]. intros _. split.
  - intros sg Hrel'. simpl. unfold deliver, Chan.send, listenForSignal.
    rewrite Hn, Hrel', Hso, Hsc. unfold Chan.len in *.
    destruct (Chan.buf (sigChannel (death w))) as [|sg' [|? ?]] eqn:Hb;
      simpl in *; [| |lia].
    + do 2 eexists. split; [done|]. simpl. rewrite Hl, Hwg.
      unfold Chan.recv. simpl. try rewrite Hb. by simpl.
    + do 2 eexists. split; [done|]. simpl. rewrite Hl, Hwg.
      unfold Chan.recv. simpl. try rewrite Hb. by simpl.
  - simpl. unfold FallOnSword, Chan.send, listenForSignal.
    rewrite Hco, Hcc. unfold Chan.len in *.
    destruct (Chan.buf (callChannel (death w))) as [|[] [|? ?]] eqn:Hb;
      simpl in *; [| |lia].
    + do 2 eexists. split; [done|]. simpl. rewrite Hl, Hwg.
      unfold Chan.recv. simpl. try rewrite Hb. by simpl.
    + do 2 eexists. split; [done|]. simpl. rewrite Hl, Hwg.
      unfold Chan.recv. simpl. try rewrite Hb. by simpl.
Qed.

End TriggerHistory.

(** C4: once the trigger has fired, [WaitForDeath] over no resources logs
    its two lines and returns nil; it does not enter [closeInMass], so no
    goroutine is started and no timer is created.  With at least one
    resource it does enter [closeInMass]. *)
Theorem C4_WaitForDeath_empty signals evs w :
  from_NewDeath signals evs = Next w ->
  trigger_state w = Triggered ->
  WaitForDeath (Trigger.death w) [] =
    Next (Returned None
            (Trigger.log (Trigger.death w) ++
               [mkEntry LInfo [VStr "Shutdown started..."];
                mkEntry LDebug [VStr "Closing "; VInt 0; VStr " objects"]])) /\
  (forall c closable,
      WaitForDeath (Trigger.death w) (c :: closable) =
        Next (InCloseInMass
                (Mass.closeInMass
                   (Trigger.with_log (Trigger.death w)
                      (Trigger.log (Trigger.death w) ++
                         [mkEntry LInfo [VStr "Shutdown started..."];
                          mkEntry LDebug [VStr "Closing "; VInt (len (c :: closable));
                                          VStr " objects"]]))
                   (c :: closable)))).
Proof.
  intros Hrun Ht. apply tinv_reach in Hrun as [_ _ _ _ _ _ _ _ Hwg].
  unfold trigger_state in Ht. destruct (Trigger.listening w); [done|].
  unfold WaitForDeath, Trigger.wg_Wait. rewrite Hwg. split.
  - simpl. unfold logDebug, logInfo. by rewrite <- app_assoc.
  - intros c closable.
    assert (Hpos : (0 <? len (c :: closable)) = true)
      by (apply Z.ltb_lt; unfold len; simpl; lia).
    cbn [Z.eqb mbind outcome_bind]. rewrite Hpos.
    unfold logDebug, logInfo, Trigger.with_log. cbn [Trigger.log]. by rewrite <- app_assoc.
Qed.

Lemma C4_WaitForDeath_empty_witness :
  exists w,
    from_NewDeath [2; 15] [Trigger.EvFallOnSword; Trigger.EvListen Trigger.FromCall] = Next w /\
    WaitForDeath (Trigger.death w) [] =
      Next (Returned None
              [mkEntry LInfo [VStr "Shutdown started..."];
               mkEntry LDebug [VStr "Closing "; VInt 0; VStr " objects"]]).
Proof.
  eexists. split; [reflexivity|].
  exact (proj1 (C4_WaitForDeath_empty [2; 15]
                  [Trigger.EvFallOnSword; Trigger.EvListen Trigger.FromCall] _
                  eq_refl eq_refl)).
Defined.

(** C5: in every state the trigger unit can be in, [FallOnSword] returns:
    it neither waits nor panics.  It leaves the WaitGroup, the signal channel
    and the listener alone, so it never changes the trigger state, it leaves
    exactly one trigger queued in [callChannel] (capacity one), it changes
    nothing when a trigger was queued already, a second call straight after
    changes nothing, any number of calls in a row return, and nothing that
    happens afterwards makes the process panic. *)
Theorem C5_FallOnSword_never_blocks signals evs w :
  from_NewDeath signals evs = Next w ->
  Chan.cap (Trigger.callChannel (Trigger.death w)) = 1 /\
  (exists d',
      Trigger.FallOnSword (Trigger.death w) = Next d' /\
      Trigger.wg d' = Trigger.wg (Trigger.death w) /\
      Trigger.sigChannel d' = Trigger.sigChannel (Trigger.death w) /\
      trigger_state (Trigger.with_death w d') = trigger_state w /\
      Chan.buf (Trigger.callChannel d') = [tt] /\
      (Chan.buf (Trigger.callChannel (Trigger.death w)) <> [] -> d' = Trigger.death w) /\
      Trigger.FallOnSword d' = Next d') /\
  (forall n, exists w',
      Trigger.run (replicate n Trigger.EvFallOnSword) w = Next w' /\
      trigger_state w' = trigger_state w /\
      Trigger.wg (Trigger.death w') = Trigger.wg (Trigger.death w)) /\
  (forall evs' msg, Trigger.run evs' w <> Panic msg).
Proof.
  intros Hrun. apply tinv_reach in Hrun as Hinv. split; [by destruct Hinv|].
  split; [|split; [|intros evs' msg; by eapply tinv_run_no_panic]].
  - destruct Hinv as [_ _ Hco _ Hcc _ Hcl _ _].
    destruct (FallOnSword_returns _ Hco Hcc Hcl) as (d' & Hf & Hb & Hco' & Hcc' & Hid).
    exists d'. destruct (FallOnSword_frame _ _ Hf) as (Hwg & Hsig & _ & _).
    repeat split; try done.
    assert (Hl' : Chan.len (Trigger.callChannel d') <= 1)
      by (unfold Chan.len; rewrite Hb; simpl; lia).
    destruct (FallOnSword_returns _ Hco' Hcc' Hl') as (d'' & Hf' & _ & _ & _ & Hid').
    rewrite Hf'. f_equal. apply Hid'. by rewrite Hb.
  - intros n. induction n as [|n (w' & Hr & Hts & Hwg)].
    + by exists w.
    + assert (Hinv' : tinv signals w') by (by eapply tinv_run).
      destruct Hinv' as [_ _ Hco _ Hcc _ Hcl _ _].
      destruct (FallOnSword_returns _ Hco Hcc Hcl) as (d' & Hf & _).
      destruct (FallOnSword_frame _ _ Hf) as (Hwg' & _).
      exists (Trigger.with_death w' d').
      replace (S n) with (n + 1)%nat by lia. rewrite replicate_add.
      unfold Trigger.run in *. rewrite exec_app, Hr. simpl. rewrite Hf. simpl.
      split; [done|]. split; [done|]. congruence.
Qed.

Lemma C5_FallOnSword_never_blocks_witness :
  exists w,
    from_NewDeath [2; 15]
      [Trigger.EvSignal 15; Trigger.EvListen Trigger.FromSig; Trigger.EvFallOnSword] = Next w /\
    exists d',
      Trigger.FallOnSword (Trigger.death w) = Next d' /\
      trigger_state (Trigger.with_death w d') = trigger_state w /\
      Trigger.FallOnSword d' = Next d'.
Proof.
  eexists. split; [reflexivity|].
  destruct (C5_FallOnSword_never_blocks [2; 15]
              [Trigger.EvSignal 15; Trigger.EvListen Trigger.FromSig; Trigger.EvFallOnSword]
              _ eq_refl) as (_ & (d' & Hf & _ & _ & Hts & _ & _ & Hff) & _ & _).
  exists d'. split; [exact Hf|]. split; [exact Hts|exact Hff].
Defined.

(** C6: the trigger unit starts [Armed]; the WaitGroup counter is one while
    it is armed and zero once it is triggered; the listener takes a case of
    its select at most once; once triggered the unit stays triggered
    whatever happens; the only step from [Armed] to [Triggered] is the
    listener taking a subscribed signal out of [sigChannel] or a manual
    trigger out of [callChannel]; while armed, a subscribed signal or a call
    of [FallOnSword] lets the listener fire; and [WaitForDeath] and
    [WaitForDeathWithFunc] wait exactly as long as the unit is armed. *)
Theorem C6_trigger_one_shot signals evs w :
  from_NewDeath signals evs = Next w ->
  (exists w0, Trigger.NewDeath signals = Next w0 /\ trigger_state w0 = Armed) /\
  Trigger.wg (Trigger.death w) =
    match trigger_state w with Armed => 1 | Triggered => 0 end /\
  listens evs = match trigger_state w with Armed => 0%nat | Triggered => 1%nat end /\
  (forall evs' w',
      Trigger.run evs' w = Next w' ->
      trigger_state w = Triggered -> trigger_state w' = Triggered) /\
  (forall ev w',
      Trigger.step ev w = Next w' ->
      trigger_state w = Armed -> trigger_state w' = Triggered ->
      (ev = Trigger.EvListen Trigger.FromSig /\
       exists sg, Chan.buf (Trigger.sigChannel (Trigger.death w)) = [sg] /\
                  Trigger.relayed signals sg = true /\ Trigger.EvSignal sg ∈ evs) \/
      (ev = Trigger.EvListen Trigger.FromCall /\
       Chan.buf (Trigger.callChannel (Trigger.death w)) = [tt] /\
       Trigger.EvFallOnSword ∈ evs)) /\
  (trigger_state w = Armed ->
   (forall sg, Trigger.relayed signals sg = true ->
      exists w1 w2, Trigger.step (Trigger.EvSignal sg) w = Next w1 /\
                    Trigger.step (Trigger.EvListen Trigger.FromSig) w1 = Next w2 /\
                    trigger_state w2 = Triggered) /\
   (exists w1 w2, Trigger.step Trigger.EvFallOnSword w = Next w1 /\
                  Trigger.step (Trigger.EvListen Trigger.FromCall) w1 = Next w2 /\
                  trigger_state w2 = Triggered)) /\
  (forall closable (f : Logger -> Logger),
      match trigger_state w with
      | Armed =>
          WaitForDeath (Trigger.death w) closable = Blocked /\
          WaitForDeathWithFunc (Trigger.death w) f = Blocked
      | Triggered =>
          (exists c, WaitForDeath (Trigger.death w) closable = Next c) /\
          WaitForDeathWithFunc (Trigger.death w) f =
            Next (f (logInfo (Trigger.log (Trigger.death w)) [VStr "Shutdown started..."]))
      end).
Proof.
  intros Hrun. destruct (thist_reach _ _ _ Hrun) as [Hinv Hhist].
  split; [by eexists|].
  assert (Hwg := ti_wg _ _ Hinv). assert (Hl := th_listens _ _ Hhist).
  unfold trigger_state at 1 2 3.
  split; [by destruct (Trigger.listening w)|].
  split; [by destruct (Trigger.listening w)|].
  split; [intros evs' w'; apply triggered_run|].
  split.
  { intros ev w' Hst Ha Ht.
    destruct (armed_step _ _ _ _ Hinv Hst Ha Ht) as [[-> [sg Hb]]|[-> Hb]].
    - left. split; [done|]. exists sg. split; [done|]. split.
      + assert (Hrel := ti_relayed _ _ Hinv). rewrite Hb in Hrel.
        by inversion Hrel.
      + apply (th_sig _ _ Hhist). rewrite Hb. by left.
    - right. split; [done|]. split; [done|].
      apply (th_call _ _ Hhist). by rewrite Hb. }
  split; [by apply armed_fires|].
  intros closable f. unfold trigger_state, WaitForDeath,
    WaitForDeathWithFunc, Trigger.wg_Wait.
  rewrite Hwg. destruct (Trigger.listening w); simpl; [done|].
  split; [|done]. destruct (0 <? len closable); by eexists.
Qed.

Lemma C6_trigger_one_shot_witness :
  exists w,
    from_NewDeath [2; 15]
      [Trigger.EvSignal 9; Trigger.EvSignal 15; Trigger.EvFallOnSword;
       Trigger.EvListen Trigger.FromSig; Trigger.EvSignal 2] = Next w /\
    Trigger.wg (Trigger.death w) = 0 /\
    forall evs' w',
      Trigger.run evs' w = Next w' ->
      trigger_state w = Triggered -> trigger_state w' = Triggered.
Proof.
  eexists. split; [reflexivity|].
  destruct (C6_trigger_one_shot [2; 15]
              [Trigger.EvSignal 9; Trigger.EvSignal 15; Trigger.EvFallOnSword;
               Trigger.EvListen Trigger.FromSig; Trigger.EvSignal 2]
              _ eq_refl) as (_ & Hwg & _ & Hterm & _).
  split; [exact Hwg|exact Hterm].
Defined.

(** ** The mass-release coordinator *)

Section MassInvariant.
Import Mass.
Variable closable : list Closer.

Lemma inv_init d : inv closable (closeInMass d closable).
Proof.
  split; simpl; try done.
  - apply NoDup_nil_2.
  - intros cl Hin. by apply elem_of_nil in Hin.
  - intros k cl. rewrite lookup_empty. split; [done|].
    by intros (_ & g & st & Hg & _).
Qed.

(** A closer sits in one goroutine only: its index is the goroutine's
    number. *)
Lemma inv_index s g cl st :
  inv closable s -> goroutines s !! g = Some (cl, st) -> Index cl = Z.of_nat g.
Proof. intros Hinv Hg. by destruct (inv_wrap _ _ Hinv _ _ _ Hg) as (c & n & p & _ & _ & ->). Qed.

Lemma inv_same s g g' cl cl' st st' :
  inv closable s -> goroutines s !! g = Some (cl, st) -> goroutines s !! g' = Some (cl', st') ->
  Index cl = Index cl' -> g = g'.
Proof.
  intros Hinv Hg Hg' Hi.
  rewrite (inv_index _ _ _ _ Hinv Hg), (inv_index _ _ _ _ Hinv Hg') in Hi. lia.
Qed.

Lemma inv_length s : inv closable s -> (length (goroutines s) <= length closable)%nat.
Proof.
  intros Hinv. destruct (goroutines s) as [|x gs] eqn:Hgs using rev_ind; [simpl; lia|].
  clear IHgs. destruct x as [cl st].
  assert (Hl : goroutines s !! length gs = Some (cl, st))
    by (rewrite Hgs; apply list_lookup_middle; done).
  destruct (inv_wrap _ _ Hinv _ _ _ Hl) as (c & _ & _ & Hc%lookup_lt_Some & _).
  rewrite length_app. simpl. lia.
Qed.

Lemma finished_snoc gs cl st :
  finished (gs ++ [(cl, st)]) = (finished gs + if is_finished (cl, st) then 1 else 0)%nat.
Proof.
  unfold finished. rewrite List.filter_app, length_app. simpl.
  by destruct (is_finished (cl, st)).
Qed.

Lemma finished_insert gs g cl st st' :
  gs !! g = Some (cl, st) ->
  (finished (<[g := (cl, st')]> gs) + (if is_finished (cl, st) then 1 else 0) =
   finished gs + (if is_finished (cl, st') then 1 else 0))%nat.
Proof.
  revert g. induction gs as [|x gs IH]; intros [|g]; simpl; try done.
  - intros [= ->]. unfold finished. simpl.
    destruct (is_finished (cl, st)), (is_finished (cl, st')); simpl; lia.
  - intros Hg. specialize (IH g Hg). unfold finished in *. simpl.
    destruct (is_finished x); simpl; lia.
Qed.

Lemma finished_le gs : (finished gs <= length gs)%nat.
Proof. unfold finished. apply List.filter_length_le. Qed.

(** A goroutine that has not sent yet leaves room in the count. *)
Lemma finished_lt gs g cl st :
  gs !! g = Some (cl, st) -> st <> Finished -> (finished gs < length gs)%nat.
Proof.
  intros Hg Hst. pose proof (finished_insert gs g cl st Finished Hg) as H.
  pose proof (finished_le (<[g := (cl, Finished)]> gs)) as Hle.
  rewrite length_insert in Hle. unfold is_finished in H. simpl in H.
  destruct st; try done; lia.
Qed.

Lemma inv_range_step s i rest s' :
  inv closable s -> at_pc s = Range i rest -> range_step s i rest = Next s' -> inv closable s'.
Proof.
  intros Hinv Hpc Hst. pose proof (inv_pc _ _ Hinv) as Hp. rewrite Hpc in Hp.
  destruct Hp as (Hi & Hrest & Hcount & Htm & Hsize).
  pose proof (inv_length _ Hinv) as Hlen.
  unfold range_step in Hst. destruct rest as [|c rest'].
  { injection Hst as <-. destruct Hinv. split; simpl; try done.
    assert (length (goroutines s) = length closable) as Hl.
    { symmetry in Hrest. apply drop_nil_inv in Hrest. lia. }
    rewrite Hcount, Hsize, Hl. unfold len. split; [done|]. split; [done|].
    split; [by left|]. destruct closable; [by left|right; simpl; lia]. }
  destruct (getPkgPath c) as [[name pkgPath]| |] eqn:Hg; simpl in Hst; [|done|done].
  injection Hst as <-.
  set (g0 := length (goroutines s)) in *.
  set (cl0 := mkCloser i c name pkgPath).
  assert (Hc : closable !! g0 = Some c).
  { rewrite <- (Nat.add_0_r g0), <- lookup_drop, <- Hrest. done. }
  assert (Hw0 : wrapper closable g0 cl0).
  { exists c, name, pkgPath. unfold cl0. rewrite Hi. done. }
  assert (Hfresh : forall g cl st, goroutines s !! g = Some (cl, st) -> Index cl <> i).
  { intros g cl st Hgs. rewrite (inv_index _ _ _ _ Hinv Hgs), Hi.
    apply lookup_lt_Some in Hgs. unfold len. fold g0. lia. }
  assert (Hnone : sentToClose s !! i = None).
  { destruct (sentToClose s !! i) as [cl|] eqn:Hm; [|done].
    apply (inv_map _ _ Hinv) in Hm as (Hix & g & st & Hgs & _).
    by apply Hfresh in Hgs. }
  destruct Hinv as [Hcap Hopen Hwrap Hnd Hbuf Hmap Hl _].
  split; simpl; try done.
  - intros g cl st [[_ Hgs]|[-> [= <- <-]]]%lookup_snoc_Some; eauto.
  - intros cl (g & Hgs)%Hbuf. exists g. apply lookup_app_l_Some. done.
  - intros k cl. unfold pending. simpl. destruct (decide (i = k)) as [<-|Hne].
    + rewrite lookup_insert_eq. split.
      * intros [= <-]. split; [done|]. exists g0, AtClose.
        split; [by apply list_lookup_middle|done].
      * intros (Hix & g & st & [[_ Hgs]|[-> [= <- <-]]]%lookup_snoc_Some & _); [|done].
        by apply Hfresh in Hgs.
    + rewrite lookup_insert_ne by done. rewrite Hmap. unfold pending. split.
      * intros (Hix & g & st & Hgs & Hfin). split; [done|].
        exists g, st. split; [by apply lookup_app_l_Some|done].
      * intros (Hix & g & st & [[_ Hgs]|[-> [= <- <-]]]%lookup_snoc_Some & Hfin).
        -- split; [done|]. by exists g, st.
        -- simpl in Hix. done.
  - rewrite finished_snoc. simpl. lia.
  - split; [unfold len in *; rewrite length_app; simpl; lia|].
    rewrite length_app. simpl. fold g0.
    split. { rewrite Nat.add_1_r. apply drop_S in Hc. rewrite Hc in Hrest. by injection Hrest. }
    split; [done|]. split; [done|].
    rewrite map_size_insert_None by done. lia.
Qed.

Lemma inv_timer s :
  inv closable s -> tm s = Counting ->
  inv closable (mkState (timeout s) (at_pc s) (count s) (sentToClose s) (doneClosers s) Expired
         (goroutines s) (log s)).
Proof.
  intros [Hcap Hopen Hwrap Hnd Hbuf Hmap Hl Hpc] Htm. split; simpl; try done.
  destruct (at_pc s) as [i rest| |[e|]]; simpl in *.
  - destruct Hpc as (_ & _ & _ & Hno & _). congruence.
  - destruct Hpc as (? & ? & _ & ?). repeat split; auto.
  - destruct Hpc as (_ & _ & Hd & _). congruence.
  - destruct Hpc as (? & ? & ? & _). done.
Qed.

Lemma inv_select_timer s order s' :
  inv closable s -> at_pc s = Select -> select_timer s order = Next s' -> inv closable s'.
Proof.
  intros [Hcap Hopen Hwrap Hnd Hbuf Hmap Hl Hpc] Hat. unfold select_timer.
  destruct (tm s); try done. case_bool_decide; [|done]. intros [= <-].
  split; simpl; try done. rewrite Hat in Hpc. destruct Hpc as (? & ? & _). done.
Qed.

(** What a receive at the select finds: the oldest completion, whose
    closer is still in the pending set. *)
Lemma select_done_recv s :
  inv closable s ->
  forall cl ch, Chan.recv zero (doneClosers s) = Next (cl, ch) ->
  Chan.buf (doneClosers s) = cl :: Chan.buf ch /\
  Chan.cap ch = Chan.cap (doneClosers s) /\ Chan.closed ch = false /\
  sentToClose s !! Index cl = Some cl.
Proof.
  intros Hinv cl ch Hr.
  apply recv_open in Hr as (Hb & Hc & Ho); [|by destruct Hinv].
  repeat split; try done. apply (inv_map _ _ Hinv). split; [done|].
  assert (Hin : cl ∈ Chan.buf (doneClosers s)) by (rewrite Hb; by left).
  destruct (inv_buf _ _ Hinv _ Hin) as [g Hg]. by exists g, Finished.
Qed.

Lemma inv_select_done s s' :
  inv closable s -> at_pc s = Select -> select_done s = Next s' -> inv closable s'.
Proof.
  intros Hinv Hat. unfold select_done.
  destruct (Chan.recv zero (doneClosers s)) as [[cl ch]| |] eqn:Hr; simpl; [|done|done].
  destruct (select_done_recv _ Hinv _ _ Hr) as (Hb & Hc & Ho & Hm).
  assert (Hsz : Z.of_nat (size (delete (Index cl) (sentToClose s))) =
                Z.of_nat (size (sentToClose s)) - 1).
  { rewrite map_size_delete, Hm. simpl.
    assert (size (sentToClose s) <> 0%nat); [|lia].
    intros He%map_size_empty_inv. rewrite He in Hm. by rewrite lookup_empty in Hm. }
  pose proof (inv_pc _ _ Hinv) as Hp. rewrite Hat in Hp.
  destruct Hp as (Hlen & Hcount & Htm & Hpos).
  assert (Hnd : NoDup (cl :: Chan.buf ch)) by (rewrite <- Hb; by destruct Hinv).
  apply NoDup_cons in Hnd as [Hnotin Hnd].
  assert (Hinv' : forall l p c,
    (match p with
     | Select => 0 < c
     | Return None => c = 0
     | _ => False
     end) ->
    c = Z.of_nat (size (delete (Index cl) (sentToClose s))) ->
    inv closable (mkState (timeout s) p c (delete (Index cl) (sentToClose s)) ch (tm s) (goroutines s) l)).
  { intros l p c Hp Hcc. destruct Hinv as [Hcap Hopen Hwrap _ Hbuf Hmap Hl _].
    split; simpl; try done.
    - by rewrite Hc.
    - intros cl' Hin. apply Hbuf. rewrite Hb. by right.
    - intros k cl'. unfold pending. simpl. rewrite lookup_delete_Some, Hmap.
      unfold pending. split.
      + intros (Hne & Hix & g & st & Hg & Hfin). split; [done|].
        exists g, st. split; [done|]. intros Hst. specialize (Hfin Hst).
        rewrite Hb in Hfin. apply elem_of_cons in Hfin as [->|?]; [|done].
        by rewrite Hix in Hne.
      + intros (Hix & g & st & Hg & Hfin). split.
        * intros Heq. assert (Hin : cl ∈ Chan.buf (doneClosers s)) by (rewrite Hb; by left).
          destruct (Hbuf _ Hin) as [g' Hg'].
          assert (g' = g).
          { destruct (Hwrap _ _ _ Hg) as (? & ? & ? & _ & _ & ->).
            destruct (Hwrap _ _ _ Hg') as (? & ? & ? & _ & _ & ->).
            simpl in *. lia. }
          subst g'. rewrite Hg in Hg'. injection Hg' as -> ->. by apply Hnotin, Hfin.
        * split; [done|]. exists g, st. split; [done|].
          intros Hst. rewrite Hb. right. by apply Hfin.
    - rewrite Hb in Hl. simpl in Hl. lia.
    - destruct p as [| |[|]]; try done.
      + repeat split; try done. right. done.
      + repeat split; try done.
        * apply map_size_empty_inv. lia.
        * destruct Htm; congruence. }
  destruct ((count s - 1 =? 0) && _) eqn:Hz; intros [= <-]; apply Hinv'; [|lia| |lia].
  - apply andb_true_iff in Hz as [Hz _]. by apply Z.eqb_eq in Hz.
  - rewrite Hsz, <- Hcount in Hz. rewrite andb_diag in Hz.
    apply Z.eqb_neq in Hz. lia.
Qed.

Lemma inv_close_returns s g err s' :
  inv closable s -> close_returns s g err = Next s' -> inv closable s'.
Proof.
  intros Hinv. unfold close_returns.
  destruct (goroutines s !! g) as [[cl [| |]]|] eqn:Hg; try done.
  destruct (C cl); [|done]. intros [= <-].
  pose proof (lookup_lt_Some _ _ _ Hg) as Hlt.
  destruct Hinv as [Hcap Hopen Hwrap Hnd Hbuf Hmap Hl Hpc].
  assert (Hlook : forall g' cl' st',
    <[g := (cl, AtSend)]> (goroutines s) !! g' = Some (cl', st') ->
    exists st, goroutines s !! g' = Some (cl', st) /\ (st = Finished <-> st' = Finished)).
  { intros g' cl' st' [(-> & [= <- <-] & _)|[_ ?]]%list_lookup_insert_Some; eauto.
    exists AtClose. done. }
  split; simpl; try done.
  - intros g' cl' st' (st & ? & _)%Hlook. eauto.
  - intros cl' (g' & Hg')%Hbuf. exists g'.
    rewrite list_lookup_insert_ne; [done|]. intros ->. congruence.
  - intros k cl'. rewrite Hmap. unfold pending. simpl. split.
    + intros (Hix & g' & st & Hg' & Hfin). split; [done|].
      destruct (decide (g = g')) as [<-|Hne].
      * exists g, AtSend. rewrite Hg in Hg'. injection Hg' as <- <-.
        split; [by apply list_lookup_insert_eq|done].
      * exists g', st. by rewrite list_lookup_insert_ne.
    + intros (Hix & g' & st' & (st & Hg' & Himp)%Hlook & Hfin). split; [done|].
      exists g', st. split; [done|]. intros Hst. by apply Hfin, Himp.
  - pose proof (finished_insert _ _ _ _ AtSend Hg) as Hf.
    unfold is_finished in Hf. simpl in Hf. lia.
  - rewrite length_insert. unfold len in *. rewrite length_insert.
    destruct (at_pc s) as [i rest| |[e|]]; done.
Qed.

(** A goroutine that stands at its send finds room in the channel. *)
Lemma send_done_room s g cl :
  inv closable s -> goroutines s !! g = Some (cl, AtSend) ->
  Chan.len (doneClosers s) < Chan.cap (doneClosers s).
Proof.
  intros Hinv Hg. rewrite (inv_cap _ _ Hinv). unfold Chan.len, len.
  pose proof (inv_len _ _ Hinv). pose proof (inv_length _ Hinv).
  assert (finished (goroutines s) < length (goroutines s))%nat; [|lia].
  by eapply finished_lt.
Qed.

Lemma inv_send_done s g s' :
  inv closable s -> send_done s g = Next s' -> inv closable s'.
Proof.
  intros Hinv. unfold send_done.
  destruct (goroutines s !! g) as [[cl [| |]]|] eqn:Hg; try done.
  destruct (Chan.send (doneClosers s) cl) as [ch| |] eqn:Hs; simpl; [|done|done].
  intros [= <-]. apply send_open in Hs as (_ & _ & ->).
  assert (Hnotin : cl ∉ Chan.buf (doneClosers s)).
  { intros (g' & Hg')%(inv_buf _ _ Hinv).
    assert (g = g') as <- by (by eapply inv_same). congruence. }
  assert (Hlook : forall g' cl' st',
    <[g := (cl, Finished)]> (goroutines s) !! g' = Some (cl', st') ->
    (g' = g /\ cl' = cl /\ st' = Finished) \/ (g' <> g /\ goroutines s !! g' = Some (cl', st'))).
  { intros g' cl' st' [(-> & [= <- <-] & _)|[? ?]]%list_lookup_insert_Some; eauto. }
  pose proof (lookup_lt_Some _ _ _ Hg) as Hlt.
  assert (Hother : forall g' cl' st', g' <> g -> goroutines s !! g' = Some (cl', st') -> cl' <> cl).
  { intros g' cl' st' Hne Hg' ->. apply Hne. by eapply inv_same. }
  destruct Hinv as [Hcap Hopen Hwrap Hnd Hbuf Hmap Hl Hpc].
  split; simpl; try done.
  - intros g' cl' st' [(-> & -> & ->)|[_ ?]]%Hlook; eauto.
  - apply NoDup_app. split; [done|]. split; [|apply NoDup_singleton].
    intros x Hx ->%list_elem_of_singleton. done.
  - intros cl' [(g' & Hg')%Hbuf| ->%list_elem_of_singleton]%elem_of_app.
    + exists g'. rewrite list_lookup_insert_ne; [done|]. intros ->. congruence.
    + exists g. by apply list_lookup_insert_eq.
  - intros k cl'. rewrite Hmap. unfold pending. simpl. split.
    + intros (Hix & g' & st & Hg' & Hfin). split; [done|].
      destruct (decide (g = g')) as [<-|Hne].
      * exists g, Finished. rewrite Hg in Hg'. injection Hg' as <- <-.
        split; [by apply list_lookup_insert_eq|]. intros _. apply elem_of_app. right.
        by apply list_elem_of_singleton.
      * exists g', st. rewrite list_lookup_insert_ne by done. split; [done|].
        intros Hst. apply elem_of_app. left. by apply Hfin.
    + intros (Hix & g' & st' & [(-> & -> & ->)|[Hne Hg']]%Hlook & Hfin);
        (split; [done|]).
      * by exists g, AtSend.
      * exists g', st'. split; [done|]. intros Hst.
        pose proof (Hfin Hst) as [?| ->%list_elem_of_singleton]%elem_of_app; [done|].
        by eapply Hother in Hg'.
  - rewrite length_app. simpl.
    pose proof (finished_insert _ _ _ _ Finished Hg) as Hf.
    unfold is_finished in Hf. simpl in Hf. lia.
  - rewrite length_insert. unfold len in *. rewrite length_insert.
    destruct (at_pc s) as [i rest| |[e|]]; done.
Qed.

Lemma inv_step ev s s' : inv closable s -> step ev s = Next s' -> inv closable s'.
Proof.
  intros Hinv. destruct ev as [| |order| |g err|g]; simpl.
  - destruct (at_pc s) as [i rest| |] eqn:Hat; [|done|done]. by apply inv_range_step.
  - destruct (tm s) eqn:Htm; try done. intros [= <-]. by apply inv_timer.
  - destruct (at_pc s) eqn:Hat; try done. by apply inv_select_timer.
  - destruct (at_pc s) eqn:Hat; try done. by apply inv_select_done.
  - apply inv_close_returns; done.
  - apply inv_send_done; done.
Qed.

Lemma inv_run d evs s : run evs (closeInMass d closable) = Next s -> inv closable s.
Proof.
  revert evs s. apply (exec_ind step (fun _ s => inv closable s)); [apply inv_init|].
  intros ? ? ? ? _ ? ?. by eapply inv_step.
Qed.

End MassInvariant.

(** *** What each step does *)

Section MassSteps.
Import Mass.

Lemma range_step_spec s i rest s' :
  range_step s i rest = Next s' ->
  (rest = [] /\
   s' = mkState (timeout s) Select (count s) (sentToClose s) (doneClosers s) Counting
          (goroutines s) (log s)) \/
  (exists c rest' name pkgPath,
      rest = c :: rest' /\ getPkgPath c = Next (name, pkgPath) /\
      s' = mkState (timeout s) (Range (i + 1) rest') (count s)
             (<[i := mkCloser i c name pkgPath]> (sentToClose s)) (doneClosers s) (tm s)
             (goroutines s ++ [(mkCloser i c name pkgPath, AtClose)]) (log s)).
Proof.
  unfold range_step. destruct rest as [|c rest']; [intros [= <-]; by left|].
  destruct (getPkgPath c) as [[name pkgPath]| |] eqn:Hg; simpl; [|done|done].
  intros [= <-]. right. by exists c, rest', name, pkgPath.
Qed.

Lemma select_timer_spec s order s' :
  select_timer s order = Next s' ->
  tm s = Expired /\ order ≡ₚ (map_to_list (sentToClose s)).*1 /\
  s' = mkState (timeout s) (Return (Some "failed to close all objects")) (count s)
         (sentToClose s) (doneClosers s) Drained (goroutines s)
         (log_remaining (sentToClose s) order
            (logWarn (log s)
               [VInt (count s); VStr " object(s) remaining but timer expired."])).
Proof.
  unfold select_timer. destruct (tm s); try done.
  case_bool_decide; [|done]. by intros [= <-].
Qed.

Lemma select_done_spec s s' :
  select_done s = Next s' ->
  exists cl ch,
    Chan.recv zero (doneClosers s) = Next (cl, ch) /\
    count s' = count s - 1 /\
    sentToClose s' = delete (Index cl) (sentToClose s) /\
    doneClosers s' = ch /\ tm s' = tm s /\ goroutines s' = goroutines s /\
    ((count s' = 0 /\ size (sentToClose s') = 0%nat /\ at_pc s' = Return None /\
      log s' = log s ++ [mkEntry LDebug [VInt (count s'); VStr " object(s) left"];
                         mkEntry LDebug [VStr "Finished closing objects"]]) \/
     ((count s' <> 0 \/ size (sentToClose s') <> 0%nat) /\ at_pc s' = Select /\
      log s' = log s ++ [mkEntry LDebug [VInt (count s'); VStr " object(s) left"]])).
Proof.
  unfold select_done.
  destruct (Chan.recv zero (doneClosers s)) as [[cl ch]| |] eqn:Hr; simpl; [|done|done].
  destruct ((count s - 1 =? 0) && _) eqn:Hz; intros [= <-]; exists cl, ch; simpl;
    repeat split; try done.
  - apply andb_true_iff in Hz as [Hc%Z.eqb_eq Hs%Z.eqb_eq]. left.
    repeat split; [done|lia|]. unfold logDebug. by rewrite <- app_assoc.
  - apply andb_false_iff in Hz as [Hc%Z.eqb_neq|Hs%Z.eqb_neq]; right;
      (split; [|done]); [by left|right; lia].
Qed.

Lemma close_returns_spec s g err s' :
  close_returns s g err = Next s' ->
  exists cl r,
    goroutines s !! g = Some (cl, AtClose) /\ C cl = Some r /\
    s' = mkState (timeout s) (at_pc s) (count s) (sentToClose s) (doneClosers s) (tm s)
           (<[g := (cl, AtSend)]> (goroutines s))
           (match err with
            | Some e => log s ++ [mkEntry LError [VErr e]]
            | None => log s
            end).
Proof.
  unfold close_returns. destruct (goroutines s !! g) as [[cl [| |]]|]; try done.
  destruct (C cl) as [r|] eqn:HC; [|done]. intros [= <-]. exists cl, r. by destruct err.
Qed.

Lemma send_done_spec s g s' :
  send_done s g = Next s' ->
  exists cl,
    goroutines s !! g = Some (cl, AtSend) /\
    Chan.len (doneClosers s) < Chan.cap (doneClosers s) /\
    s' = mkState (timeout s) (at_pc s) (count s) (sentToClose s)
           (Chan.mkChan (Chan.buf (doneClosers s) ++ [cl]) (Chan.cap (doneClosers s)) false)
           (tm s) (<[g := (cl, Finished)]> (goroutines s)) (log s).
Proof.
  unfold send_done. destruct (goroutines s !! g) as [[cl [| |]]|]; try done.
  destruct (Chan.send (doneClosers s) cl) as [ch| |] eqn:Hs; simpl; [|done|done].
  intros [= <-]. apply send_open in Hs as (_ & Hlt & ->). by exists cl.
Qed.

(** The cases of [step], one per event. *)
Lemma step_cases ev s s' :
  step ev s = Next s' ->
  match ev with
  | EvRange => exists i rest, at_pc s = Range i rest /\ range_step s i rest = Next s'
  | EvTimer =>
      tm s = Counting /\
      s' = mkState (timeout s) (at_pc s) (count s) (sentToClose s) (doneClosers s) Expired
             (goroutines s) (log s)
  | EvSelectTimer order => at_pc s = Select /\ select_timer s order = Next s'
  | EvSelectDone => at_pc s = Select /\ select_done s = Next s'
  | EvClose g err => close_returns s g err = Next s'
  | EvSend g => send_done s g = Next s'
  end.
Proof.
  destruct ev; simpl; try done.
  - destruct (at_pc s); try done. eauto.
  - destruct (tm s); try done. by intros [= <-].
  - by destruct (at_pc s).
  - by destruct (at_pc s).
Qed.

End MassSteps.

(** *** The select loop *)

(** C2: whenever the select of [closeInMass] receives a completion, it is
    the oldest one queued, its index is in the pending set and is deleted
    from it, the count goes down by one and still equals the size of the
    pending set, and the timer is left as it was; when the count has reached
    zero the call has returned nil in that very step, whatever the timer
    does, and otherwise the loop goes on. *)
Theorem C2_completion_received d closable evs s s' :
  Mass.run evs (Mass.closeInMass d closable) = Next s ->
  Mass.step Mass.EvSelectDone s = Next s' ->
  exists cl,
    Chan.buf (Mass.doneClosers s) = cl :: Chan.buf (Mass.doneClosers s') /\
    Mass.sentToClose s !! Mass.Index cl = Some cl /\
    Mass.sentToClose s' = delete (Mass.Index cl) (Mass.sentToClose s) /\
    Mass.count s' = Mass.count s - 1 /\
    Mass.count s' = Z.of_nat (size (Mass.sentToClose s')) /\
    Mass.tm s' = Mass.tm s /\
    (Mass.count s' = 0 -> Mass.at_pc s' = Mass.Return None) /\
    (Mass.count s' <> 0 -> Mass.at_pc s' = Mass.Select).
Proof.
  intros Hrun Hstep. apply inv_run in Hrun as Hinv.
  assert (Hinv' : inv closable s') by (by eapply inv_step).
  apply step_cases in Hstep as [Hat Hsel].
  apply select_done_spec in Hsel as (cl & ch & Hr & Hc & Hm & Hd & Htm & Hg & Hpc).
  destruct (select_done_recv _ _ Hinv _ _ Hr) as (Hb & _ & _ & Hin).
  exists cl. subst ch. repeat split; try done.
  - pose proof (inv_pc _ _ Hinv') as Hp.
    destruct Hpc as [(Hz & Hsz & Hp' & _)|(_ & Hp' & _)]; [lia|].
    rewrite Hp' in Hp. by destruct Hp as (_ & ? & _).
  - intros Hz. destruct Hpc as [(_ & _ & Hp & _)|(_ & Hp & _)]; [done|].
    pose proof (inv_pc _ _ Hinv') as Hp'. rewrite Hp in Hp'.
    destruct Hp' as (_ & _ & _ & [->|?]); [|lia].
    pose proof (inv_length _ _ Hinv) as Hlen. simpl in Hlen.
    apply recv_open in Hr as (Hb' & _); [|by destruct Hinv].
    assert (Hcl : cl ∈ Chan.buf (Mass.doneClosers s)) by (rewrite Hb'; by left).
    destruct (inv_buf _ _ Hinv _ Hcl) as [g Hg'%lookup_lt_Some]. lia.
  - intros Hnz. destruct Hpc as [(Hz & _)|(_ & Hp & _)]; done.
Qed.

Lemma C2_completion_received_witness :
  exists s s',
    Mass.run [Mass.EvRange; Mass.EvRange; Mass.EvClose 0 None; Mass.EvSend 0]
      (Mass.closeInMass triggered
         [Some (mkResource (Reflect.PtrTo (Reflect.DefinedType "os" "File" Reflect.StructLit)) 1)])
    = Next s /\
    Mass.step Mass.EvSelectDone s = Next s' /\
    Mass.tm s' = Mass.Counting /\ Mass.count s' = 0 /\
    Mass.at_pc s' = Mass.Return None.
Proof.
  eassert (Hrun : Mass.run [Mass.EvRange; Mass.EvRange; Mass.EvClose 0 None; Mass.EvSend 0]
                    (Mass.closeInMass triggered
                       [Some (mkResource
                                (Reflect.PtrTo (Reflect.DefinedType "os" "File" Reflect.StructLit)) 1)])
                  = Next _) by (vm_compute; reflexivity).
  match type of Hrun with
  | _ = Next ?s =>
      eassert (Hstep : Mass.step Mass.EvSelectDone s = Next _) by (vm_compute; reflexivity)
  end.
  do 2 eexists. split; [exact Hrun|]. split; [exact Hstep|].
  destruct (C2_completion_received _ _ _ _ _ Hrun Hstep)
    as (cl & _ & _ & _ & _ & _ & Htm & Hret & _).
  split; [exact Htm|]. split; [reflexivity|]. apply Hret. reflexivity.
Defined.

(** After the range loop a step leaves the pending set and the count alone,
    unless it is a receive, which deletes one key and takes one off the
    count. *)
Lemma past_range_step ev s s' :
  past_range s -> Mass.step ev s = Next s' ->
  past_range s' /\
  ((Mass.sentToClose s' = Mass.sentToClose s /\ Mass.count s' = Mass.count s) \/
   (ev = Mass.EvSelectDone /\
    exists cl ch,
      Chan.recv Mass.zero (Mass.doneClosers s) = Next (cl, ch) /\
      Mass.sentToClose s' = delete (Mass.Index cl) (Mass.sentToClose s) /\
      Mass.count s' = Mass.count s - 1)).
Proof.
  unfold past_range. intros Hp Hst. apply step_cases in Hst. destruct ev.
  - destruct Hst as (i & rest & Hat & _). by rewrite Hat in Hp.
  - destruct Hst as (_ & ->). simpl. split; [done|by left].
  - destruct Hst as (_ & (_ & _ & ->)%select_timer_spec). simpl. split; [done|by left].
  - destruct Hst as (_ & (cl & ch & Hr & Hc & Hm & _ & _ & _ & Hpc)%select_done_spec).
    split; [destruct Hpc as [(_ & _ & -> & _)|(_ & -> & _)]; done|].
    right. split; [done|]. by exists cl, ch.
  - apply close_returns_spec in Hst as (cl & r & _ & _ & ->). simpl. split; [done|by left].
  - apply send_done_spec in Hst as (cl & _ & _ & ->). simpl. split; [done|by left].
Qed.

Lemma past_range_run evs s s' :
  past_range s -> Mass.run evs s = Next s' ->
  past_range s' /\ Mass.sentToClose s' ⊆ Mass.sentToClose s /\ Mass.count s' <= Mass.count s.
Proof.
  intros Hp. revert evs s'.
  apply (exec_ind Mass.step
           (fun _ s' => past_range s' /\ Mass.sentToClose s' ⊆ Mass.sentToClose s /\
                        Mass.count s' <= Mass.count s)).
  - split; [done|]. split; [done|lia].
  - intros evs s1 ev s2 _ (Hp1 & Hsub & Hle) Hst.
    destruct (past_range_step _ _ _ Hp1 Hst) as (Hp2 & [[-> ->]|(_ & cl & ch & _ & -> & ->)]).
    + done.
    + split; [done|]. split; [|lia]. etrans; [apply delete_subseteq|done].
Qed.

(** [count] stays between zero and [len(closable)], and the pending set never
    has more entries than the batch: the Go [int] operations of
    [closeInMass] do not wrap. *)
Lemma count_in_range d closable evs s :
  Mass.run evs (Mass.closeInMass d closable) = Next s ->
  0 <= Mass.count s <= len closable /\
  (size (Mass.sentToClose s) <= length closable)%nat.
Proof.
  intros Hrun.
  assert (Hsize : (size (Mass.sentToClose s) <= length closable)%nat).
  { revert evs s Hrun.
    apply (exec_ind Mass.step
             (fun _ s => (size (Mass.sentToClose s) <= length closable)%nat)).
    - simpl. rewrite map_size_empty. lia.
    - intros evs s ev s' Hrun IH Hst. apply inv_run in Hrun as Hinv.
      assert (Hinv' : inv closable s') by (by eapply inv_step).
      apply step_cases in Hst. destruct ev.
      + destruct Hst as (i & rest & _ & [(_ & ->)|(c & r' & n & p & _ & _ & Hs')]%range_step_spec);
          [done|].
        pose proof (inv_pc _ _ Hinv') as Hpc'. pose proof (inv_length _ _ Hinv') as Hlen'.
        assert (Hat' : Mass.at_pc s' = Mass.Range (i + 1) r') by (by rewrite Hs').
        rewrite Hat' in Hpc'. destruct Hpc' as (_ & _ & _ & _ & Hsz). lia.
      + by destruct Hst as (_ & ->).
      + by destruct Hst as (_ & (_ & _ & ->)%select_timer_spec).
      + destruct Hst as (_ & (cl & ch & _ & _ & -> & _)%select_done_spec).
        pose proof (map_size_delete (Mass.Index cl) (Mass.sentToClose s)) as Hd.
        destruct (Mass.sentToClose s !! Mass.Index cl); simpl in Hd; lia.
      + by apply close_returns_spec in Hst as (? & ? & _ & _ & ->).
      + by apply send_done_spec in Hst as (? & _ & _ & ->). }
  split; [|done]. apply inv_run in Hrun as Hinv. pose proof (inv_pc _ _ Hinv) as Hpc.
  destruct (Mass.at_pc s) as [i rest| |[e|]].
  - destruct Hpc as (_ & _ & -> & _). unfold len. lia.
  - destruct Hpc as (_ & -> & _). unfold len. lia.
  - destruct Hpc as (_ & -> & _). unfold len. lia.
  - destruct Hpc as (_ & -> & _). unfold len. lia.
Qed.

(** What a step after the range loop does to the pending set and the count:
    a receive deletes the key of the closer received and takes one off the
    count; every other step leaves both as they are. *)
Lemma pending_step ev s s' :
  past_range s -> Mass.step ev s = Next s' ->
  if is_select_done ev then
    exists cl ch,
      Chan.recv Mass.zero (Mass.doneClosers s) = Next (cl, ch) /\
      Mass.sentToClose s' = delete (Mass.Index cl) (Mass.sentToClose s) /\
      Mass.count s' = Mass.count s - 1
  else Mass.sentToClose s' = Mass.sentToClose s /\ Mass.count s' = Mass.count s.
Proof.
  unfold past_range. intros Hp Hst. apply step_cases in Hst. destruct ev; simpl.
  - destruct Hst as (i & rest & Hat & _). by rewrite Hat in Hp.
  - by destruct Hst as (_ & ->).
  - by destruct Hst as (_ & (_ & _ & ->)%select_timer_spec).
  - destruct Hst as (_ & (cl & ch & Hr & Hc & Hm & _)%select_done_spec). by exists cl, ch.
  - by apply close_returns_spec in Hst as (cl & r & _ & _ & ->).
  - by apply send_done_spec in Hst as (cl & _ & _ & ->).
Qed.

Lemma received_snoc evs ev :
  received (evs ++ [ev]) = (received evs + (if is_select_done ev then 1 else 0))%nat.
Proof.
  unfold received. rewrite List.filter_app, length_app. simpl.
  by destruct (is_select_done ev).
Qed.

Lemma received_app evs evs' : received (evs ++ evs') = (received evs + received evs')%nat.
Proof. unfold received. by rewrite List.filter_app, length_app. Qed.

(** The count is what is left of the batch after the completions received. *)
Lemma count_received d closable evs s :
  Mass.run evs (Mass.closeInMass d closable) = Next s ->
  Mass.count s = len closable - Z.of_nat (received evs).
Proof.
  revert evs s.
  apply (exec_ind Mass.step
           (fun evs s => Mass.count s = len closable - Z.of_nat (received evs))).
  { simpl. unfold received. simpl. lia. }
  intros evs s ev s' _ IH Hst. rewrite received_snoc.
  apply step_cases in Hst. destruct ev; simpl.
  - destruct Hst as (i & rest & _ & [(_ & ->)|(c & r' & n & p & _ & _ & ->)]%range_step_spec);
      simpl; lia.
  - destruct Hst as (_ & ->). simpl. lia.
  - destruct Hst as (_ & (_ & _ & ->)%select_timer_spec). simpl. lia.
  - destruct Hst as (_ & (? & ? & _ & -> & _)%select_done_spec). lia.
  - apply close_returns_spec in Hst as (cl' & r & _ & _ & ->). simpl. lia.
  - apply send_done_spec in Hst as (cl' & _ & _ & ->). simpl. lia.
Qed.

(** After the range loop the count is the size of the pending set. *)
Lemma count_is_size closable s :
  inv closable s -> past_range s -> Mass.count s = Z.of_nat (size (Mass.sentToClose s)).
Proof.
  intros Hinv Hp. pose proof (inv_pc _ _ Hinv) as Hpc. unfold past_range in Hp.
  destruct (Mass.at_pc s) as [| |[e|]]; try done.
  - by destruct Hpc as (_ & ? & _).
  - by destruct Hpc as (_ & ? & _).
  - destruct Hpc as (_ & -> & -> & _). by rewrite map_size_empty.
Qed.

(** C7: while [closeInMass] fills the pending set it holds one entry per
    goroutine started, and one per resource when the range loop is left.
    From then on the count equals the size of the pending set, and the
    entries are those of the batch less one for each completion received.
    A step that is not a receive leaves the set and the count as they are;
    a receive deletes one key that was present, so the set has one entry
    less, and takes one off the count.  Over any further run the set only
    shrinks, by exactly the number of completions received in it. *)
Theorem C7_pending_set_shrinks d closable evs s :
  Mass.run evs (Mass.closeInMass d closable) = Next s ->
  (forall i rest,
      Mass.at_pc s = Mass.Range i rest ->
      size (Mass.sentToClose s) = length (Mass.goroutines s) /\
      i = len (Mass.goroutines s) /\
      (rest = [] -> size (Mass.sentToClose s) = length closable)) /\
  (past_range s ->
   Mass.count s = Z.of_nat (size (Mass.sentToClose s)) /\
   (size (Mass.sentToClose s) + received evs = length closable)%nat /\
   (forall ev s',
       Mass.step ev s = Next s' ->
       past_range s' /\
       (ev <> Mass.EvSelectDone ->
        Mass.sentToClose s' = Mass.sentToClose s /\ Mass.count s' = Mass.count s) /\
       (ev = Mass.EvSelectDone ->
        exists cl,
          Mass.sentToClose s !! Mass.Index cl = Some cl /\
          Mass.sentToClose s' = delete (Mass.Index cl) (Mass.sentToClose s) /\
          (size (Mass.sentToClose s') + 1 = size (Mass.sentToClose s))%nat /\
          Mass.count s' = Mass.count s - 1)) /\
   (forall evs' s',
       Mass.run evs' s = Next s' ->
       Mass.sentToClose s' ⊆ Mass.sentToClose s /\ Mass.count s' <= Mass.count s /\
       (size (Mass.sentToClose s') + received evs' = size (Mass.sentToClose s))%nat)).
Proof.
  intros Hrun. apply inv_run in Hrun as Hinv. pose proof (inv_pc _ _ Hinv) as Hpc.
  split.
  - intros i rest Hat. rewrite Hat in Hpc. destruct Hpc as (Hi & Hrest & _ & _ & Hsz).
    split; [done|]. split; [done|]. intros ->. rewrite Hsz.
    symmetry in Hrest. apply drop_nil_inv in Hrest.
    pose proof (inv_length _ _ Hinv). lia.
  - intros Hp. pose proof (count_is_size _ _ Hinv Hp) as Hc.
    pose proof (count_received _ _ _ _ Hrun) as Hcr.
    pose proof (count_in_range _ _ _ _ Hrun) as [Hrange _].
    split; [done|]. split; [unfold len in *; lia|]. split.
    + intros ev s' Hst.
      destruct (past_range_step _ _ _ Hp Hst) as (Hp' & _).
      pose proof (pending_step _ _ _ Hp Hst) as Hps.
      split; [done|]. split.
      * intros Hne. destruct ev; try done.
      * intros ->. simpl in Hps. destruct Hps as (cl & ch & Hr & Hm & Hc').
        destruct (select_done_recv _ _ Hinv _ _ Hr) as (_ & _ & _ & Hin).
        exists cl. split; [done|]. split; [done|]. split; [|done].
        rewrite Hm. rewrite map_size_delete_Some by eauto.
        assert (size (Mass.sentToClose s) <> 0%nat); [|lia].
        intros Hz%map_size_empty_inv. by rewrite Hz, lookup_empty in Hin.
    + intros evs' s' Hrun'.
      destruct (past_range_run _ _ _ Hp Hrun') as (Hp' & Hsub & Hle).
      split; [done|]. split; [done|].
      assert (Hrun2 : Mass.run (evs ++ evs') (Mass.closeInMass d closable) = Next s').
      { unfold Mass.run in *. by rewrite exec_app, Hrun. }
      pose proof (count_is_size _ _ (inv_run _ _ _ _ Hrun2) Hp') as Hc'.
      pose proof (count_received _ _ _ _ Hrun2) as Hcr'.
      pose proof (count_in_range _ _ _ _ Hrun2) as [Hrange' _].
      rewrite received_app in Hcr'. unfold len in *. lia.
Qed.

Lemma C7_pending_set_shrinks_witness :
  exists s,
    Mass.run [Mass.EvRange; Mass.EvRange; Mass.EvClose 1 None; Mass.EvRange;
              Mass.EvSend 1; Mass.EvSelectDone]
      (Mass.closeInMass triggered
         [Some (mkResource (Reflect.DefinedType "net" "TCPListener" Reflect.StructLit) 1);
          Some (mkResource (Reflect.PtrTo (Reflect.DefinedType "os" "File" Reflect.StructLit)) 2)])
    = Next s /\
    past_range s /\
    Mass.count s = 1 /\
    size (Mass.sentToClose s) = 1%nat /\
    (forall evs' s',
        Mass.run evs' s = Next s' ->
        Mass.sentToClose s' ⊆ Mass.sentToClose s /\ Mass.count s' <= Mass.count s /\
        (size (Mass.sentToClose s') + received evs' = size (Mass.sentToClose s))%nat).
Proof.
  reach Hrun. eexists. split; [exact Hrun|]. split; [exact I|].
  destruct (proj2 (C7_pending_set_shrinks _ _ _ _ Hrun) I) as (Hc & Hsz & _ & Hmono).
  assert (Hone : size (Mass.sentToClose _) = 1%nat) by (apply (Nat.add_cancel_r _ _ 1); exact Hsz).
  split; [rewrite Hc, Hone; reflexivity|]. split; [exact Hone|exact Hmono].
Defined.

(** *** The goroutines and the completion channel *)

(** A goroutine that has done its send stays as it is. *)
Lemma finished_stays_step ev s s' g cl :
  Mass.goroutines s !! g = Some (cl, Mass.Finished) ->
  Mass.step ev s = Next s' ->
  Mass.goroutines s' !! g = Some (cl, Mass.Finished).
Proof.
  intros Hg Hst. apply step_cases in Hst. destruct ev.
  - destruct Hst as (i & rest & _ & [(_ & ->)|(c & r' & n & p & _ & _ & ->)]%range_step_spec);
      simpl; [done|]. by apply lookup_app_l_Some.
  - by destruct Hst as (_ & ->).
  - by destruct Hst as (_ & (_ & _ & ->)%select_timer_spec).
  - destruct Hst as (_ & (? & ? & _ & _ & _ & _ & _ & -> & _)%select_done_spec). done.
  - apply close_returns_spec in Hst as (cl' & r & Hg' & _ & ->). simpl.
    rewrite list_lookup_insert_ne; [done|]. intros ->. congruence.
  - apply send_done_spec in Hst as (cl' & Hg' & _ & ->). simpl.
    rewrite list_lookup_insert_ne; [done|]. intros ->. congruence.
Qed.

Lemma finished_stays evs s s' g cl :
  Mass.goroutines s !! g = Some (cl, Mass.Finished) ->
  Mass.run evs s = Next s' ->
  Mass.goroutines s' !! g = Some (cl, Mass.Finished).
Proof.
  intros Hg. revert evs s'.
  apply (exec_ind Mass.step (fun _ s' => Mass.goroutines s' !! g = Some (cl, Mass.Finished)));
    [done|].
  intros ? ? ? ? _ ? ?. by eapply finished_stays_step.
Qed.

(** C10: the completion channel has the capacity of the batch; in every
    state that a run of [closeInMass] reaches, also after it has returned the
    timeout error, a goroutine that stands at [done <- closer] can send at
    once, which queues its closer and finishes it; and a goroutine that has
    sent never sends or closes again. *)
Theorem C10_completion_send_never_blocks d closable evs s :
  Mass.run evs (Mass.closeInMass d closable) = Next s ->
  Chan.cap (Mass.doneClosers s) = len closable /\
  Chan.len (Mass.doneClosers s) <= Chan.cap (Mass.doneClosers s) /\
  (forall g cl,
      Mass.goroutines s !! g = Some (cl, Mass.AtSend) ->
      Chan.len (Mass.doneClosers s) < Chan.cap (Mass.doneClosers s) /\
      exists s',
        Mass.step (Mass.EvSend g) s = Next s' /\
        Mass.goroutines s' !! g = Some (cl, Mass.Finished) /\
        Chan.buf (Mass.doneClosers s') = Chan.buf (Mass.doneClosers s) ++ [cl] /\
        Mass.at_pc s' = Mass.at_pc s) /\
  (forall g cl,
      Mass.goroutines s !! g = Some (cl, Mass.Finished) ->
      Mass.step (Mass.EvSend g) s = Blocked /\
      (forall err, Mass.step (Mass.EvClose g err) s = Blocked) /\
      (forall evs' s',
          Mass.run evs' s = Next s' ->
          Mass.goroutines s' !! g = Some (cl, Mass.Finished))).
Proof.
  intros Hrun. apply inv_run in Hrun as Hinv.
  split; [by destruct Hinv|]. split.
  { rewrite (inv_cap _ _ Hinv). unfold Chan.len, len.
    pose proof (inv_len _ _ Hinv). pose proof (inv_length _ _ Hinv).
    pose proof (finished_le (Mass.goroutines s)). lia. }
  split.
  - intros g cl Hg. pose proof (send_done_room _ _ _ _ Hinv Hg) as Hroom.
    split; [done|]. simpl. unfold Mass.send_done, Chan.send.
    rewrite Hg, (inv_open _ _ Hinv). apply Z.ltb_lt in Hroom. rewrite Hroom. simpl.
    eexists. split; [done|]. simpl. split; [|done].
    apply list_lookup_insert_eq. by apply lookup_lt_Some in Hg.
  - intros g cl Hg. split; [|split].
    + simpl. unfold Mass.send_done. by rewrite Hg.
    + intros err. simpl. unfold Mass.close_returns. by rewrite Hg.
    + intros evs' s'. by apply finished_stays.
Qed.

Lemma C10_completion_send_never_blocks_witness :
  exists s,
    Mass.run [Mass.EvRange; Mass.EvRange; Mass.EvRange; Mass.EvClose 0 None;
              Mass.EvTimer; Mass.EvSelectTimer [1; 0]; Mass.EvClose 1 (Some "busy");
              Mass.EvSend 1]
      (Mass.closeInMass triggered
         [Some (mkResource (Reflect.DefinedType "net" "TCPListener" Reflect.StructLit) 1);
          Some (mkResource (Reflect.PtrTo (Reflect.DefinedType "os" "File" Reflect.StructLit)) 2)])
    = Next s /\
    Mass.at_pc s = Mass.Return (Some "failed to close all objects") /\
    exists cl s',
      Mass.goroutines s !! 0%nat = Some (cl, Mass.AtSend) /\
      Mass.step (Mass.EvSend 0) s = Next s' /\
      Mass.goroutines s' !! 0%nat = Some (cl, Mass.Finished).
Proof.
  reach Hrun.
  match type of Hrun with
  | _ = Next ?s =>
      eassert (Hg : Mass.goroutines s !! 0%nat = Some (_, Mass.AtSend)) by reflexivity
  end.
  destruct (C10_completion_send_never_blocks _ _ _ _ Hrun) as (_ & _ & Hsend & _).
  destruct (Hsend _ _ Hg) as (_ & s' & Hst & Hfin & _).
  eexists. split; [exact Hrun|]. split; [reflexivity|].
  eexists. exists s'. split; [exact Hg|]. split; [exact Hst|exact Hfin].
Defined.

(** Over closers that are not nil the range loop of [closeInMass] runs to
    its end, one turn per closer, and reaches the select. *)
Lemma range_loop_completes (rs : list resource) s i :
  Mass.at_pc s = Mass.Range i (Some <$> rs) ->
  exists s',
    Mass.run (replicate (S (length rs)) Mass.EvRange) s = Next s' /\
    Mass.at_pc s' = Mass.Select /\
    length (Mass.goroutines s') = (length (Mass.goroutines s) + length rs)%nat.
Proof.
  unfold Mass.run. revert s i. induction rs as [|r rs IH]; intros s i Hat; simpl.
  - rewrite Hat. simpl. eexists. split; [done|]. simpl. split; [done|lia].
  - rewrite Hat. simpl.
    destruct (getPkgPath_resource r) as (t & _ & Hg).
    unfold Mass.range_step. rewrite Hg. simpl.
    edestruct (IH (Mass.mkState (Mass.timeout s) (Mass.Range (i + 1) (Some <$> rs)) (Mass.count s)
                     (<[i := Mass.mkCloser i (Some r) (Reflect.Name_of t) (Reflect.PkgPath_of t)]>
                        (Mass.sentToClose s))
                     (Mass.doneClosers s) (Mass.tm s)
                     (Mass.goroutines s ++
                        [(Mass.mkCloser i (Some r) (Reflect.Name_of t) (Reflect.PkgPath_of t),
                          Mass.AtClose)])
                     (Mass.log s)) (i + 1) eq_refl) as (s' & Hrun & Hsel & Hlen).
    exists s'. split; [exact Hrun|]. split; [done|].
    rewrite Hlen. simpl. rewrite length_app. simpl. lia.
Qed.

(** C9: every goroutine that [closeInMass] starts carries the wrapper of its
    own position: goroutine [g] holds the closer found at position [g] of
    the input, under the index [g], with the name and origin [getPkgPath]
    gives for it.  Once the range loop is over there is one goroutine per
    position, whether or not two positions hold the same closer.  While the
    loop runs it has started one goroutine per position visited.  The
    pending set holds a wrapper under its own index, as long as its
    completion has not been received. *)
Theorem C9_no_deduplication d closable evs s :
  Mass.run evs (Mass.closeInMass d closable) = Next s ->
  (forall g cl st,
      Mass.goroutines s !! g = Some (cl, st) ->
      exists c name pkgPath,
        closable !! g = Some c /\ getPkgPath c = Next (name, pkgPath) /\
        cl = Mass.mkCloser (Z.of_nat g) c name pkgPath) /\
  (past_range s ->
   length (Mass.goroutines s) = length closable /\
   forall g c,
     closable !! g = Some c ->
     exists cl st,
       Mass.goroutines s !! g = Some (cl, st) /\
       Mass.Index cl = Z.of_nat g /\ Mass.C cl = c) /\
  (forall i rest,
      Mass.at_pc s = Mass.Range i rest ->
      i = len (Mass.goroutines s) /\
      rest = drop (length (Mass.goroutines s)) closable) /\
  (forall k cl,
      Mass.sentToClose s !! k = Some cl <-> Mass.Index cl = k /\ pending s cl).
Proof.
  intros Hrun. apply inv_run in Hrun as Hinv. pose proof (inv_pc _ _ Hinv) as Hpc.
  split; [exact (inv_wrap _ _ Hinv)|]. split; [|split].
  - intros Hp. unfold past_range in Hp.
    assert (Hlen : length (Mass.goroutines s) = length closable).
    { destruct (Mass.at_pc s) as [| |[e|]]; try done; by destruct Hpc as (? & _). }
    split; [done|]. intros g c Hc.
    destruct (lookup_lt_is_Some_2 (Mass.goroutines s) g) as [[cl st] Hg].
    { rewrite Hlen. by eapply lookup_lt_Some. }
    exists cl, st. split; [done|].
    destruct (inv_wrap _ _ Hinv _ _ _ Hg) as (c' & n & p & Hc' & _ & ->).
    simpl. split; [done|congruence].
  - intros i rest Hat. rewrite Hat in Hpc. by destruct Hpc as (? & ? & _).
  - exact (inv_map _ _ Hinv).
Qed.

Lemma C9_no_deduplication_witness :
  exists s,
    Mass.run [Mass.EvRange; Mass.EvClose 0 None; Mass.EvRange; Mass.EvRange]
      (Mass.closeInMass triggered
         [Some (mkResource (Reflect.PtrTo (Reflect.DefinedType "os" "File" Reflect.StructLit)) 7);
          Some (mkResource (Reflect.PtrTo (Reflect.DefinedType "os" "File" Reflect.StructLit)) 7)])
    = Next s /\
    past_range s /\
    length (Mass.goroutines s) = 2%nat /\
    forall g c,
      [Some (mkResource (Reflect.PtrTo (Reflect.DefinedType "os" "File" Reflect.StructLit)) 7);
       Some (mkResource (Reflect.PtrTo (Reflect.DefinedType "os" "File" Reflect.StructLit)) 7)]
        !! g = Some c ->
      exists cl st,
        Mass.goroutines s !! g = Some (cl, st) /\
        Mass.Index cl = Z.of_nat g /\ Mass.C cl = c.
Proof.
  reach Hrun. eexists. split; [exact Hrun|]. split; [exact I|].
  exact (proj1 (proj2 (C9_no_deduplication _ _ _ _ Hrun)) I).
Defined.

(** *** Errors of [Close] and the result of [closeInMass] *)

(** The only step that makes [closeInMass] return an error is the timer
    case of the select. *)
Lemma error_step ev s s' e :
  Mass.step ev s = Next s' ->
  Mass.at_pc s' = Mass.Return (Some e) ->
  Mass.at_pc s = Mass.Return (Some e) \/ exists order, ev = Mass.EvSelectTimer order.
Proof.
  intros Hst Hat. apply step_cases in Hst. destruct ev.
  - destruct Hst as (i & rest & _ & [(_ & ->)|(c & r' & n & p & _ & _ & ->)]%range_step_spec);
      done.
  - destruct Hst as (_ & ->). by left.
  - right. by eexists.
  - destruct Hst as (_ & (? & ? & _ & _ & _ & _ & _ & _ & Hpc)%select_done_spec).
    destruct Hpc as [(_ & _ & Hp & _)|(_ & Hp & _)]; congruence.
  - apply close_returns_spec in Hst as (cl' & r & _ & _ & ->). by left.
  - apply send_done_spec in Hst as (cl' & _ & _ & ->). by left.
Qed.

Lemma error_needs_timer evs s0 s :
  (forall e, Mass.at_pc s0 <> Mass.Return (Some e)) ->
  Mass.run evs s0 = Next s ->
  forall e, Mass.at_pc s = Mass.Return (Some e) ->
  exists order, Mass.EvSelectTimer order ∈ evs.
Proof.
  intros H0. revert evs s.
  apply (exec_ind Mass.step
           (fun evs s => forall e, Mass.at_pc s = Mass.Return (Some e) ->
                         exists order, Mass.EvSelectTimer order ∈ evs)).
  - intros e He. by apply H0 in He.
  - intros evs s ev s' _ IH Hst e He.
    destruct (error_step _ _ _ _ Hst He) as [Hold|[order ->]].
    + destruct (IH _ Hold) as [order Hin]. exists order. set_solver.
    + exists order. set_solver.
Qed.

Lemma select_done_enabled s :
  Chan.buf (Mass.doneClosers s) <> [] -> exists s', Mass.select_done s = Next s'.
Proof.
  intros Hb. unfold Mass.select_done, Chan.recv.
  destruct (Chan.buf (Mass.doneClosers s)); [done|]. simpl.
  destruct (_ && _); by eexists.
Qed.

(** With the timer expired the timer case of the select can be taken, for
    instance visiting the pending set in the order of [map_to_list]. *)
Lemma select_timer_enabled s :
  Mass.at_pc s = Mass.Select -> Mass.tm s = Mass.Expired ->
  exists s', Mass.step (Mass.EvSelectTimer (map_to_list (Mass.sentToClose s)).*1) s = Next s'.
Proof.
  intros Hat Htm. simpl. rewrite Hat. unfold Mass.select_timer. rewrite Htm.
  rewrite bool_decide_eq_true_2 by done. by eexists.
Qed.

(** At its select the coordinator can always leave through the timer case:
    the timer expires if it has not yet, and the select takes it. *)
Lemma select_can_time_out closable s :
  inv closable s -> Mass.at_pc s = Mass.Select ->
  exists evs' s',
    Mass.run evs' s = Next s' /\
    Mass.at_pc s' = Mass.Return (Some "failed to close all objects") /\
    Forall (fun ev => is_goroutine_event ev = false) evs'.
Proof.
  intros Hinv Hat. pose proof (inv_pc _ _ Hinv) as Hpc. rewrite Hat in Hpc.
  destruct Hpc as (_ & _ & [Htm|Htm] & _).
  - set (s1 := Mass.mkState (Mass.timeout s) (Mass.at_pc s) (Mass.count s)
                 (Mass.sentToClose s) (Mass.doneClosers s) Mass.Expired
                 (Mass.goroutines s) (Mass.log s)).
    assert (Hst : Mass.step Mass.EvTimer s = Next s1) by (simpl; by rewrite Htm).
    destruct (select_timer_enabled s1 Hat eq_refl) as [s' Hs'].
    exists [Mass.EvTimer; Mass.EvSelectTimer (map_to_list (Mass.sentToClose s1)).*1], s'.
    split; [|split].
    + unfold Mass.run. cbn [exec]. rewrite Hst. cbn [mbind outcome_bind]. rewrite Hs'. done.
    + apply step_cases in Hs' as (_ & (_ & _ & ->)%select_timer_spec). done.
    + by repeat constructor.
  - destruct (select_timer_enabled s Hat Htm) as [s' Hs'].
    exists [Mass.EvSelectTimer (map_to_list (Mass.sentToClose s)).*1], s'.
    split; [|split].
    + unfold Mass.run. cbn [exec]. rewrite Hs'. done.
    + apply step_cases in Hs' as (_ & (_ & _ & ->)%select_timer_spec). done.
    + by repeat constructor.
Qed.

Section Drain.
Import Mass.
Variable closable : list Closer.
Hypothesis nonempty : closable <> [].

(** With every goroutine finished, what is pending is what is queued. *)
Lemma all_finished_pending s :
  inv closable s ->
  (forall g cl st, goroutines s !! g = Some (cl, st) -> st = Finished) ->
  forall k cl, sentToClose s !! k = Some cl -> cl ∈ Chan.buf (doneClosers s).
Proof.
  intros Hinv Hall k cl (_ & g & st & Hg & Hfin)%(inv_map _ _ Hinv).
  apply Hfin. by eapply Hall.
Qed.

Lemma drain_select n s :
  inv closable s -> at_pc s = Select ->
  (forall g cl st, goroutines s !! g = Some (cl, st) -> st = Finished) ->
  length (Chan.buf (doneClosers s)) = n ->
  exists s', run (replicate n EvSelectDone) s = Next s' /\ at_pc s' = Return None.
Proof.
  unfold run. revert s. induction n as [|n IH]; intros s Hinv Hat Hall Hlen.
  - apply nil_length_inv in Hlen.
    assert (Hempty : sentToClose s = ∅).
    { apply map_empty. intros k. destruct (sentToClose s !! k) as [cl|] eqn:Hk; [|done].
      apply (all_finished_pending _ Hinv Hall) in Hk. rewrite Hlen in Hk.
      by apply elem_of_nil in Hk. }
    pose proof (inv_pc _ _ Hinv) as Hpc. rewrite Hat in Hpc.
    destruct Hpc as (_ & Hc & _ & [?|Hpos]); [done|].
    rewrite Hempty, map_size_empty in Hc. lia.
  - destruct (select_done_enabled s) as [s1 Hs1].
    { intros Hb. by rewrite Hb in Hlen. }
    assert (Hst : step EvSelectDone s = Next s1) by (simpl; by rewrite Hat).
    assert (Hinv1 : inv closable s1) by (by eapply inv_step).
    apply select_done_spec in Hs1 as (cl & ch & Hr & _ & _ & Hd & _ & Hg & Hpc).
    apply recv_open in Hr as (Hb & _); [|by destruct Hinv]. subst ch.
    assert (Hlen1 : length (Chan.buf (doneClosers s1)) = n).
    { rewrite Hb in Hlen. simpl in Hlen. lia. }
    assert (Hall1 : forall g cl st, goroutines s1 !! g = Some (cl, st) -> st = Finished).
    { rewrite Hg. done. }
    cbn [replicate exec]. rewrite Hst. simpl.
    destruct Hpc as [(_ & _ & Hp & _)|(_ & Hp & _)]; [|by apply IH].
    exists s1. split; [|done].
    pose proof (inv_pc _ _ Hinv1) as Hpc. rewrite Hp in Hpc.
    destruct Hpc as (_ & _ & Hempty & _).
    destruct (Chan.buf (doneClosers s1)) as [|cl' rest] eqn:Hb1.
    + simpl in Hlen1. by subst n.
    + assert (Hin : cl' ∈ Chan.buf (doneClosers s1)) by (rewrite Hb1; by left).
      destruct (inv_buf _ _ Hinv1 _ Hin) as [g' Hg'].
      assert (Hm : sentToClose s1 !! Index cl' = Some cl').
      { apply (inv_map _ _ Hinv1). split; [done|]. by exists g', Finished. }
      by rewrite Hempty, lookup_empty in Hm.
Qed.

(** Once every attempt has published its completion, a coordinator that
    has not taken the timer case returns nil after draining the channel. *)
Lemma drain_returns_nil s :
  inv closable s ->
  (forall e, at_pc s <> Return (Some e)) ->
  length (goroutines s) = length closable ->
  (forall g cl st, goroutines s !! g = Some (cl, st) -> st = Finished) ->
  exists s', run (drain s) s = Next s' /\ at_pc s' = Return None.
Proof.
  intros Hinv Hnoerr Hlen Hall. unfold drain.
  pose proof (inv_pc _ _ Hinv) as Hpc.
  destruct (at_pc s) as [i rest| |[e|]] eqn:Hat.
  - destruct Hpc as (_ & Hrest & _).
    rewrite Hlen, drop_all in Hrest. subst rest.
    assert (Hst : step EvRange s =
                  Next (mkState (timeout s) Select (count s) (sentToClose s) (doneClosers s) Counting
                          (goroutines s) (log s))) by (simpl; by rewrite Hat).
    assert (Hinv1 := inv_step _ _ _ _ Hinv Hst).
    edestruct (drain_select (length (Chan.buf (doneClosers s))) _ Hinv1)
      as (s' & Hrun & Hret); try done.
    exists s'. split; [|done]. unfold run in *. simpl. rewrite Hat. simpl. exact Hrun.
  - by apply drain_select.
  - by specialize (Hnoerr e).
  - exists s. split; [|done]. destruct Hpc as (_ & _ & Hempty & _).
    destruct (Chan.buf (doneClosers s)) as [|cl' rest] eqn:Hb1; [done|].
    assert (Hin : cl' ∈ Chan.buf (doneClosers s)) by (rewrite Hb1; by left).
    destruct (inv_buf _ _ Hinv _ Hin) as [g' Hg'].
    assert (Hm : sentToClose s !! Index cl' = Some cl').
    { apply (inv_map _ _ Hinv). split; [done|]. by exists g', Finished. }
    by rewrite Hempty, lookup_empty in Hm.
Qed.

End Drain.

(** Goroutines that have all finished stay so, and no further one is
    started once there is one for every position. *)
Lemma all_finished_stays closable evs s s' :
  inv closable s' ->
  length (Mass.goroutines s) = length closable ->
  (forall g cl st, Mass.goroutines s !! g = Some (cl, st) -> st = Mass.Finished) ->
  Mass.run evs s = Next s' ->
  length (Mass.goroutines s') = length closable /\
  (forall g cl st, Mass.goroutines s' !! g = Some (cl, st) -> st = Mass.Finished).
Proof.
  intros Hinv' Hlen Hall Hrun.
  assert (Hkeep : forall g, (g < length closable)%nat ->
                    exists cl, Mass.goroutines s' !! g = Some (cl, Mass.Finished)).
  { intros g Hg. rewrite <- Hlen in Hg. apply lookup_lt_is_Some in Hg as [[cl st] Hg].
    pose proof (Hall _ _ _ Hg) as ->. exists cl. by eapply finished_stays. }
  pose proof (inv_length _ _ Hinv') as Hle.
  assert (Hlen' : length (Mass.goroutines s') = length closable).
  { destruct (decide (length (Mass.goroutines s') < length closable)%nat) as [Hlt|]; [|lia].
    destruct (Hkeep _ Hlt) as [cl Hg%lookup_lt_Some]. lia. }
  split; [done|]. intros g cl st Hg.
  destruct (Hkeep g) as [cl' Hg']; [apply lookup_lt_Some in Hg; lia|]. congruence.
Qed.

(** As long as [closeInMass] has not returned, it can still return the
    timeout error: the last turn of the range loop creates the timer, the
    timer expires, and the select takes it. *)
Lemma can_time_out closable s :
  inv closable s ->
  length (Mass.goroutines s) = length closable ->
  (forall r, Mass.at_pc s <> Mass.Return r) ->
  exists evs' s',
    Mass.run evs' s = Next s' /\
    Mass.at_pc s' = Mass.Return (Some "failed to close all objects") /\
    Forall (fun ev => is_goroutine_event ev = false) evs'.
Proof.
  intros Hinv Hlen Hnoret. pose proof (inv_pc _ _ Hinv) as Hpc.
  destruct (Mass.at_pc s) as [i rest| |r] eqn:Hat.
  - destruct Hpc as (_ & Hrest & _). rewrite Hlen, drop_all in Hrest. subst rest.
    assert (Hst : Mass.step Mass.EvRange s =
                  Next (Mass.mkState (Mass.timeout s) Mass.Select (Mass.count s)
                          (Mass.sentToClose s) (Mass.doneClosers s) Mass.Counting
                          (Mass.goroutines s) (Mass.log s))) by (simpl; by rewrite Hat).
    pose proof (inv_step _ _ _ _ Hinv Hst) as Hinv1.
    destruct (select_can_time_out _ _ Hinv1 eq_refl) as (evs' & s' & Hrun & Hret & Hev).
    exists (Mass.EvRange :: evs'), s'. split; [|split; [done|by constructor]].
    unfold Mass.run in *. cbn [exec]. rewrite Hst. exact Hrun.
  - by apply (select_can_time_out closable).
  - by specialize (Hnoret r).
Qed.

(** C3, as the code has it: an error returned by [Close] is logged at error
    level and changes nothing else: the goroutine goes on to its send
    exactly as after a nil result.  [closeInMass] returns an error only when
    its select has taken the timer case.  Once every attempt has published
    its completion, whatever the [Close] calls returned, every run in which
    the select does not take the timer case stays free of the error and can
    be completed to a nil result by receiving what is queued.  But that all
    attempts have completed before the timeout does not make the call
    succeed: as long as [closeInMass] has not returned, the timer can expire
    and the select take the timer case, which returns the error. *)
Theorem C3_close_errors_do_not_fail d closable evs s :
  Mass.run evs (Mass.closeInMass d closable) = Next s ->
  (forall g cl e,
      Mass.goroutines s !! g = Some (cl, Mass.AtClose) ->
      exists s0,
        Mass.step (Mass.EvClose g None) s = Next s0 /\
        Mass.log s0 = Mass.log s /\
        Mass.goroutines s0 !! g = Some (cl, Mass.AtSend) /\
        Mass.step (Mass.EvClose g (Some e)) s =
          Next (Mass.mkState (Mass.timeout s0) (Mass.at_pc s0) (Mass.count s0) (Mass.sentToClose s0)
                  (Mass.doneClosers s0) (Mass.tm s0) (Mass.goroutines s0)
                  (Mass.log s ++ [mkEntry LError [VErr e]]))) /\
  (forall e,
      Mass.at_pc s = Mass.Return (Some e) ->
      exists order, Mass.EvSelectTimer order ∈ evs) /\
  (closable <> [] ->
   length (Mass.goroutines s) = length closable ->
   (forall g cl st, Mass.goroutines s !! g = Some (cl, st) -> st = Mass.Finished) ->
   (forall evs' s',
       Mass.run evs' s = Next s' ->
       (forall order, Mass.EvSelectTimer order ∉ evs ++ evs') ->
       (forall e, Mass.at_pc s' <> Mass.Return (Some e)) /\
       exists s'', Mass.run (drain s') s' = Next s'' /\ Mass.at_pc s'' = Mass.Return None) /\
   ((forall r, Mass.at_pc s <> Mass.Return r) ->
    exists evs' s',
      Mass.run evs' s = Next s' /\
      Mass.at_pc s' = Mass.Return (Some "failed to close all objects") /\
      Forall (fun ev => is_goroutine_event ev = false) evs')).
Proof.
  intros Hrun. apply inv_run in Hrun as Hinv.
  split; [|split].
  - intros g cl e Hg.
    destruct (inv_wrap _ _ Hinv _ _ _ Hg) as (c & n & p & _ & Hpk & ->).
    destruct c as [r|]; [|done].
    simpl. unfold Mass.close_returns. rewrite Hg. simpl.
    eexists. split; [done|]. simpl. split; [done|]. split; [|done].
    apply list_lookup_insert_eq. by apply lookup_lt_Some in Hg.
  - by apply (error_needs_timer evs (Mass.closeInMass d closable)).
  - intros Hne Hlen Hall. split; [|by apply (can_time_out closable)].
    intros evs' s' Hrun' Hnotimer.
    assert (Hrun2 : Mass.run (evs ++ evs') (Mass.closeInMass d closable) = Next s').
    { unfold Mass.run in *. by rewrite exec_app, Hrun. }
    apply inv_run in Hrun2 as Hinv'.
    assert (Hnoerr : forall e, Mass.at_pc s' <> Mass.Return (Some e)).
    { intros e He.
      destruct (error_needs_timer _ (Mass.closeInMass d closable) _ ltac:(done) Hrun2 _ He)
        as [order Hin].
      by apply Hnotimer in Hin. }
    split; [done|].
    destruct (all_finished_stays _ _ _ _ Hinv' Hlen Hall Hrun') as [Hlen' Hall'].
    by apply (drain_returns_nil closable).
Qed.

Lemma C3_close_errors_do_not_fail_witness :
  exists s,
    Mass.run [Mass.EvRange; Mass.EvRange; Mass.EvClose 1 (Some "already closed");
              Mass.EvClose 0 (Some "connection reset"); Mass.EvSend 1; Mass.EvRange;
              Mass.EvTimer; Mass.EvSelectDone; Mass.EvSend 0]
      (Mass.closeInMass triggered
         [Some (mkResource (Reflect.DefinedType "net" "TCPListener" Reflect.StructLit) 1);
          Some (mkResource (Reflect.PtrTo (Reflect.DefinedType "os" "File" Reflect.StructLit)) 2)])
    = Next s /\
    (exists s', Mass.run [Mass.EvSelectDone] s = Next s' /\ Mass.at_pc s' = Mass.Return None) /\
    (exists evs' s',
        Mass.run evs' s = Next s' /\
        Mass.at_pc s' = Mass.Return (Some "failed to close all objects") /\
        Forall (fun ev => is_goroutine_event ev = false) evs').
Proof.
  reach Hrun. eexists. split; [exact Hrun|].
  match type of Hrun with
  | _ = Next ?s =>
      assert (Hall : forall g cl st, Mass.goroutines s !! g = Some (cl, st) -> st = Mass.Finished)
        by (intros [|[|g]] cl st; simpl; [by intros [= _ <-]..|done])
  end.
  destruct (proj2 (proj2 (C3_close_errors_do_not_fail _ _ _ _ Hrun))
              ltac:(discriminate) eq_refl Hall) as [Hnil Herr].
  split.
  - apply (Hnil [] _ eq_refl). intros order Hin.
    repeat (apply elem_of_cons in Hin as [Hin|Hin]; [discriminate|]).
    by apply elem_of_nil in Hin.
  - apply Herr. intros r. discriminate.
Defined.

(** C3 fails as stated: that every attempt completes before the timeout
    does not make [closeInMass] return nil.  Both [Close] calls return and
    both completions are sent while the timer is still counting; then the
    timer expires before the select has received them, the select takes the
    timer case, and the call returns the error. *)
Lemma C3_all_closed_yet_timeout :
  exists s1 s,
    Mass.run [Mass.EvRange; Mass.EvRange; Mass.EvClose 0 None; Mass.EvSend 0;
              Mass.EvClose 1 (Some "already closed"); Mass.EvSend 1; Mass.EvRange]
      (Mass.closeInMass triggered
         [Some (mkResource (Reflect.DefinedType "net" "TCPListener" Reflect.StructLit) 1);
          Some (mkResource (Reflect.PtrTo (Reflect.DefinedType "os" "File" Reflect.StructLit)) 2)])
    = Next s1 /\
    Mass.tm s1 = Mass.Counting /\
    (Mass.goroutines s1).*2 = [Mass.Finished; Mass.Finished] /\
    length (Chan.buf (Mass.doneClosers s1)) = 2%nat /\
    Mass.run [Mass.EvTimer; Mass.EvSelectTimer [0; 1]] s1 = Next s /\
    Mass.at_pc s = Mass.Return (Some "failed to close all objects").
Proof.
  do 2 eexists. split; [vm_compute; reflexivity|]. split; [reflexivity|].
  split; [reflexivity|]. split; [reflexivity|]. split; [vm_compute; reflexivity|].
  reflexivity.
Qed.

(** *** The timeout *)

Lemma log_remaining_omap m order l :
  Mass.log_remaining m order l = l ++ (failed_to_close <$> omap (m !!.) order).
Proof.
  revert l. induction order as [|k order IH]; intros l; simpl.
  - by rewrite app_nil_r.
  - destruct (m !! k) as [cl|]; simpl; [|done].
    rewrite IH. unfold logError. by rewrite <- app_assoc.
Qed.

Lemma omap_lookup_pairs (m : gmap Z Mass.closer) (kvs : list (Z * Mass.closer)) :
  Forall (fun kv => m !! kv.1 = Some kv.2) kvs -> omap (m !!.) kvs.*1 = kvs.*2.
Proof.
  induction 1 as [|[k v] kvs Hkv _ IH]; simpl; [done|].
  simpl in Hkv. rewrite Hkv. simpl. f_equal. exact IH.
Qed.

(** Visiting the keys of a map in any order visits every value once. *)
Lemma omap_lookup_keys (m : gmap Z Mass.closer) order :
  order ≡ₚ (map_to_list m).*1 -> omap (m !!.) order ≡ₚ (map_to_list m).*2.
Proof.
  intros ->. rewrite omap_lookup_pairs; [done|].
  apply Forall_forall. intros [k v] Hin. by apply elem_of_map_to_list in Hin.
Qed.

(** An expired timer does not force the timeout: the select may take a
    completion that is ready as well, and then the call can still return
    nil.  Here the timer expires while one closer is pending. *)
Example timer_expired_then_nil :
  exists s,
    Mass.run [Mass.EvRange; Mass.EvRange; Mass.EvClose 0 None; Mass.EvSend 0;
              Mass.EvTimer; Mass.EvSelectDone]
      (Mass.closeInMass triggered
         [Some (mkResource (Reflect.DefinedType "net" "TCPListener" Reflect.StructLit) 1)])
    = Next s /\
    Mass.tm s = Mass.Expired /\ Mass.at_pc s = Mass.Return None.
Proof. eexists. split; [vm_compute; reflexivity|]. by split. Qed.

(** C1, as the code has it: when the select of [closeInMass] takes the timer
    case, the call returns the error "failed to close all objects", which
    names no resource.  Before it returns it logs one warning with the count
    and then one line at error level for each closer left in the pending
    set, with its package path and name; these closers are exactly the
    attempts whose completion the coordinator has not received, the count
    is their number, and there is at least one of them unless the batch
    was empty. *)
Theorem C1_timeout_logs_remaining d closable evs s order s' :
  Mass.run evs (Mass.closeInMass d closable) = Next s ->
  Mass.step (Mass.EvSelectTimer order) s = Next s' ->
  Mass.at_pc s = Mass.Select /\ Mass.tm s = Mass.Expired /\
  Mass.at_pc s' = Mass.Return (Some "failed to close all objects") /\
  exists cls,
    cls ≡ₚ (map_to_list (Mass.sentToClose s)).*2 /\
    (forall cl, cl ∈ cls <-> pending s cl) /\
    Mass.count s = Z.of_nat (length cls) /\
    (closable <> [] -> cls <> []) /\
    Mass.log s' =
      Mass.log s ++
        mkEntry LWarn [VInt (Mass.count s); VStr " object(s) remaining but timer expired."]
        :: (failed_to_close <$> cls).
Proof.
  intros Hrun Hst. apply inv_run in Hrun as Hinv.
  apply step_cases in Hst as [Hat (Htm & Hperm & ->)%select_timer_spec].
  split; [done|]. split; [done|]. split; [done|].
  pose proof (omap_lookup_keys _ _ Hperm) as Hcls.
  exists (omap (Mass.sentToClose s !!.) order).
  pose proof (inv_pc _ _ Hinv) as Hpc. rewrite Hat in Hpc.
  destruct Hpc as (_ & Hcount & _ & Hpos).
  assert (Hlen : Mass.count s = Z.of_nat (length (omap (Mass.sentToClose s !!.) order))).
  { rewrite Hcls, length_fmap, length_map_to_list. done. }
  split; [done|]. split; [|split; [done|split]].
  - intros cl. rewrite Hcls, list_elem_of_fmap. split.
    + intros ([k cl'] & -> & Hin%elem_of_map_to_list). simpl.
      by apply (inv_map _ _ Hinv) in Hin as [_ ?].
    + intros Hp. exists (Mass.Index cl, cl). split; [done|].
      apply elem_of_map_to_list. by apply (inv_map _ _ Hinv).
  - intros Hne Hnil. rewrite Hnil in Hlen. simpl in Hlen.
    destruct Hpos; [done|lia].
  - simpl. rewrite log_remaining_omap. unfold logWarn. by rewrite <- app_assoc.
Qed.

Lemma C1_timeout_logs_remaining_witness :
  exists s,
    Mass.run [Mass.EvRange; Mass.EvRange; Mass.EvRange; Mass.EvClose 1 None;
              Mass.EvSend 1; Mass.EvSelectDone; Mass.EvTimer]
      (Mass.closeInMass triggered
         [Some (mkResource (Reflect.DefinedType "net" "TCPListener" Reflect.StructLit) 1);
          Some (mkResource (Reflect.PtrTo (Reflect.DefinedType "os" "File" Reflect.StructLit)) 2)])
    = Next s /\
    exists s',
      Mass.step (Mass.EvSelectTimer [0]) s = Next s' /\
      Mass.at_pc s' = Mass.Return (Some "failed to close all objects") /\
      Mass.log s' =
        [mkEntry LDebug [VInt 1; VStr " object(s) left"];
         mkEntry LWarn [VInt 1; VStr " object(s) remaining but timer expired."];
         mkEntry LError [VStr "Failed to close: "; VStr "net"; VStr "/"; VStr "TCPListener"]].
Proof.
  reach Hrun.
  match type of Hrun with
  | _ = Next ?s =>
      eassert (Hst : Mass.step (Mass.EvSelectTimer [0]) s = Next _)
        by (vm_compute; reflexivity)
  end.
  destruct (C1_timeout_logs_remaining _ _ _ _ _ _ Hrun Hst) as (_ & _ & Hret & _).
  eexists. split; [exact Hrun|]. eexists. split; [exact Hst|]. split; [exact Hret|].
  reflexivity.
Defined.

(** C1 fails as stated: the error [closeInMass] returns does not identify
    the resources that are left.  Of the same two resources, once the first
    and once the second never closes; the two calls return the same error,
    although different resources are left in the pending set. *)
Lemma C1_error_names_no_resource :
  exists s1 s2 e,
    Mass.run [Mass.EvRange; Mass.EvRange; Mass.EvRange; Mass.EvClose 1 None;
              Mass.EvSend 1; Mass.EvSelectDone; Mass.EvTimer; Mass.EvSelectTimer [0]]
      (Mass.closeInMass triggered
         [Some (mkResource (Reflect.DefinedType "net" "TCPListener" Reflect.StructLit) 1);
          Some (mkResource (Reflect.PtrTo (Reflect.DefinedType "os" "File" Reflect.StructLit)) 2)])
    = Next s1 /\
    Mass.run [Mass.EvRange; Mass.EvRange; Mass.EvRange; Mass.EvClose 0 None;
              Mass.EvSend 0; Mass.EvSelectDone; Mass.EvTimer; Mass.EvSelectTimer [1]]
      (Mass.closeInMass triggered
         [Some (mkResource (Reflect.DefinedType "net" "TCPListener" Reflect.StructLit) 1);
          Some (mkResource (Reflect.PtrTo (Reflect.DefinedType "os" "File" Reflect.StructLit)) 2)])
    = Next s2 /\
    Mass.at_pc s1 = Mass.Return (Some e) /\
    Mass.at_pc s2 = Mass.Return (Some e) /\
    remaining s1 = [("TCPListener", "net")] /\
    remaining s2 = [("File", "os")].
Proof.
  do 3 eexists. split; [vm_compute; reflexivity|]. split; [vm_compute; reflexivity|].
  split; [reflexivity|]. split; [reflexivity|]. split; vm_compute; reflexivity.
Qed.

(** * Further properties *)

(** ** [closeInMass] over an empty batch *)

(** What a run of [closeInMass] over no closers keeps: no goroutine, an
    empty channel and an empty pending set, and a log that gains the warning
    of the timer case and nothing else. *)
Lemma empty_batch_inv d evs s :
  Mass.run evs (Mass.closeInMass d []) = Next s ->
  Mass.goroutines s = [] /\ Chan.buf (Mass.doneClosers s) = [] /\
  Mass.sentToClose s = ∅ /\ Mass.count s = 0 /\
  match Mass.at_pc s with
  | Mass.Return None => False
  | Mass.Return (Some _) =>
      Mass.log s =
        Trigger.log d ++
          [mkEntry LWarn [VInt 0; VStr " object(s) remaining but timer expired."]]
  | _ => Mass.log s = Trigger.log d
  end.
Proof.
  revert evs s.
  apply (exec_ind Mass.step
           (fun _ s =>
              Mass.goroutines s = [] /\ Chan.buf (Mass.doneClosers s) = [] /\
              Mass.sentToClose s = ∅ /\ Mass.count s = 0 /\
              match Mass.at_pc s with
              | Mass.Return None => False
              | Mass.Return (Some _) =>
                  Mass.log s =
                    Trigger.log d ++
                      [mkEntry LWarn [VInt 0; VStr " object(s) remaining but timer expired."]]
              | _ => Mass.log s = Trigger.log d
              end)); [done|].
  intros evs s ev s' Hrun (Hg & Hb & Hm & Hc & Hlog) Hst. apply inv_run in Hrun as Hinv.
  apply step_cases in Hst. destruct ev.
  - destruct Hst as (i & rest & Hat & Hst). rewrite Hat in Hlog.
    pose proof (inv_pc _ _ Hinv) as Hpc. rewrite Hat in Hpc.
    destruct Hpc as (_ & Hrest & _). rewrite drop_nil in Hrest. subst rest.
    apply range_step_spec in Hst as [(_ & ->)|(c & r' & n & p & ? & _)]; done.
  - destruct Hst as (_ & ->). simpl. done.
  - destruct Hst as (Hat & (_ & Hperm & ->)%select_timer_spec). simpl.
    rewrite Hat in Hlog. rewrite Hm, map_to_list_empty in Hperm.
    apply Permutation_nil_r in Hperm. subst order. simpl. rewrite Hlog, Hc. done.
  - destruct Hst as (_ & (cl & ch & Hr & _)%select_done_spec).
    apply recv_open in Hr as (Hb' & _); [|by destruct Hinv]. by rewrite Hb in Hb'.
  - apply close_returns_spec in Hst as (cl & r & Hl & _). by rewrite Hg in Hl.
  - apply send_done_spec in Hst as (cl & Hl & _). by rewrite Hg in Hl.
Qed.

(** X1: called with no closers, [closeInMass] never returns nil: it starts
    no goroutine, its select can never receive, and the only way out is the
    timer case, which returns the timeout error after logging the warning
    with count zero and no line for any resource.  The timer case can always
    be reached. *)
Theorem empty_batch_times_out d evs s :
  Mass.run evs (Mass.closeInMass d []) = Next s ->
  Mass.at_pc s <> Mass.Return None /\
  Mass.goroutines s = [] /\
  (forall s', Mass.step Mass.EvSelectDone s <> Next s') /\
  (forall e,
      Mass.at_pc s = Mass.Return (Some e) ->
      e = "failed to close all objects" /\
      Mass.log s =
        Trigger.log d ++
          [mkEntry LWarn [VInt 0; VStr " object(s) remaining but timer expired."]]) /\
  (exists s',
      Mass.run [Mass.EvRange; Mass.EvTimer; Mass.EvSelectTimer []] (Mass.closeInMass d [])
      = Next s' /\
      Mass.at_pc s' = Mass.Return (Some "failed to close all objects")).
Proof.
  intros Hrun. destruct (empty_batch_inv _ _ _ Hrun) as (Hg & Hb & Hm & Hc & Hlog).
  apply inv_run in Hrun as Hinv.
  assert (Hnorecv : forall s', Mass.step Mass.EvSelectDone s <> Next s').
  { intros s' (_ & (cl & ch & Hr & _)%select_done_spec)%step_cases.
    apply recv_open in Hr as (Hb' & _); [|by destruct Hinv]. by rewrite Hb in Hb'. }
  split; [intros Hat; by rewrite Hat in Hlog|]. split; [done|].
  split; [done|]. split.
  - intros e Hat. rewrite Hat in Hlog. split; [|done].
    pose proof (inv_pc _ _ Hinv) as Hpc. rewrite Hat in Hpc. by destruct Hpc as (_ & _ & _ & ->).
  - eexists. split; [reflexivity|done].
Qed.

Lemma empty_batch_times_out_witness :
  exists s,
    Mass.run [Mass.EvRange; Mass.EvTimer; Mass.EvSelectTimer []]
      (Mass.closeInMass triggered []) = Next s /\
    Mass.at_pc s <> Mass.Return None /\
    Mass.log s = [mkEntry LWarn [VInt 0; VStr " object(s) remaining but timer expired."]].
Proof.
  reach Hrun. eexists. split; [exact Hrun|].
  destruct (empty_batch_times_out _ _ _ Hrun) as (Hnot & _ & _ & Hlog & _).
  split; [exact Hnot|]. exact (proj2 (Hlog _ eq_refl)).
Defined.

(** ** What a nil result of [closeInMass] means *)

(** A goroutine that is past its [Close] call got there by an [EvClose], and
    one that is finished by an [EvSend]. *)
Lemma goroutine_history d closable evs s :
  Mass.run evs (Mass.closeInMass d closable) = Next s ->
  forall g cl st,
    Mass.goroutines s !! g = Some (cl, st) ->
    (st <> Mass.AtClose -> exists err, Mass.EvClose g err ∈ evs) /\
    (st = Mass.Finished -> Mass.EvSend g ∈ evs).
Proof.
  revert evs s.
  apply (exec_ind Mass.step
           (fun evs s =>
              forall g cl st,
                Mass.goroutines s !! g = Some (cl, st) ->
                (st <> Mass.AtClose -> exists err, Mass.EvClose g err ∈ evs) /\
                (st = Mass.Finished -> Mass.EvSend g ∈ evs))).
  { intros g cl st Hg. done. }
  intros evs s ev s' _ IH Hst g cl st Hg.
  assert (Hold : forall st0,
             Mass.goroutines s !! g = Some (cl, st0) ->
             (st0 <> Mass.AtClose -> exists err, Mass.EvClose g err ∈ evs ++ [ev]) /\
             (st0 = Mass.Finished -> Mass.EvSend g ∈ evs ++ [ev])).
  { intros st0 Hg0. destruct (IH _ _ _ Hg0) as [H1 H2]. split.
    - intros Hne. destruct (H1 Hne) as [err Hin]. exists err.
      apply elem_of_app. by left.
    - intros Heq. apply elem_of_app. left. by apply H2. }
  apply step_cases in Hst. destruct ev.
  - destruct Hst as (i & rest & _ & [(_ & ->)|(c & r' & n & p & _ & _ & ->)]%range_step_spec);
      simpl in Hg; [by apply Hold|].
    apply lookup_snoc_Some in Hg as [[_ Hg]|[_ [= <- <-]]]; [by apply Hold|done].
  - destruct Hst as (_ & ->). by apply Hold.
  - destruct Hst as (_ & (_ & _ & ->)%select_timer_spec). by apply Hold.
  - destruct Hst as (_ & (? & ? & _ & _ & _ & _ & _ & Hgs & _)%select_done_spec).
    rewrite Hgs in Hg. by apply Hold.
  - apply close_returns_spec in Hst as (cl' & r & Hg' & _ & ->). simpl in Hg.
    apply list_lookup_insert_Some in Hg as [(<- & [= <- <-] & _)|[_ Hg]]; [|by apply Hold].
    split; [|done]. intros _. exists err.
    apply elem_of_app. right. by apply list_elem_of_singleton.
  - apply send_done_spec in Hst as (cl' & Hg' & _ & ->). simpl in Hg.
    apply list_lookup_insert_Some in Hg as [(<- & [= <- <-] & _)|[_ Hg]]; [|by apply Hold].
    destruct (Hold _ Hg') as [H1 _]. split; [intros _; by apply H1|]. intros _.
    apply elem_of_app. right. by apply list_elem_of_singleton.
Qed.

(** X2: when [closeInMass] has returned nil, every position of the batch has
    its goroutine, every goroutine has finished, so the [Close] call of
    every closer has returned and its completion was sent; the channel is
    empty and the select has received exactly one completion per closer.
    A nil result is never given while a [Close] call is still running. *)
Theorem nil_means_all_closed d closable evs s :
  Mass.run evs (Mass.closeInMass d closable) = Next s ->
  Mass.at_pc s = Mass.Return None ->
  length (Mass.goroutines s) = length closable /\
  Chan.buf (Mass.doneClosers s) = [] /\
  received evs = length closable /\
  (forall g c,
      closable !! g = Some c ->
      exists cl err,
        Mass.goroutines s !! g = Some (cl, Mass.Finished) /\ Mass.C cl = c /\
        Mass.EvClose g err ∈ evs /\ Mass.EvSend g ∈ evs).
Proof.
  intros Hrun Hat. apply inv_run in Hrun as Hinv.
  pose proof (inv_pc _ _ Hinv) as Hpc. rewrite Hat in Hpc.
  destruct Hpc as (Hlen & Hc & Hempty & _).
  assert (Hnone : forall cl, ~ pending s cl).
  { intros cl Hp. assert (Hm : Mass.sentToClose s !! Mass.Index cl = Some cl)
      by (by apply (inv_map _ _ Hinv)).
    by rewrite Hempty, lookup_empty in Hm. }
  split; [done|]. split; [|split].
  - destruct (Chan.buf (Mass.doneClosers s)) as [|cl rest] eqn:Hb; [done|].
    assert (Hin : cl ∈ Chan.buf (Mass.doneClosers s)) by (rewrite Hb; by left).
    destruct (inv_buf _ _ Hinv _ Hin) as [g Hg].
    exfalso. apply (Hnone cl). by exists g, Mass.Finished.
  - pose proof (count_received _ _ _ _ Hrun) as Hcr. unfold len in Hcr. lia.
  - intros g c Hc'.
    destruct (lookup_lt_is_Some_2 (Mass.goroutines s) g) as [[cl st] Hg].
    { rewrite Hlen. by eapply lookup_lt_Some. }
    assert (st = Mass.Finished) as ->.
    { destruct st; try done; exfalso; apply (Hnone cl); eexists g, _; (split; [done|done]). }
    destruct (goroutine_history _ _ _ _ Hrun _ _ _ Hg) as [H1 H2].
    destruct H1 as [err Herr]; [done|]. exists cl, err.
    destruct (inv_wrap _ _ Hinv _ _ _ Hg) as (c' & n & p & Hc'' & _ & ->).
    repeat split; try done; [simpl; congruence|by apply H2].
Qed.

Lemma nil_means_all_closed_witness :
  exists s,
    Mass.run [Mass.EvRange; Mass.EvRange; Mass.EvClose 1 None; Mass.EvRange;
              Mass.EvClose 0 (Some "busy"); Mass.EvSend 0; Mass.EvSend 1;
              Mass.EvSelectDone; Mass.EvSelectDone]
      (Mass.closeInMass triggered
         [Some (mkResource (Reflect.DefinedType "net" "TCPListener" Reflect.StructLit) 1);
          Some (mkResource (Reflect.PtrTo (Reflect.DefinedType "os" "File" Reflect.StructLit)) 2)])
    = Next s /\
    length (Mass.goroutines s) = 2%nat /\ Chan.buf (Mass.doneClosers s) = [].
Proof.
  reach Hrun. eexists. split; [exact Hrun|].
  destruct (nil_means_all_closed _ _ _ _ Hrun eq_refl) as (Hlen & Hb & _).
  split; [exact Hlen|exact Hb].
Defined.

(** ** The log of [closeInMass] *)

Lemma logged_errors_failed cls : logged_errors (failed_to_close <$> cls) = [].
Proof. induction cls as [|cl cls IH]; [done|]. simpl. exact IH. Qed.

(** What one step adds to the log, and which errors are among it. *)
Lemma log_step ev s s' :
  Mass.step ev s = Next s' ->
  exists new,
    Mass.log s' = Mass.log s ++ new /\ logged_errors new = close_errors [ev].
Proof.
  intros Hst. apply step_cases in Hst. destruct ev.
  - destruct Hst as (i & rest & _ & [(_ & ->)|(c & r' & n & p & _ & _ & ->)]%range_step_spec);
      exists []; simpl; by rewrite app_nil_r.
  - destruct Hst as (_ & ->). exists []. simpl. by rewrite app_nil_r.
  - destruct Hst as (_ & (_ & _ & ->)%select_timer_spec). simpl.
    rewrite log_remaining_omap. unfold logWarn. rewrite <- app_assoc.
    eexists. split; [done|]. simpl. apply logged_errors_failed.
  - destruct Hst as (_ & (? & ? & _ & _ & _ & _ & _ & _ & Hl)%select_done_spec).
    destruct Hl as [(_ & _ & _ & ->)|(_ & _ & ->)]; by eexists.
  - apply close_returns_spec in Hst as (cl' & r & _ & _ & ->). simpl.
    destruct err as [e|]; [by eexists|]. exists []. by rewrite app_nil_r.
  - apply send_done_spec in Hst as (cl' & _ & _ & ->). exists []. simpl. by rewrite app_nil_r.
Qed.

(** A goroutine stays in its [Close] call until that call returns. *)
Lemma at_close_stays ev s s' g cl :
  Mass.goroutines s !! g = Some (cl, Mass.AtClose) ->
  (forall err, ev <> Mass.EvClose g err) ->
  Mass.step ev s = Next s' ->
  Mass.goroutines s' !! g = Some (cl, Mass.AtClose).
Proof.
  intros Hg Hne Hst. apply step_cases in Hst. destruct ev.
  - destruct Hst as (i & rest & _ & [(_ & ->)|(c & r' & n & p & _ & _ & ->)]%range_step_spec);
      simpl; [done|]. by apply lookup_app_l_Some.
  - by destruct Hst as (_ & ->).
  - by destruct Hst as (_ & (_ & _ & ->)%select_timer_spec).
  - destruct Hst as (_ & (? & ? & _ & _ & _ & _ & _ & -> & _)%select_done_spec). done.
  - apply close_returns_spec in Hst as (cl' & r & Hg' & _ & ->). simpl.
    rewrite list_lookup_insert_ne; [done|]. intros ->. by apply (Hne err).
  - apply send_done_spec in Hst as (cl' & Hg' & _ & ->). simpl.
    rewrite list_lookup_insert_ne; [done|]. intros ->. congruence.
Qed.

(** A step of the finer model is a step of [Mass] on [base] that leaves
    [returned] alone and is not the return of an error, or the return of an
    error, which only notes it, or the log call, which is the [EvClose] step
    of [Mass] with the error noted. *)
Lemma fine_step_cases ev fs fs' :
  Fine.step ev fs = Next fs' ->
  (exists mev,
      Mass.step mev (Fine.base fs) = Next (Fine.base fs') /\
      Fine.returned fs' = Fine.returned fs /\
      Fine.close_errors [ev] = [] /\ close_errors [mev] = [] /\
      (forall g err, mev = Mass.EvClose g err -> Fine.returned fs !! g = None)) \/
  (exists g e cl,
      ev = Fine.EvReturned g (Some e) /\ Fine.base fs' = Fine.base fs /\
      Fine.returned fs !! g = None /\
      Fine.returned fs' = <[g := e]> (Fine.returned fs) /\
      Mass.goroutines (Fine.base fs) !! g = Some (cl, Mass.AtClose)) \/
  (exists g e,
      ev = Fine.EvLogged g /\ Fine.returned fs !! g = Some e /\
      Mass.step (Mass.EvClose g (Some e)) (Fine.base fs) = Next (Fine.base fs') /\
      Fine.returned fs' = delete g (Fine.returned fs)).
Proof.
  assert (Hlift : forall mev,
             Fine.lift (Mass.step mev (Fine.base fs)) (Fine.returned fs) = Next fs' ->
             Mass.step mev (Fine.base fs) = Next (Fine.base fs') /\
             Fine.returned fs' = Fine.returned fs).
  { intros mev. unfold Fine.lift. destruct (Mass.step mev (Fine.base fs)); [|done|done].
    by intros [= <-]. }
  destruct ev as [| |order| |g err|g|g]; cbn [Fine.step].
  - intros [? ?]%(Hlift Mass.EvRange). left. exists Mass.EvRange. repeat split; done.
  - intros [? ?]%(Hlift Mass.EvTimer). left. exists Mass.EvTimer. repeat split; done.
  - intros [? ?]%(Hlift (Mass.EvSelectTimer order)). left. exists (Mass.EvSelectTimer order).
    repeat split; done.
  - intros [? ?]%(Hlift Mass.EvSelectDone). left. exists Mass.EvSelectDone.
    repeat split; done.
  - unfold Fine.close_returned. destruct (Fine.returned fs !! g) eqn:Hr; [done|].
    destruct err as [e|].
    + destruct (Mass.goroutines (Fine.base fs) !! g) as [[cl [| |]]|] eqn:Hg; try done.
      destruct (Mass.C cl); [|done]. intros [= <-]. right. left. by exists g, e, cl.
    + intros [? ?]%(Hlift (Mass.EvClose g None)). left. exists (Mass.EvClose g None).
      repeat split; try done. by intros ? ? [= <- _].
  - unfold Fine.error_logged. destruct (Fine.returned fs !! g) as [e|] eqn:Hr; [|done].
    unfold Fine.lift. destruct (Mass.close_returns (Fine.base fs) g (Some e)) eqn:Hc;
      [|done|done].
    intros [= <-]. right. right. by exists g, e.
  - intros [? ?]%(Hlift (Mass.EvSend g)). left. exists (Mass.EvSend g). repeat split; done.
Qed.

(** What a run of the finer model keeps: its [base] is a state of [Mass];
    the goroutines noted in [returned] are in their [Close] call there; and
    the errors logged, with those returned and not logged yet, are the
    errors the [Close] calls returned. *)
Lemma fine_inv d closable evs fs :
  Fine.run evs (Fine.closeInMass d closable) = Next fs ->
  (exists evs0, Mass.run evs0 (Mass.closeInMass d closable) = Next (Fine.base fs)) /\
  (forall g e,
      Fine.returned fs !! g = Some e ->
      exists cl, Mass.goroutines (Fine.base fs) !! g = Some (cl, Mass.AtClose)) /\
  exists added,
    Mass.log (Fine.base fs) = Trigger.log d ++ added /\
    logged_errors added ++ Fine.unlogged fs ≡ₚ Fine.close_errors evs.
Proof.
  revert evs fs.
  apply (exec_ind Fine.step
           (fun evs fs =>
              (exists evs0, Mass.run evs0 (Mass.closeInMass d closable) = Next (Fine.base fs)) /\
              (forall g e,
                  Fine.returned fs !! g = Some e ->
                  exists cl, Mass.goroutines (Fine.base fs) !! g = Some (cl, Mass.AtClose)) /\
              exists added,
                Mass.log (Fine.base fs) = Trigger.log d ++ added /\
                logged_errors added ++ Fine.unlogged fs ≡ₚ Fine.close_errors evs)).
  { split; [by exists []|]. split; [done|]. exists []. simpl. by rewrite app_nil_r. }
  intros evs fs ev fs' _ ((evs0 & Hrun0) & Hret & added & Hlog & Herr) Hst.
  assert (Hsnoc : Fine.close_errors (evs ++ [ev]) =
                  Fine.close_errors evs ++ Fine.close_errors [ev])
    by (unfold Fine.close_errors; by rewrite omap_app).
  rewrite Hsnoc. unfold Fine.unlogged in *.
  destruct (fine_step_cases _ _ _ Hst)
    as [(mev & Hm & Hr & Hce & Hmce & Hfree)|[(g & e & cl & -> & Hb & Hnone & Hr & Hg)|
        (g & e & -> & Hsome & Hm & Hr)]].
  - split; [|split].
    + exists (evs0 ++ [mev]). unfold Mass.run in *. rewrite exec_app, Hrun0. simpl.
      by rewrite Hm.
    + intros g e Hge. rewrite Hr in Hge. destruct (Hret _ _ Hge) as [cl Hcl]. exists cl.
      apply (at_close_stays mev (Fine.base fs)); [done| |done].
      intros err' ->. specialize (Hfree _ _ eq_refl). congruence.
    + destruct (log_step _ _ _ Hm) as (new & Hnew & Hnerr). exists (added ++ new).
      split; [by rewrite Hnew, Hlog, app_assoc|].
      rewrite Hr, Hce, app_nil_r. unfold logged_errors in *.
      rewrite omap_app, Hnerr, Hmce, app_nil_r. exact Herr.
  - rewrite Hb, Hr. split; [by exists evs0|]. split.
    + intros g' e' Hge. destruct (decide (g' = g)) as [->|Hne]; [by exists cl|].
      rewrite lookup_insert_ne in Hge by done. by apply (Hret _ e').
    + exists added. split; [done|]. rewrite map_to_list_insert by done.
      simpl. rewrite <- Herr. rewrite <- !app_assoc. apply Permutation_app_head.
      by rewrite Permutation_app_comm.
  - pose proof Hm as Hm'. apply step_cases, close_returns_spec in Hm'
      as (cl & r & Hg & _ & Hb).
    split; [|split].
    + exists (evs0 ++ [Mass.EvClose g (Some e)]). unfold Mass.run in *.
      rewrite exec_app, Hrun0. simpl. simpl in Hm. by rewrite Hm.
    + intros g' e' Hge. rewrite Hr in Hge.
      apply lookup_delete_Some in Hge as [Hne Hge]. destruct (Hret _ _ Hge) as [cl' Hcl'].
      exists cl'. rewrite Hb. simpl. by rewrite list_lookup_insert_ne.
    + exists (added ++ [mkEntry LError [VErr e]]). split.
      * rewrite Hb. simpl. by rewrite Hlog, app_assoc.
      * simpl. rewrite app_nil_r, <- Herr. unfold logged_errors. rewrite omap_app. simpl.
        rewrite Hr. rewrite <- (map_to_list_delete (Fine.returned fs) g e) by done.
        simpl. rewrite <- !app_assoc. done.
Qed.

(** X3: [closeInMass] and its goroutines only ever add to the logger.  With
    the return of [Close] and the call [d.log.Error(err)] as the two steps
    they are, the errors logged so far, together with those of the
    goroutines that stand between the two, are the results of the [Close]
    calls that were not nil, each once; when no goroutine is in
    [closeObjects] before its send, and so when [closeInMass] has returned
    nil, the errors logged are exactly those results.  No other line of the
    run has that form.  Their order in the log is that of the log calls,
    which need not be that of the returns; and every state reached is one
    that [Mass], where the two are one step, reaches as well. *)
Theorem close_errors_logged d closable evs fs :
  Fine.run evs (Fine.closeInMass d closable) = Next fs ->
  (exists evs0, Mass.run evs0 (Mass.closeInMass d closable) = Next (Fine.base fs)) /\
  exists added,
    Mass.log (Fine.base fs) = Trigger.log d ++ added /\
    logged_errors added ++ Fine.unlogged fs ≡ₚ Fine.close_errors evs /\
    ((forall g cl, Mass.goroutines (Fine.base fs) !! g <> Some (cl, Mass.AtClose)) ->
     logged_errors added ≡ₚ Fine.close_errors evs) /\
    (Mass.at_pc (Fine.base fs) = Mass.Return None ->
     logged_errors added ≡ₚ Fine.close_errors evs).
Proof.
  intros Hrun. destruct (fine_inv _ _ _ _ Hrun) as ((evs0 & Hrun0) & Hret & added & Hlog & Herr).
  split; [by exists evs0|]. exists added. split; [done|]. split; [done|].
  assert (Hquiet : (forall g cl, Mass.goroutines (Fine.base fs) !! g <> Some (cl, Mass.AtClose)) ->
                   logged_errors added ≡ₚ Fine.close_errors evs).
  { intros Hnone. rewrite <- Herr.
    assert (Hempty : Fine.returned fs = ∅).
    { apply map_empty. intros g. destruct (Fine.returned fs !! g) as [e|] eqn:Hg; [|done].
      destruct (Hret _ _ Hg) as [cl Hcl]. by apply Hnone in Hcl. }
    unfold Fine.unlogged. rewrite Hempty, map_to_list_empty. simpl. by rewrite app_nil_r. }
  split; [done|]. intros Hat. apply Hquiet. intros g cl Hg.
  apply inv_run in Hrun0 as Hinv. pose proof (inv_pc _ _ Hinv) as Hpc. rewrite Hat in Hpc.
  destruct Hpc as (_ & _ & Hempty & _).
  assert (Hm : Mass.sentToClose (Fine.base fs) !! Mass.Index cl = Some cl).
  { apply (inv_map _ _ Hinv). split; [done|]. by exists g, Mass.AtClose. }
  by rewrite Hempty, lookup_empty in Hm.
Qed.

Lemma close_errors_logged_witness :
  exists fs,
    Fine.run [Fine.EvRange; Fine.EvRange; Fine.EvReturned 0 (Some "busy");
              Fine.EvReturned 1 (Some "already closed"); Fine.EvLogged 1; Fine.EvRange;
              Fine.EvLogged 0; Fine.EvSend 0; Fine.EvSend 1; Fine.EvSelectDone;
              Fine.EvSelectDone]
      (Fine.closeInMass triggered
         [Some (mkResource (Reflect.DefinedType "net" "TCPListener" Reflect.StructLit) 1);
          Some (mkResource (Reflect.PtrTo (Reflect.DefinedType "os" "File" Reflect.StructLit)) 2)])
    = Next fs /\
    Mass.at_pc (Fine.base fs) = Mass.Return None /\
    logged_errors (Mass.log (Fine.base fs)) = ["already closed"; "busy"] /\
    exists added,
      Mass.log (Fine.base fs) = added /\
      logged_errors added ≡ₚ ["busy"; "already closed"].
Proof.
  reach Hrun. eexists. split; [exact Hrun|]. split; [reflexivity|]. split; [reflexivity|].
  destruct (close_errors_logged _ _ _ _ Hrun) as (_ & added & Hlog & _ & _ & Hnil).
  exists added. split; [exact Hlog|exact (Hnil eq_refl)].
Defined.

(** ** The timeout bounds the wait *)

(** X4: over a batch without nil closers, whatever has happened so far,
    [closeInMass] can still return without any goroutine making a step: the
    rest of the range loop, the timer and the select are enough.  A [Close]
    call that never returns cannot keep [closeInMass] from returning. *)
Theorem timeout_bounds_the_wait d (rs : list resource) evs s :
  Mass.run evs (Mass.closeInMass d (Some <$> rs)) = Next s ->
  exists evs' s' r,
    Mass.run evs' s = Next s' /\ Mass.at_pc s' = Mass.Return r /\
    Forall (fun ev => is_goroutine_event ev = false) evs'.
Proof.
  intros Hrun. apply inv_run in Hrun as Hinv.
  destruct (Mass.at_pc s) as [i rest| |r] eqn:Hat.
  - pose proof (inv_pc _ _ Hinv) as Hpc. rewrite Hat in Hpc.
    destruct Hpc as (_ & Hrest & _). rewrite <- fmap_drop in Hrest.
    rewrite Hrest in Hat.
    destruct (range_loop_completes _ _ _ Hat) as (s1 & Hrun1 & Hat1 & _).
    assert (Hinv1 : inv (Some <$> rs) s1).
    { apply (inv_run _ d (evs ++ replicate (S (length (drop (length (Mass.goroutines s)) rs)))
                                   Mass.EvRange)).
      unfold Mass.run in *. by rewrite exec_app, Hrun. }
    destruct (select_can_time_out _ _ Hinv1 Hat1) as (evs2 & s' & Hrun2 & Hat' & Hall).
    eexists (_ ++ evs2), s', _. split; [|split; [exact Hat'|]].
    + unfold Mass.run in *. by rewrite exec_app, Hrun1.
    + apply Forall_app. split; [|done]. by apply Forall_replicate.
  - destruct (select_can_time_out _ _ Hinv Hat) as (evs2 & s' & Hrun2 & Hat' & Hall).
    by exists evs2, s', (Some "failed to close all objects").
  - exists [], s, r. by repeat split.
Qed.

Lemma timeout_bounds_the_wait_witness :
  exists s,
    Mass.run [Mass.EvRange; Mass.EvClose 0 None]
      (Mass.closeInMass triggered
         (Some <$>
            [mkResource (Reflect.DefinedType "net" "TCPListener" Reflect.StructLit) 1;
             mkResource (Reflect.PtrTo (Reflect.DefinedType "os" "File" Reflect.StructLit)) 2]))
    = Next s /\
    exists evs' s' r,
      Mass.run evs' s = Next s' /\ Mass.at_pc s' = Mass.Return r /\
      Forall (fun ev => is_goroutine_event ev = false) evs'.
Proof.
  reach Hrun. eexists. split; [exact Hrun|].
  exact (timeout_bounds_the_wait _ _ _ _ Hrun).
Defined.

(** ** The run in which every closer closes in time *)

(** The range loop over closers that are not nil starts one goroutine per
    closer, each at its [Close] call, and leaves the channel alone. *)
Lemma range_loop_spawns (rs : list resource) s i :
  Mass.at_pc s = Mass.Range i (Some <$> rs) ->
  exists s',
    Mass.run (replicate (S (length rs)) Mass.EvRange) s = Next s' /\
    Mass.at_pc s' = Mass.Select /\
    Mass.doneClosers s' = Mass.doneClosers s /\
    exists new,
      Mass.goroutines s' = Mass.goroutines s ++ new /\ length new = length rs /\
      Forall (fun g => g.2 = Mass.AtClose) new.
Proof.
  unfold Mass.run. revert s i. induction rs as [|r rs IH]; intros s i Hat; simpl.
  - rewrite Hat. simpl. eexists. split; [done|]. simpl. split; [done|]. split; [done|].
    exists []. by rewrite app_nil_r.
  - rewrite Hat. simpl.
    destruct (getPkgPath_resource r) as (t & _ & Hg).
    unfold Mass.range_step. rewrite Hg. simpl.
    edestruct (IH (Mass.mkState (Mass.timeout s) (Mass.Range (i + 1) (Some <$> rs))
                     (Mass.count s)
                     (<[i := Mass.mkCloser i (Some r) (Reflect.Name_of t) (Reflect.PkgPath_of t)]>
                        (Mass.sentToClose s))
                     (Mass.doneClosers s) (Mass.tm s)
                     (Mass.goroutines s ++
                        [(Mass.mkCloser i (Some r) (Reflect.Name_of t) (Reflect.PkgPath_of t),
                          Mass.AtClose)])
                     (Mass.log s)) (i + 1) eq_refl)
      as (s' & Hrun & Hsel & Hch & new & Hgs & Hlen & Hall).
    exists s'. split; [exact Hrun|]. split; [done|]. split; [done|].
    eexists (_ :: new). simpl in Hgs. rewrite <- app_assoc in Hgs. split; [exact Hgs|].
    split; [simpl; by rewrite Hlen|]. by constructor.
Qed.

(** Goroutines that stand at their [Close] call can all run to their end,
    whatever the calls return: each send finds room. *)
Lemma attempts_complete closable results :
  forall k s,
    inv closable s ->
    (forall j, (j < length results)%nat ->
               exists cl, Mass.goroutines s !! (k + j)%nat = Some (cl, Mass.AtClose)) ->
    exists s',
      Mass.run (attempts k results) s = Next s' /\ inv closable s' /\
      Mass.at_pc s' = Mass.at_pc s /\
      length (Chan.buf (Mass.doneClosers s')) =
        (length (Chan.buf (Mass.doneClosers s)) + length results)%nat /\
      length (Mass.goroutines s') = length (Mass.goroutines s) /\
      (forall j, (j < length results)%nat ->
                 exists cl, Mass.goroutines s' !! (k + j)%nat = Some (cl, Mass.Finished)) /\
      (forall g cl, Mass.goroutines s !! g = Some (cl, Mass.Finished) ->
                    Mass.goroutines s' !! g = Some (cl, Mass.Finished)).
Proof.
  unfold Mass.run. induction results as [|err results IH]; intros k s Hinv Hall.
  { exists s. simpl. split; [done|]. split; [done|]. split; [done|]. split; [lia|].
    split; [done|]. split; [|done]. intros j Hj. lia. }
  destruct (Hall 0%nat) as [cl Hg]; [simpl; lia|]. rewrite Nat.add_0_r in Hg.
  destruct (inv_wrap _ _ Hinv _ _ _ Hg) as (c & n & p & _ & Hpk & Hcl).
  assert (exists r, Mass.C cl = Some r) as [r Hr].
  { rewrite Hcl. simpl. destruct c as [r|]; [by exists r|done]. }
  set (s1 := Mass.mkState (Mass.timeout s) (Mass.at_pc s) (Mass.count s) (Mass.sentToClose s)
               (Mass.doneClosers s) (Mass.tm s)
               (<[k := (cl, Mass.AtSend)]> (Mass.goroutines s))
               (match err with
                | Some e => logError (Mass.log s) [VErr e]
                | None => Mass.log s
                end)).
  assert (Hst1 : Mass.step (Mass.EvClose k err) s = Next s1).
  { simpl. unfold Mass.close_returns. by rewrite Hg, Hr. }
  assert (Hinv1 : inv closable s1) by (by eapply inv_step).
  assert (Hg1 : Mass.goroutines s1 !! k = Some (cl, Mass.AtSend)).
  { simpl. apply list_lookup_insert_eq. by apply lookup_lt_Some in Hg. }
  pose proof (send_done_room _ _ _ _ Hinv1 Hg1) as Hroom.
  set (s2 := Mass.mkState (Mass.timeout s1) (Mass.at_pc s1) (Mass.count s1)
               (Mass.sentToClose s1)
               (Chan.mkChan (Chan.buf (Mass.doneClosers s1) ++ [cl])
                  (Chan.cap (Mass.doneClosers s1)) false)
               (Mass.tm s1) (<[k := (cl, Mass.Finished)]> (Mass.goroutines s1)) (Mass.log s1)).
  assert (Hst2 : Mass.step (Mass.EvSend k) s1 = Next s2).
  { simpl. unfold Mass.send_done, Chan.send.
    rewrite Hg1, (inv_open _ _ Hinv1). apply Z.ltb_lt in Hroom. by rewrite Hroom. }
  assert (Hinv2 : inv closable s2) by (by eapply inv_step).
  assert (Hlook : forall g, g <> k -> Mass.goroutines s2 !! g = Mass.goroutines s !! g).
  { intros g Hne. simpl. by rewrite !list_lookup_insert_ne. }
  assert (Hk : Mass.goroutines s2 !! k = Some (cl, Mass.Finished)).
  { simpl. apply list_lookup_insert_eq. rewrite length_insert. by apply lookup_lt_Some in Hg. }
  destruct (IH (S k) s2 Hinv2) as (s' & Hrun & Hinv' & Hat & Hbuf & Hlen & Hfin & Hstay).
  { intros j Hj. destruct (Hall (S j)) as [cl' Hcl']; [simpl; lia|].
    exists cl'. rewrite Hlook by lia.
    by replace (S k + j)%nat with (k + S j)%nat by lia. }
  exists s'. cbn [attempts exec]. rewrite Hst1. cbn [mbind outcome_bind].
  rewrite Hst2. cbn [mbind outcome_bind]. split; [exact Hrun|]. split; [done|].
  split; [by rewrite Hat|]. split.
  { rewrite Hbuf. simpl. rewrite length_app. simpl. lia. }
  split; [by rewrite Hlen; simpl; rewrite !length_insert|]. split.
  - intros [|j] Hj.
    + exists cl. rewrite Nat.add_0_r. by apply Hstay.
    + destruct (Hfin j) as [cl' Hcl']; [simpl in Hj; lia|].
      exists cl'. by replace (k + S j)%nat with (S k + j)%nat by lia.
  - intros g cl' Hg'. apply Hstay. rewrite Hlook; [done|]. intros ->. congruence.
Qed.

(** X5: for every batch with at least one closer, none of them nil, and for
    every choice of what the [Close] calls return, nil or an error, the run
    in which the range loop starts the goroutines, every [Close] call returns
    its result, every completion is sent and the select receives them all
    ends with [closeInMass] returning nil.  Success never depends on what
    [Close] returns. *)
Theorem every_batch_can_succeed d (b0 : resource * option error)
    (bs : list (resource * option error)) :
  exists s,
    Mass.run (in_time (b0 :: bs).*2) (Mass.closeInMass d (Some <$> (b0 :: bs).*1))
    = Next s /\
    Mass.at_pc s = Mass.Return None /\
    Mass.sentToClose s = ∅ /\ Mass.count s = 0.
Proof.
  set (all := b0 :: bs). set (closable := Some <$> all.*1).
  assert (Hne : closable <> []) by done.
  assert (HN : length all.*2 = length all.*1) by (by rewrite !length_fmap).
  destruct (range_loop_spawns all.*1 (Mass.closeInMass d closable) 0 eq_refl)
    as (s1 & Hrun1 & Hat1 & Hch1 & new & Hgs1 & Hlen1 & Hall1).
  simpl in Hgs1.
  assert (Hinv1 : inv closable s1) by (by eapply inv_run).
  destruct (attempts_complete closable all.*2 0 s1 Hinv1)
    as (s2 & Hrun2 & Hinv2 & Hat2 & Hbuf2 & Hlen2 & Hfin2 & _).
  { intros j Hj. simpl. rewrite Hgs1.
    destruct (lookup_lt_is_Some_2 new j) as [[cl st] Hg]; [lia|].
    exists cl. rewrite Forall_lookup in Hall1. specialize (Hall1 _ _ Hg). simpl in Hall1.
    by subst st. }
  rewrite Hch1 in Hbuf2. simpl in Hbuf2.
  destruct (drain_select closable Hne (length all.*2) s2 Hinv2) as (s3 & Hrun3 & Hat3).
  { by rewrite Hat2. }
  { intros g cl st Hg. apply lookup_lt_Some in Hg as Hlt.
    rewrite Hlen2, Hgs1, Hlen1, <- HN in Hlt.
    destruct (Hfin2 g Hlt) as [cl' Hg']. simpl in Hg'. congruence. }
  { done. }
  exists s3. split; [|split; [done|]].
  - unfold in_time, Mass.run in *. rewrite HN at 1.
    rewrite exec_app, Hrun1. cbn [mbind outcome_bind]. by rewrite exec_app, Hrun2.
  - assert (Hinv3 : inv closable s3).
    { apply (inv_run _ d (in_time all.*2)). unfold in_time, Mass.run in *. rewrite HN at 1.
      rewrite exec_app, Hrun1. cbn [mbind outcome_bind]. by rewrite exec_app, Hrun2. }
    pose proof (inv_pc _ _ Hinv3) as Hpc. rewrite Hat3 in Hpc.
    by destruct Hpc as (_ & ? & ? & _).
Qed.

(** ** Every run of [closeInMass] is finite *)

Lemma goroutine_steps_insert gs g x y :
  gs !! g = Some x ->
  (sum_list_with goroutine_steps (<[g := y]> gs) + goroutine_steps x =
   sum_list_with goroutine_steps gs + goroutine_steps y)%nat.
Proof.
  revert g. induction gs as [|z gs IH]; intros [|g]; simpl; try done.
  - intros [= ->]. lia.
  - intros Hg. specialize (IH g Hg). lia.
Qed.

(** Every step uses up at least one of the steps that are left. *)
Lemma steps_left_step closable ev s s' :
  inv closable s -> Mass.step ev s = Next s' -> (steps_left s' < steps_left s)%nat.
Proof.
  intros Hinv Hst. pose proof (inv_pc _ _ Hinv) as Hpc.
  apply step_cases in Hst as Hcase. unfold steps_left. destruct ev.
  - destruct Hcase as (i & rest & Hat & [(-> & ->)|(c & r' & n & p & -> & _ & ->)]%range_step_spec);
      rewrite Hat in *; simpl.
    + destruct Hpc as (_ & _ & _ & -> & _). unfold Mass.NewTimer. lia.
    + rewrite sum_list_with_app. simpl. destruct (Mass.tm s); lia.
  - destruct Hcase as (Htm & ->). simpl. rewrite Htm. destruct (Mass.at_pc s); lia.
  - destruct Hcase as (Hat & (Htm & _ & ->)%select_timer_spec). simpl. rewrite Hat, Htm. lia.
  - destruct Hcase as (Hat & Hsel).
    assert (Hinv' : inv closable s') by (by eapply inv_step).
    apply select_done_spec in Hsel as (cl & ch & Hr & Hc & Hm & _ & Htm & Hg & Hcases).
    destruct (select_done_recv _ _ Hinv _ _ Hr) as (_ & _ & _ & Hin).
    rewrite Hat in Hpc. destruct Hpc as (_ & Hcount & _).
    assert (0 < Mass.count s).
    { rewrite Hcount. assert (size (Mass.sentToClose s) <> 0%nat); [|lia].
      intros He%map_size_empty_inv. by rewrite He, lookup_empty in Hin. }
    rewrite Hat, Htm, Hg, Hc.
    destruct Hcases as [(_ & _ & -> & _)|(_ & -> & _)]; destruct (Mass.tm s); lia.
  - apply close_returns_spec in Hcase as (cl & r & Hg & _ & ->). simpl.
    pose proof (goroutine_steps_insert _ _ _ (cl, Mass.AtSend) Hg) as Hs.
    unfold goroutine_steps at 2 4 in Hs. simpl in Hs. lia.
  - apply send_done_spec in Hcase as (cl & Hg & _ & ->). simpl.
    pose proof (goroutine_steps_insert _ _ _ (cl, Mass.Finished) Hg) as Hs.
    unfold goroutine_steps at 2 4 in Hs. simpl in Hs. lia.
Qed.

(** X6: every run of [closeInMass] over [n] closers is finite: it has at
    most [4 * n + 3] steps, counting the turns of the range loop, the returns
    of the [Close] calls, the sends, the expiry of the timer and the cases
    the select takes; and from every state it reaches at most [steps_left]
    further steps can be taken.  The select loop cannot spin. *)
Theorem runs_are_bounded d closable evs s :
  Mass.run evs (Mass.closeInMass d closable) = Next s ->
  (length evs + steps_left s <= 4 * length closable + 3)%nat /\
  (forall evs' s', Mass.run evs' s = Next s' -> (length evs' <= steps_left s)%nat).
Proof.
  intros Hrun. apply inv_run in Hrun as Hinv. split.
  - revert evs s Hrun Hinv.
    assert (H0 : (steps_left (Mass.closeInMass d closable) = 4 * length closable + 3)%nat).
    { unfold steps_left. cbn [Mass.closeInMass Mass.at_pc Mass.count Mass.tm Mass.goroutines].
      unfold len. simpl sum_list_with. lia. }
    intros evs s Hrun _. revert evs s Hrun.
    apply (exec_ind Mass.step
             (fun evs s => (length evs + steps_left s <= 4 * length closable + 3)%nat)).
    + simpl. lia.
    + intros evs s ev s' Hrun IH Hst. apply inv_run in Hrun as Hinv.
      pose proof (steps_left_step _ _ _ _ Hinv Hst). rewrite length_app. simpl. lia.
  - intros evs' s' Hrun'.
    assert (length evs' + steps_left s' <= steps_left s)%nat; [|lia].
    revert evs' s' Hrun'.
    apply (exec_ind Mass.step
             (fun evs' s' => inv closable s' /\
                             (length evs' + steps_left s' <= steps_left s)%nat));
      [split; [done|simpl; lia]|].
    intros evs' s1 ev s2 _ [Hinv1 IH] Hst. split; [by eapply inv_step|].
    pose proof (steps_left_step _ _ _ _ Hinv1 Hst). rewrite length_app. simpl. lia.
Qed.

Lemma runs_are_bounded_witness :
  exists s,
    Mass.run [Mass.EvRange; Mass.EvRange; Mass.EvClose 0 None; Mass.EvTimer]
      (Mass.closeInMass triggered
         [Some (mkResource (Reflect.DefinedType "net" "TCPListener" Reflect.StructLit) 1)])
    = Next s /\
    (4 + steps_left s <= 7)%nat.
Proof.
  reach Hrun. eexists. split; [exact Hrun|].
  exact (proj1 (runs_are_bounded _ _ _ _ Hrun)).
Defined.

(** ** Once [closeInMass] has returned *)

(** X7: the result of [closeInMass] is final.  After it has returned, what
    can still happen is that its timer expires and that goroutines it left
    behind finish their [Close] call and send their completion: the select
    takes no further case, so the result, the count and the pending set stay
    as they were at the return, completions sent later stay in the channel,
    and the log can only grow. *)
Theorem result_is_final s r evs' s' :
  Mass.at_pc s = Mass.Return r ->
  Mass.run evs' s = Next s' ->
  Mass.at_pc s' = Mass.Return r /\
  Mass.count s' = Mass.count s /\
  Mass.sentToClose s' = Mass.sentToClose s /\
  Forall (fun ev => is_goroutine_event ev = true \/ ev = Mass.EvTimer) evs' /\
  (exists late, Chan.buf (Mass.doneClosers s') = Chan.buf (Mass.doneClosers s) ++ late) /\
  (exists added, Mass.log s' = Mass.log s ++ added).
Proof.
  intros Hat. revert evs' s'.
  apply (exec_ind Mass.step
           (fun evs' s' =>
              Mass.at_pc s' = Mass.Return r /\
              Mass.count s' = Mass.count s /\
              Mass.sentToClose s' = Mass.sentToClose s /\
              Forall (fun ev => is_goroutine_event ev = true \/ ev = Mass.EvTimer) evs' /\
              (exists late,
                  Chan.buf (Mass.doneClosers s') = Chan.buf (Mass.doneClosers s) ++ late) /\
              (exists added, Mass.log s' = Mass.log s ++ added))).
  { repeat split; try done; exists []; by rewrite app_nil_r. }
  intros evs s1 ev s2 _ (Hat1 & Hc & Hm & Hall & [late Hlate] & [added Hadd]) Hst.
  destruct (log_step _ _ _ Hst) as (new & Hnew & _).
  assert (Hlog : exists added', Mass.log s2 = Mass.log s ++ added').
  { exists (added ++ new). by rewrite Hnew, Hadd, app_assoc. }
  apply step_cases in Hst. destruct ev.
  - destruct Hst as (i & rest & Hat' & _). congruence.
  - destruct Hst as (_ & ->). simpl. repeat split; try done.
    + apply Forall_app. split; [done|]. constructor; [by right|done].
    + by exists late.
  - destruct Hst as (Hat' & _). congruence.
  - destruct Hst as (Hat' & _). congruence.
  - apply close_returns_spec in Hst as (cl & r0 & _ & _ & ->). simpl in *.
    repeat split; try done.
    + apply Forall_app. split; [done|]. constructor; [by left|done].
    + by exists late.
  - apply send_done_spec in Hst as (cl & _ & _ & ->). simpl in *.
    repeat split; try done.
    + apply Forall_app. split; [done|]. constructor; [by left|done].
    + exists (late ++ [cl]). by rewrite Hlate, app_assoc.
Qed.

Lemma result_is_final_witness :
  exists s,
    Mass.run [Mass.EvRange; Mass.EvRange; Mass.EvTimer; Mass.EvSelectTimer [0]]
      (Mass.closeInMass triggered
         [Some (mkResource (Reflect.DefinedType "net" "TCPListener" Reflect.StructLit) 1)])
    = Next s /\
    exists s',
      Mass.run [Mass.EvClose 0 (Some "closed too late"); Mass.EvSend 0] s = Next s' /\
      Mass.at_pc s' = Mass.Return (Some "failed to close all objects") /\
      Mass.sentToClose s' = Mass.sentToClose s.
Proof.
  reach Hrun.
  match type of Hrun with
  | _ = Next ?s =>
      eassert (Hrun' : Mass.run [Mass.EvClose 0 (Some "closed too late"); Mass.EvSend 0] s
                       = Next _) by (vm_compute; reflexivity)
  end.
  match type of Hrun' with
  | Mass.run ?e ?s = Next ?s' =>
      destruct (result_is_final s (Some "failed to close all objects") e s' eq_refl Hrun')
        as (Hat & _ & Hm & _)
  end.
  eexists. split; [exact Hrun|]. eexists. split; [exact Hrun'|].
  split; [exact Hat|exact Hm].
Defined.

(** ** What fires the trigger unit *)

Lemma from_NewDeath_snoc signals evs ev w' :
  from_NewDeath signals (evs ++ [ev]) = Next w' ->
  exists w, from_NewDeath signals evs = Next w /\ Trigger.step ev w = Next w'.
Proof.
  unfold from_NewDeath. destruct (Trigger.NewDeath signals) as [w0| |]; [|done|done].
  simpl. apply exec_snoc.
Qed.

(** X8: the trigger unit fires for a reason.  If it is triggered, then
    before that a signal that [NewDeath] subscribed to was delivered or
    [FallOnSword] was called.  So as long as only signals that were not
    subscribed to arrive and nobody calls [FallOnSword], [WaitForDeath] and
    [WaitForDeathWithFunc] keep waiting. *)
Theorem no_trigger_without_cause signals evs w :
  from_NewDeath signals evs = Next w ->
  (trigger_state w = Triggered ->
   (exists sg, Trigger.relayed signals sg = true /\ Trigger.EvSignal sg ∈ evs) \/
   Trigger.EvFallOnSword ∈ evs) /\
  ((forall sg, Trigger.EvSignal sg ∈ evs -> Trigger.relayed signals sg = false) ->
   Trigger.EvFallOnSword ∉ evs ->
   trigger_state w = Armed /\
   (forall closable, WaitForDeath (Trigger.death w) closable = Blocked) /\
   (forall f : Logger -> Logger, WaitForDeathWithFunc (Trigger.death w) f = Blocked)).
Proof.
  intros Hrun.
  assert (Hcause : trigger_state w = Triggered ->
                   (exists sg, Trigger.relayed signals sg = true /\ Trigger.EvSignal sg ∈ evs) \/
                   Trigger.EvFallOnSword ∈ evs).
  { revert w Hrun. induction evs as [|ev evs IH] using rev_ind; intros w' Hrun.
    - unfold from_NewDeath in Hrun. simpl in Hrun. by injection Hrun as <-.
    - apply from_NewDeath_snoc in Hrun as (w & Hrun & Hst). intros Ht.
      destruct (thist_reach _ _ _ Hrun) as [Hinv Hhist].
      destruct (trigger_state w) eqn:Hw.
      + destruct (armed_step _ _ _ _ Hinv Hst Hw Ht) as [[-> [sg Hb]]|[-> Hb]].
        * left. exists sg. split.
          -- assert (Hrel := ti_relayed _ _ Hinv). rewrite Hb in Hrel. by inversion Hrel.
          -- apply elem_of_app. left. apply (th_sig _ _ Hhist). rewrite Hb. by left.
        * right. apply elem_of_app. left. apply (th_call _ _ Hhist). by rewrite Hb.
      + destruct (IH _ Hrun Hw) as [(sg & Hrel & Hin)|Hin].
        * left. exists sg. split; [done|]. apply elem_of_app. by left.
        * right. apply elem_of_app. by left. }
  split; [done|]. intros Hsigs Hfall.
  assert (Harmed : trigger_state w = Armed).
  { destruct (trigger_state w); [done|].
    destruct (Hcause eq_refl) as [(sg & Hrel & Hin)|Hin]; [|done].
    apply Hsigs in Hin. congruence. }
  split; [done|]. apply tinv_reach in Hrun as Hinv. pose proof (ti_wg _ _ Hinv) as Hwg.
  unfold trigger_state in Harmed. destruct (Trigger.listening w); [|done].
  unfold WaitForDeath, WaitForDeathWithFunc, Trigger.wg_Wait. rewrite Hwg. done.
Qed.

Lemma no_trigger_without_cause_witness :
  exists w,
    from_NewDeath [2; 15]
      [Trigger.EvSignal 1; Trigger.EvSetTimeout 5; Trigger.EvSignal 10] = Next w /\
    trigger_state w = Armed /\
    WaitForDeath (Trigger.death w) [] = Blocked.
Proof.
  eexists. split; [reflexivity|].
  destruct (no_trigger_without_cause [2; 15]
              [Trigger.EvSignal 1; Trigger.EvSetTimeout 5; Trigger.EvSignal 10] _ eq_refl)
    as (_ & Hwait).
  destruct Hwait as (Ha & Hw & _).
  - intros sg Hin.
    repeat (apply elem_of_cons in Hin as [Hin|Hin];
            [first [discriminate | by injection Hin as ->]|]).
    by apply elem_of_nil in Hin.
  - intros Hin. repeat (apply elem_of_cons in Hin as [Hin|Hin]; [discriminate|]).
    by apply elem_of_nil in Hin.
  - split; [exact Ha|exact (Hw [])].
Defined.

(** ** Signals that arrive while one is queued *)

(** X9: signals do not pile up.  At most one signal is ever queued in
    [sigChannel]; while one is queued, it is one that was subscribed to,
    and every further signal that is delivered changes nothing.  Once the
    unit is triggered nobody reads [sigChannel] any more: what is queued
    stays at the head of the channel for good, and an empty channel takes
    at most one signal, a subscribed one delivered after the trigger, which
    then stays as well. *)
Theorem queued_signal_absorbs signals evs w :
  from_NewDeath signals evs = Next w ->
  (length (Chan.buf (Trigger.sigChannel (Trigger.death w))) <= 1)%nat /\
  (forall sg0,
      Chan.buf (Trigger.sigChannel (Trigger.death w)) = [sg0] ->
      Trigger.relayed signals sg0 = true /\
      forall sg, Trigger.step (Trigger.EvSignal sg) w = Next w) /\
  (trigger_state w = Triggered ->
   forall evs' w',
     Trigger.run evs' w = Next w' ->
     Chan.buf (Trigger.sigChannel (Trigger.death w)) `prefix_of`
       Chan.buf (Trigger.sigChannel (Trigger.death w')) /\
     (forall sg0,
         Chan.buf (Trigger.sigChannel (Trigger.death w)) = [sg0] ->
         Trigger.sigChannel (Trigger.death w') = Trigger.sigChannel (Trigger.death w)) /\
     (Chan.buf (Trigger.sigChannel (Trigger.death w)) = [] ->
      Chan.buf (Trigger.sigChannel (Trigger.death w')) = [] \/
      exists sg,
        Trigger.relayed signals sg = true /\ Trigger.EvSignal sg ∈ evs' /\
        Chan.buf (Trigger.sigChannel (Trigger.death w')) = [sg])).
Proof.
  intros Hrun. apply tinv_reach in Hrun as Hinv.
  destruct Hinv as [Hn Hso Hco Hsc Hcc Hsl Hcl Hrel Hwg].
  assert (Hone : (length (Chan.buf (Trigger.sigChannel (Trigger.death w))) <= 1)%nat)
    by (unfold Chan.len in Hsl; lia).
  assert (Hdrop : forall (w1 : Trigger.world) sg,
             Chan.cap (Trigger.sigChannel (Trigger.death w1)) = 1 ->
             Chan.closed (Trigger.sigChannel (Trigger.death w1)) = false ->
             length (Chan.buf (Trigger.sigChannel (Trigger.death w1))) = 1%nat ->
             Trigger.step (Trigger.EvSignal sg) w1 = Next w1).
  { intros w1 sg Hc1 Ho1 Hl1. simpl. unfold Trigger.deliver, Chan.send, Chan.len.
    rewrite Ho1, Hc1, Hl1. simpl. by destruct (Trigger.relayed _ sg). }
  split; [done|]. split.
  { intros sg0 Hb. split; [rewrite Hb in Hrel; by inversion Hrel|].
    intros sg. apply Hdrop; [done|done|by rewrite Hb]. }
  intros Ht. unfold trigger_state in Ht. destruct (Trigger.listening w) eqn:Hl; [done|].
  intros evs' w' Hrun'.
  assert (Hkey :
    Trigger.listening w' = false /\ Trigger.notified w' = signals /\
    Chan.cap (Trigger.sigChannel (Trigger.death w')) = 1 /\
    Chan.closed (Trigger.sigChannel (Trigger.death w')) = false /\
    (Chan.buf (Trigger.sigChannel (Trigger.death w')) =
       Chan.buf (Trigger.sigChannel (Trigger.death w)) \/
     Chan.buf (Trigger.sigChannel (Trigger.death w)) = [] /\
     exists sg,
       Trigger.relayed signals sg = true /\ Trigger.EvSignal sg ∈ evs' /\
       Chan.buf (Trigger.sigChannel (Trigger.death w')) = [sg])).
  { revert evs' w' Hrun'.
    apply (exec_ind Trigger.step
             (fun evs' w' =>
                Trigger.listening w' = false /\ Trigger.notified w' = signals /\
                Chan.cap (Trigger.sigChannel (Trigger.death w')) = 1 /\
                Chan.closed (Trigger.sigChannel (Trigger.death w')) = false /\
                (Chan.buf (Trigger.sigChannel (Trigger.death w')) =
                   Chan.buf (Trigger.sigChannel (Trigger.death w)) \/
                 Chan.buf (Trigger.sigChannel (Trigger.death w)) = [] /\
                 exists sg,
                   Trigger.relayed signals sg = true /\ Trigger.EvSignal sg ∈ evs' /\
                   Chan.buf (Trigger.sigChannel (Trigger.death w')) = [sg]))).
    { split; [done|]. split; [done|]. split; [done|]. split; [done|]. by left. }
    intros evs1 w1 ev w2 _ (Hl1 & Hn1 & Hc1 & Ho1 & Hb1) Hst.
    assert (Hlater : Chan.buf (Trigger.sigChannel (Trigger.death w1)) =
                       Chan.buf (Trigger.sigChannel (Trigger.death w)) \/
                     Chan.buf (Trigger.sigChannel (Trigger.death w)) = [] /\
                     exists sg,
                       Trigger.relayed signals sg = true /\
                       Trigger.EvSignal sg ∈ evs1 ++ [ev] /\
                       Chan.buf (Trigger.sigChannel (Trigger.death w1)) = [sg]).
    { destruct Hb1 as [?|(? & sg & ? & Hin & ?)]; [by left|right].
      split; [done|]. exists sg. split; [done|]. split; [|done].
      apply elem_of_app. by left. }
    destruct ev as [sg| |t|b].
    - simpl in Hst. unfold Trigger.deliver in Hst. rewrite Hn1 in Hst.
      destruct (Trigger.relayed signals sg) eqn:Hr; [|by injection Hst as <-].
      destruct (Chan.send _ sg) as [ch| |] eqn:Hs; [| |done].
      + injection Hst as <-. simpl.
        apply send_open in Hs as (_ & Hlt & ->). simpl.
        split; [done|]. split; [done|]. split; [done|]. split; [done|].
        unfold Chan.len in Hlt. rewrite Hc1 in Hlt.
        destruct (Chan.buf (Trigger.sigChannel (Trigger.death w1))) as [|x rest] eqn:Hbuf;
          [|simpl in Hlt; lia].
        right. destruct Hb1 as [Heq|(_ & sg' & _ & _ & ?)]; [|done].
        split; [done|]. exists sg. split; [done|]. split; [|done].
        apply elem_of_app. right. by apply list_elem_of_singleton.
      + by injection Hst as <-.
    - simpl in Hst. destruct (Trigger.FallOnSword (Trigger.death w1)) as [d'| |] eqn:Hf;
        [|done|done].
      injection Hst as <-. simpl.
      destruct (FallOnSword_frame _ _ Hf) as (_ & -> & _). done.
    - by injection Hst as <-.
    - simpl in Hst. unfold Trigger.listenForSignal in Hst. by rewrite Hl1 in Hst. }
  destruct Hkey as (_ & _ & Hc' & Ho' & Hb').
  split; [|split].
  - destruct Hb' as [->|(-> & _)]; [done|]. apply prefix_nil.
  - intros sg0 Hb. destruct Hb' as [Heq|(Hnil & _)]; [|congruence].
    destruct (Trigger.sigChannel (Trigger.death w')) as [b' c' o'].
    destruct (Trigger.sigChannel (Trigger.death w)) as [b0 c0 o0].
    simpl in *. congruence.
  - intros Hnil. destruct Hb' as [Heq|(_ & Hex)]; [left; congruence|by right].
Qed.

Lemma queued_signal_absorbs_witness :
  exists w,
    from_NewDeath [2; 15]
      [Trigger.EvFallOnSword; Trigger.EvListen Trigger.FromCall; Trigger.EvSignal 15] = Next w /\
    Trigger.step (Trigger.EvSignal 2) w = Next w /\
    forall evs' w',
      Trigger.run evs' w = Next w' ->
      Trigger.sigChannel (Trigger.death w') = Trigger.sigChannel (Trigger.death w).
Proof.
  eexists. split; [reflexivity|].
  destruct (queued_signal_absorbs [2; 15]
              [Trigger.EvFallOnSword; Trigger.EvListen Trigger.FromCall; Trigger.EvSignal 15]
              _ eq_refl) as (_ & Hfull & Hstay).
  split; [exact (proj2 (Hfull 15 eq_refl) 2)|].
  intros evs' w' Hrun'. exact (proj1 (proj2 (Hstay eq_refl evs' w' Hrun')) 15 eq_refl).
Defined.

(** ** The setters *)

(** The steps of the trigger unit neither read nor write the logger. *)
Lemma step_with_logger ev w l :
  Trigger.step ev (Host.with_logger w l) =
  match Trigger.step ev w with
  | Next w' => Next (Host.with_logger w' l)
  | Blocked => Blocked
  | Panic msg => Panic msg
  end.
Proof.
  destruct ev as [sg| |t|b]; simpl.
  - unfold Trigger.deliver. simpl. destruct (Trigger.relayed _ sg); [|done].
    by destruct (Chan.send _ sg).
  - unfold Trigger.FallOnSword. simpl. by destruct (Chan.send _ tt).
  - done.
  - unfold Trigger.listenForSignal. simpl. destruct (Trigger.listening w); [|done].
    destruct b; simpl.
    + destruct (Chan.recv 0 _) as [[x ch]| |]; simpl; [|done|done].
      by destruct (Trigger.wg_Done _).
    + destruct (Chan.recv tt _) as [[x ch]| |]; simpl; [|done|done].
      by destruct (Trigger.wg_Done _).
Qed.

(** What a step of the trigger unit does to the configuration: only
    [SetTimeout] changes the timeout, nothing changes the logger. *)
Lemma step_config ev w w' :
  Trigger.step ev w = Next w' ->
  Trigger.log (Trigger.death w') = Trigger.log (Trigger.death w) /\
  Trigger.timeout (Trigger.death w') =
    match ev with
    | Trigger.EvSetTimeout t => t
    | _ => Trigger.timeout (Trigger.death w)
    end.
Proof.
  destruct ev as [sg| |t|b]; simpl.
  - unfold Trigger.deliver. destruct (Trigger.relayed _ sg); [|by intros [= <-]].
    destruct (Chan.send _ sg); [| |done]; by intros [= <-].
  - unfold Trigger.FallOnSword. destruct (Chan.send _ tt); simpl; [| |done]; by intros [= <-].
  - by intros [= <-].
  - unfold Trigger.listenForSignal. destruct (Trigger.listening w); [|done].
    destruct b; simpl.
    + destruct (Chan.recv 0 _) as [[x ch]| |]; simpl; [|done|done].
      destruct (Trigger.wg_Done _); simpl; [|done|done]. by intros [= <-].
    + destruct (Chan.recv tt _) as [[x ch]| |]; simpl; [|done|done].
      destruct (Trigger.wg_Done _); simpl; [|done|done]. by intros [= <-].
Qed.

(** X10: the setters only configure, and a nil logger is fatal.  However
    calls of [SetTimeout] and [SetLogger] are mixed with signals, calls of
    [FallOnSword] and steps of the listener, the timeout in force is the one
    set last, ten seconds if none was set, and the logger in force is the
    one set last, nil if that call was [SetLogger(nil)], the standard logger
    if none was set; the calls of [SetLogger] change nothing else, so the
    trigger unit is in the state it would be in without them.  While the
    unit is armed [WaitForDeath] waits, whatever the logger.  Once it is
    triggered, [WaitForDeath] panics if the logger in force is nil;
    otherwise, over one closer or more, it enters [closeInMass] with that
    timeout and that logger, after its own two log lines. *)
Theorem setters_only_configure signals evs st :
  Host.from_NewDeath signals evs = Next st ->
  Trigger.timeout (Trigger.death (Host.world st)) =
    Host.last_timeout evs (10 * Trigger.Second) /\
  match Host.last_logger evs (Some []) with
  | Some l => Host.nil_log st = false /\ Trigger.log (Trigger.death (Host.world st)) = l
  | None => Host.nil_log st = true
  end /\
  (exists w',
      from_NewDeath signals (Host.others evs) = Next w' /\
      Host.world st =
        Host.with_logger w' (Trigger.log (Trigger.death (Host.world st))) /\
      trigger_state (Host.world st) = trigger_state w') /\
  (trigger_state (Host.world st) = Armed ->
   forall closable, Host.WaitForDeath st closable = Blocked) /\
  (trigger_state (Host.world st) = Triggered ->
   match Host.last_logger evs (Some []) with
   | None =>
       forall closable,
         Host.WaitForDeath st closable =
           Panic "runtime error: invalid memory address or nil pointer dereference"
   | Some l =>
       forall c closable,
       exists s0,
         Host.WaitForDeath st (c :: closable) = Next (InCloseInMass s0) /\
         Mass.timeout s0 = Host.last_timeout evs (10 * Trigger.Second) /\
         Mass.log s0 =
           l ++ [mkEntry LInfo [VStr "Shutdown started..."];
                 mkEntry LDebug
                   [VStr "Closing "; VInt (len (c :: closable)); VStr " objects"]]
   end).
Proof.
  intros Hrun.
  assert (Hmain :
    Trigger.timeout (Trigger.death (Host.world st)) =
      Host.last_timeout evs (10 * Trigger.Second) /\
    match Host.last_logger evs (Some []) with
    | Some l => Host.nil_log st = false /\ Trigger.log (Trigger.death (Host.world st)) = l
    | None => Host.nil_log st = true
    end /\
    exists w', from_NewDeath signals (Host.others evs) = Next w' /\
               Host.world st =
                 Host.with_logger w' (Trigger.log (Trigger.death (Host.world st)))).
  { unfold Host.from_NewDeath, from_NewDeath in *.
    destruct (Trigger.NewDeath signals) as [w0| |] eqn:H0; [|done|done].
    injection H0 as <-. cbn [mbind outcome_bind] in *. revert evs st Hrun.
    apply (exec_ind Host.step
             (fun evs st =>
                Trigger.timeout (Trigger.death (Host.world st)) =
                  Host.last_timeout evs (10 * Trigger.Second) /\
                match Host.last_logger evs (Some []) with
                | Some l =>
                    Host.nil_log st = false /\
                    Trigger.log (Trigger.death (Host.world st)) = l
                | None => Host.nil_log st = true
                end /\
                exists w', Trigger.run (Host.others evs) _ = Next w' /\
                           Host.world st =
                             Host.with_logger w'
                               (Trigger.log (Trigger.death (Host.world st))))).
    { split; [done|]. split; [done|]. by eexists. }
    intros evs st ev st2 _ (Ht & Hl & w' & Hrun' & Hw) Hst.
    unfold Host.last_timeout, Host.last_logger, Host.others in *.
    rewrite !foldl_snoc, omap_app. destruct ev as [ev|[l|]]; simpl in Hst.
    - destruct (Trigger.step ev (Host.world st)) as [w2| |] eqn:Hst2; [|done|done].
      injection Hst as <-. cbn [Host.world Host.nil_log].
      destruct (step_config _ _ _ Hst2) as [Hlog2 Htime2].
      rewrite Hw, step_with_logger in Hst2.
      destruct (Trigger.step ev w') as [w2'| |] eqn:Hst'; [|done|done].
      injection Hst2 as Hw2.
      split; [|split].
      + rewrite Htime2. destruct ev; try done; by rewrite <- Ht.
      + by rewrite Hlog2.
      + exists w2'. split.
        * simpl. unfold Trigger.run in *. rewrite exec_app, Hrun'. simpl. by rewrite Hst'.
        * by rewrite Hlog2, <- Hw2.
    - injection Hst as <-. cbn [Host.world Host.nil_log]. split; [done|]. split; [done|].
      exists w'. simpl. rewrite app_nil_r. split; [done|]. by rewrite Hw.
    - injection Hst as <-. cbn [Host.world Host.nil_log]. split; [done|]. split; [done|].
      exists w'. simpl. rewrite app_nil_r. done. }
  destruct Hmain as (Ht & Hl & w' & Hrun' & Hw).
  assert (Hts : trigger_state (Host.world st) = trigger_state w') by (by rewrite Hw).
  apply tinv_reach in Hrun' as Hinv.
  assert (Hwg : Trigger.wg (Trigger.death (Host.world st)) =
                if Trigger.listening (Host.world st) then 1 else 0).
  { rewrite Hw. simpl. apply (ti_wg _ _ Hinv). }
  split; [done|]. split; [done|]. split; [by exists w'|]. split.
  - intros Harmed closable. unfold trigger_state in Harmed.
    unfold Host.WaitForDeath, Trigger.wg_Wait. rewrite Hwg.
    by destruct (Trigger.listening (Host.world st)).
  - intros Htrig. unfold trigger_state in Htrig.
    destruct (Trigger.listening (Host.world st)) eqn:Hlis; [done|].
    destruct (Host.last_logger evs (Some [])) as [l|].
    + destruct Hl as [Hnil Hlog]. intros c closable.
      unfold Host.WaitForDeath, WaitForDeath, Trigger.wg_Wait. rewrite Hwg, Hnil.
      assert (Hpos : (0 <? len (c :: closable)) = true)
        by (apply Z.ltb_lt; unfold len; simpl; lia).
      cbn [Z.eqb mbind outcome_bind]. rewrite Hpos. eexists. split; [done|].
      cbn [Mass.closeInMass Mass.timeout Mass.log Trigger.with_log Trigger.timeout
             Trigger.log].
      split; [done|]. rewrite Hlog. unfold logDebug, logInfo. by rewrite <- app_assoc.
    + intros closable. unfold Host.WaitForDeath, Trigger.wg_Wait. rewrite Hwg, Hl. done.
Qed.

Lemma setters_only_configure_witness :
  exists st,
    Host.from_NewDeath [2; 15]
      [Host.Trig (Trigger.EvSetTimeout 5); Host.Trig (Trigger.EvSignal 15);
       Host.EvSetLogger (Some [mkEntry LInfo [VStr "starting"]]);
       Host.Trig (Trigger.EvListen Trigger.FromSig); Host.EvSetLogger None;
       Host.Trig (Trigger.EvSetTimeout 7)]
    = Next st /\
    Trigger.timeout (Trigger.death (Host.world st)) = 7 /\
    Host.nil_log st = true /\
    forall closable,
      Host.WaitForDeath st closable =
        Panic "runtime error: invalid memory address or nil pointer dereference".
Proof.
  eexists. split; [reflexivity|].
  destruct (setters_only_configure [2; 15]
              [Host.Trig (Trigger.EvSetTimeout 5); Host.Trig (Trigger.EvSignal 15);
               Host.EvSetLogger (Some [mkEntry LInfo [VStr "starting"]]);
               Host.Trig (Trigger.EvListen Trigger.FromSig); Host.EvSetLogger None;
               Host.Trig (Trigger.EvSetTimeout 7)]
              _ eq_refl) as (Ht & Hl & _ & _ & Hpanic).
  split; [exact Ht|]. split; [exact Hl|exact (Hpanic eq_refl)].
Defined.
